(** * Chat synchronisation engine of the Clawdbot panel

    A shallow embedding of the chat-specific logic of
    [ha-config/www/clawdbot-panel.js]: the dedupe key ([simpleHash],
    [chatItemKey]), the seen-key set ([syncChatSeenIds]), the forward cursor
    ([maxChatTs]), the initial load ([loadChatLatest]), backward pagination
    ([loadOlderChat]), the poll loop ([startChatPolling], [stopChatPolling],
    [scheduleChatPoll], [pollSessionsHistory]) and the session selector's
    [onchange] handler.

    Conventions of the embedding.
    - The module-level [let] variables of the script are the fields of one
      [State] record, threaded explicitly through every function.
    - An [async] function is cut at its [await]s: one definition per segment
      that runs without suspension; the value the awaited call settles with
      is an argument of the next segment.
    - The host is part of the state: the pending timeouts of [setTimeout] and
      the log of service calls handed to the websocket connection.
    - [Date.now()] is an argument ([now]).
    - [updateChatPollDebug], [setTyping], [setTokenUsage] and the
      [DEBUG_UI] branches only touch the page, the console and
      [chatLastPollDebugDetail]; they read the chat state, never write it
      and do not throw, and are left out. [renderChat] does the same but
      throws when the window holds a [null]: the model keeps that (the
      elements of the chat view are taken to be in the page).
    - The log of service calls holds the calls of [chat_poll],
      [chat_history_delta] and [session_status_get].
    - Message fields hold strings or are absent; a JavaScript string is a
      [string] whose characters are code units below 256. *)

From Stdlib Require Import ZArith Lia Bool List Ascii String.
From Stdlib Require OrderedTypeEx.
From stdpp Require Import base decidable gmap strings list sorting.

Local Open Scope string_scope.

(** ** JavaScript values as the chat code uses them *)

Module Js.

Local Open Scope Z_scope.

(** A property that holds a string, or is missing ([undefined]/[null]). *)
Definition value := option string.

(** Truthiness: a missing property and the empty string are falsy. *)
Definition truthy (v : value) : bool :=
  match v with
  | Some s => negb (String.eqb s "")
  | None => false
  end.

(** [a || b] *)
Definition or (a b : value) : value := if truthy a then a else b.

(** [v || ''], the idiom the script uses to read a string property. *)
Definition strOr (v : value) : string :=
  match v with
  | Some s => s
  | None => ""
  end.

(** [ToInt32] on an integral number. *)
Definition toInt32 (z : Z) : Z := (z + 2 ^ 31) mod 2 ^ 32 - 2 ^ 31.

(** [ToUint32] on an integral number, that is [z >>> 0]. *)
Definition toUint32 (z : Z) : Z := z mod 2 ^ 32.

(** [z << n] for [0 <= n < 32]: both the operand and the result are
    32-bit signed integers. *)
Definition shl (z n : Z) : Z := toInt32 (Z.shiftl (toInt32 z) n).

Definition hexDigit (d : Z) : ascii :=
  if d <? 10 then ascii_of_nat (Z.to_nat (48 + d))
  else ascii_of_nat (Z.to_nat (87 + d)).

Fixpoint hexAux (fuel : nat) (n : Z) (acc : string) : string :=
  match fuel with
  | O => acc
  | S fuel' =>
      let acc' := String (hexDigit (n mod 16)) acc in
      if n / 16 =? 0 then acc' else hexAux fuel' (n / 16) acc'
  end.

(** [n.toString(16)] for an unsigned 32-bit [n]: at most eight digits,
    lower case, no leading zero. *)
Definition toString16 (n : Z) : string := hexAux 8 n "".

(** [s.charCodeAt(i)] of each character in turn. *)
Definition charCode (c : ascii) : Z := Z.of_nat (nat_of_ascii c).

(** [a > b] on strings: code-unit lexicographic order. *)
Definition gt (a b : string) : bool := String.ltb b a.

(** The number that holds the integer [z]: [z] itself up to [2^53] in
    magnitude, beyond that [z] rounded to 53 significant bits, a tie going
    to the even one. (A number becomes infinite only above [2^1023], which
    no sum of the chat code comes near.) *)
Definition toDouble (z : Z) : Z :=
  let a := Z.abs z in
  if a <=? 2 ^ 53 then z
  else
    let e := Z.log2 a - 52 in
    let q := a / 2 ^ e in
    let r := a mod 2 ^ e in
    let q' :=
      if 2 * r <? 2 ^ e then q
      else if 2 ^ e <? 2 * r then q + 1
      else if Z.even q then q else q + 1 in
    Z.sgn z * (q' * 2 ^ e).

End Js.

(** ** Messages *)

Module Msg.

Record t : Type := mk {
  id : Js.value;
  message_id : Js.value;
  messageId : Js.value;
  ts : Js.value;
  role : Js.value;
  session_key : Js.value;
  text : Js.value
}.

End Msg.

(** An element of an [items] array: a message object, or [null]. *)
Definition Item := option Msg.t.

(** ** Dedupe key *)

(** The loop of [simpleHash]: [h = ((h << 5) + h) + s.charCodeAt(i)]. Only
    the shifted term is a 32-bit integer; [h] and the two sums are ordinary
    numbers. [h] moves by at most [2^31 + 255] per character, so the sums
    are exact for a string of less than [2^22] characters and may be
    rounded for a longer one. *)
Fixpoint simpleHashLoop (s : string) (h : Z) : Z :=
  match s with
  | EmptyString => h
  | String c s' =>
      simpleHashLoop s'
        (Js.toDouble (Js.toDouble (Js.shl h 5 + h) + Js.charCode c))%Z
  end.

Definition simpleHash (str : string) : string :=
  Js.toString16 (Js.toUint32 (simpleHashLoop str 5381)).

Definition chatItemKey (it : Item) : string :=
  match it with
  | None => ""
  | Some m =>
      let id := Js.or (Js.or (Msg.id m) (Msg.message_id m)) (Msg.messageId m) in
      if Js.truthy id then Js.strOr id
      else
        let role := Js.strOr (Msg.role m) in
        let ts := Js.strOr (Msg.ts m) in
        let text := Js.strOr (Msg.text m) in
        "h_" ++ simpleHash (role ++ "|" ++ ts ++ "|" ++ text)
  end.

(** ** Constants *)

Definition CHAT_POLL_INTERVAL_MS : Z := 5000.
Definition CHAT_POLL_FAST_MS : Z := 2000.
Definition CHAT_POLL_INITIAL_MS : Z := 1000.
Definition CHAT_POLL_BOOST_WINDOW_MS : Z := 30000.
Definition CHAT_DELTA_LIMIT : Z := 200.
Definition CHAT_HISTORY_PAGE_LIMIT : Z := 50.

(** Declared next to the other constants; the trim in [pollSessionsHistory]
    spells the number out instead of reading it. *)
Definition CHAT_UI_MAX_ITEMS : nat := 200.

(** ** The host: service calls and timeouts *)

(** The arguments of one [callService]/[callServiceResponse] of the chat
    code (domain [clawdbot]); [limit] is [None] when the call has none. *)
Record ServiceCall : Type := mkCall {
  service : string;
  call_session_key : Js.value;
  after_ts : Js.value;
  before_id : Js.value;
  limit : option Z
}.

(** The payload of a [chat_history_delta] response, after the
    [(resp && resp.response) ? resp.response : resp] unwrapping: [items] is
    [None] when the property is not an array. *)
Record Delta : Type := mkDelta {
  items : option (list Item);
  has_older : bool
}.

(** How an awaited call settles. [Resolved None] is a response without a
    payload. *)
Inductive Settled : Type :=
| Resolved (data : option Delta)
| Rejected (message : string).

(** [(data && Array.isArray(data.items)) ? data.items : []] *)
Definition itemsOf (data : option Delta) : list Item :=
  match data with
  | Some d => match items d with Some l => l | None => [] end
  | None => []
  end.

(** [!!(data && data.has_older)] *)
Definition hasOlderOf (data : option Delta) : bool :=
  match data with
  | Some d => has_older d
  | None => false
  end.

(** ** The chat state

    The [let] variables of the script, followed by the host's part: the
    timeouts that are pending (handle and delay, oldest first), the next
    handle [setTimeout] hands out, the service calls made so far (oldest
    first), and the message of the TypeError that reading a property of
    [null] raises, which the script records when [renderChat] throws inside
    the poll. Handles are positive, as in browsers, so a handle is truthy. *)
Record State : Type := mkState {
  chatItems : list Item;
  chatHasOlder : bool;
  chatLoadingOlder : bool;
  chatSessionKey : Js.value;
  chatPollingActive : bool;
  chatPollTimer : option positive;
  chatLastSeenIds : gset string;
  chatPollBoostUntil : Z;
  chatLastPollTs : option Z;
  chatLastPollAppended : nat;
  chatLastPollError : option string;
  timers : list (positive * Z);
  nextTimer : positive;
  calls : list ServiceCall;
  renderError : string
}.

Definition set_chatItems (v : list Item) (st : State) : State :=
  mkState v (chatHasOlder st) (chatLoadingOlder st) (chatSessionKey st)
    (chatPollingActive st) (chatPollTimer st) (chatLastSeenIds st)
    (chatPollBoostUntil st) (chatLastPollTs st) (chatLastPollAppended st)
    (chatLastPollError st) (timers st) (nextTimer st) (calls st)
    (renderError st).

Definition set_chatHasOlder (v : bool) (st : State) : State :=
  mkState (chatItems st) v (chatLoadingOlder st) (chatSessionKey st)
    (chatPollingActive st) (chatPollTimer st) (chatLastSeenIds st)
    (chatPollBoostUntil st) (chatLastPollTs st) (chatLastPollAppended st)
    (chatLastPollError st) (timers st) (nextTimer st) (calls st)
    (renderError st).

Definition set_chatLoadingOlder (v : bool) (st : State) : State :=
  mkState (chatItems st) (chatHasOlder st) v (chatSessionKey st)
    (chatPollingActive st) (chatPollTimer st) (chatLastSeenIds st)
    (chatPollBoostUntil st) (chatLastPollTs st) (chatLastPollAppended st)
    (chatLastPollError st) (timers st) (nextTimer st) (calls st)
    (renderError st).

Definition set_chatSessionKey (v : Js.value) (st : State) : State :=
  mkState (chatItems st) (chatHasOlder st) (chatLoadingOlder st) v
    (chatPollingActive st) (chatPollTimer st) (chatLastSeenIds st)
    (chatPollBoostUntil st) (chatLastPollTs st) (chatLastPollAppended st)
    (chatLastPollError st) (timers st) (nextTimer st) (calls st)
    (renderError st).

Definition set_chatPollingActive (v : bool) (st : State) : State :=
  mkState (chatItems st) (chatHasOlder st) (chatLoadingOlder st)
    (chatSessionKey st) v (chatPollTimer st) (chatLastSeenIds st)
    (chatPollBoostUntil st) (chatLastPollTs st) (chatLastPollAppended st)
    (chatLastPollError st) (timers st) (nextTimer st) (calls st)
    (renderError st).

Definition set_chatPollTimer (v : option positive) (st : State) : State :=
  mkState (chatItems st) (chatHasOlder st) (chatLoadingOlder st)
    (chatSessionKey st) (chatPollingActive st) v (chatLastSeenIds st)
    (chatPollBoostUntil st) (chatLastPollTs st) (chatLastPollAppended st)
    (chatLastPollError st) (timers st) (nextTimer st) (calls st)
    (renderError st).

Definition set_chatLastSeenIds (v : gset string) (st : State) : State :=
  mkState (chatItems st) (chatHasOlder st) (chatLoadingOlder st)
    (chatSessionKey st) (chatPollingActive st) (chatPollTimer st) v
    (chatPollBoostUntil st) (chatLastPollTs st) (chatLastPollAppended st)
    (chatLastPollError st) (timers st) (nextTimer st) (calls st)
    (renderError st).

Definition set_chatPollBoostUntil (v : Z) (st : State) : State :=
  mkState (chatItems st) (chatHasOlder st) (chatLoadingOlder st)
    (chatSessionKey st) (chatPollingActive st) (chatPollTimer st)
    (chatLastSeenIds st) v (chatLastPollTs st) (chatLastPollAppended st)
    (chatLastPollError st) (timers st) (nextTimer st) (calls st)
    (renderError st).

Definition set_chatLastPollTs (v : option Z) (st : State) : State :=
  mkState (chatItems st) (chatHasOlder st) (chatLoadingOlder st)
    (chatSessionKey st) (chatPollingActive st) (chatPollTimer st)
    (chatLastSeenIds st) (chatPollBoostUntil st) v (chatLastPollAppended st)
    (chatLastPollError st) (timers st) (nextTimer st) (calls st)
    (renderError st).

Definition set_chatLastPollAppended (v : nat) (st : State) : State :=
  mkState (chatItems st) (chatHasOlder st) (chatLoadingOlder st)
    (chatSessionKey st) (chatPollingActive st) (chatPollTimer st)
    (chatLastSeenIds st) (chatPollBoostUntil st) (chatLastPollTs st) v
    (chatLastPollError st) (timers st) (nextTimer st) (calls st)
    (renderError st).

Definition set_chatLastPollError (v : option string) (st : State) : State :=
  mkState (chatItems st) (chatHasOlder st) (chatLoadingOlder st)
    (chatSessionKey st) (chatPollingActive st) (chatPollTimer st)
    (chatLastSeenIds st) (chatPollBoostUntil st) (chatLastPollTs st)
    (chatLastPollAppended st) v (timers st) (nextTimer st) (calls st)
    (renderError st).

Definition set_timers (v : list (positive * Z)) (st : State) : State :=
  mkState (chatItems st) (chatHasOlder st) (chatLoadingOlder st)
    (chatSessionKey st) (chatPollingActive st) (chatPollTimer st)
    (chatLastSeenIds st) (chatPollBoostUntil st) (chatLastPollTs st)
    (chatLastPollAppended st) (chatLastPollError st) v (nextTimer st)
    (calls st)
    (renderError st).

Definition set_nextTimer (v : positive) (st : State) : State :=
  mkState (chatItems st) (chatHasOlder st) (chatLoadingOlder st)
    (chatSessionKey st) (chatPollingActive st) (chatPollTimer st)
    (chatLastSeenIds st) (chatPollBoostUntil st) (chatLastPollTs st)
    (chatLastPollAppended st) (chatLastPollError st) (timers st) v
    (calls st)
    (renderError st).

Definition set_calls (v : list ServiceCall) (st : State) : State :=
  mkState (chatItems st) (chatHasOlder st) (chatLoadingOlder st)
    (chatSessionKey st) (chatPollingActive st) (chatPollTimer st)
    (chatLastSeenIds st) (chatPollBoostUntil st) (chatLastPollTs st)
    (chatLastPollAppended st) (chatLastPollError st) (timers st)
    (nextTimer st) v (renderError st).

(** The state when the script has just been loaded, in a browser whose
    first timeout handle is 1 and whose TypeError reads as that of V8. *)
Definition initialState : State :=
  mkState [] false false None false None ∅ 0 None 0 None [] 1%positive []
    "Cannot read properties of null (reading 'role')".

(** [setTimeout(pollSessionsHistory, delay)]: the handle it returns and the
    host afterwards. *)
Definition setTimeout (delay : Z) (st : State) : positive * State :=
  let h := nextTimer st in
  (h, set_nextTimer (Pos.succ h) (set_timers (timers st ++ [(h, delay)]) st)).

(** The pending timeouts without the one whose handle is [h]. *)
Definition dropTimer (h : positive) (l : list (positive * Z))
    : list (positive * Z) :=
  List.filter (fun t => negb (Pos.eqb (fst t) h)) l.

(** [clearTimeout(h)]: a handle that is not pending is ignored. *)
Definition clearTimeout (h : positive) (st : State) : State :=
  set_timers (dropTimer h (timers st)) st.

Definition callService (c : ServiceCall) (st : State) : State :=
  set_calls (calls st ++ [c]) st.

(** ** Seen keys and forward cursor *)

Definition nonEmpty (s : string) : bool := negb (String.eqb s "").

(** [new Set(list)] *)
Definition newSet (l : list string) : gset string := list_to_set l.

Definition syncChatSeenIds (st : State) : State :=
  if Nat.ltb 0 (size (chatLastSeenIds st)) then st
  else
    let ids := List.filter nonEmpty (map chatItemKey (chatItems st)) in
    set_chatLastSeenIds (newSet ids) st.

(** [it && it.ts ? String(it.ts) : ''] *)
Definition itemTs (it : Item) : string :=
  match it with
  | Some m => if Js.truthy (Msg.ts m) then Js.strOr (Msg.ts m) else ""
  | None => ""
  end.

Definition maxChatTsOf (l : list Item) : string :=
  fold_left
    (fun max it =>
       let ts := itemTs it in
       if nonEmpty ts && Js.gt ts max then ts else max)
    l "".

Definition maxChatTs (st : State) : string := maxChatTsOf (chatItems st).

(** ** Rendering

    [renderChat] reads the chat state and writes the page. With the chat
    view in the page it goes through the window and reads [msg.role] of
    every item, which raises a TypeError when the item is [null]; nothing
    else in it throws. *)

(** Some item of the list is [null]. *)
Definition hasNull (l : list Item) : bool :=
  existsb (fun it : Item => match it with None => true | Some _ => false end)
    l.

(** [true] when [renderChat] throws. *)
Definition renderChatThrows (st : State) : bool := hasNull (chatItems st).

(** ** Initial load *)

(** [loadChatFromConfig]: [history], [hasOlder] and [sessionKey] are
    [cfg.chat_history] (an array of objects, or [[]]),
    [cfg.chat_history_has_older] and [cfg.session_key]. Each item is copied
    field by field, so [message_id] and [messageId] are not carried over. *)
Definition loadChatFromConfig (DEBUG_UI : bool) (history : list Msg.t)
    (hasOlder : bool) (sessionKey : Js.value) (st : State) : State :=
  let its :=
    map (fun it => Some (Msg.mk (Msg.id it) None None (Msg.ts it) (Msg.role it)
                           (Msg.session_key it) (Msg.text it))) history in
  let st := set_chatItems its st in
  let st := set_chatHasOlder hasOlder st in
  let st := set_chatSessionKey (Js.or sessionKey None) st in
  let st :=
    if DEBUG_UI && Nat.leb 1 (length (chatItems st))
    then set_chatHasOlder true st else st in
  syncChatSeenIds st.

(** [loadChatLatest], up to its [await]: the call it makes. *)
Definition loadChatLatest_call (st : State) : State :=
  callService
    (mkCall "chat_history_delta" (chatSessionKey st) None None
       (Some CHAT_HISTORY_PAGE_LIMIT)) st.

(** [loadChatLatest], from its [await] on. A rejection is caught and only
    logged. *)
Definition loadChatLatest_settle (r : Settled) (st : State) : State :=
  match r with
  | Resolved data =>
      let st := set_chatItems (itemsOf data) st in
      let st := set_chatHasOlder (hasOlderOf data) st in
      syncChatSeenIds st
  | Rejected _ => st
  end.

(** ** Backward pagination *)

(** The [id] of the first item that has a truthy one, or [null]. *)
Fixpoint beforeIdOf (l : list Item) : Js.value :=
  match l with
  | [] => None
  | Some m :: rest => if Js.truthy (Msg.id m) then Msg.id m else beforeIdOf rest
  | None :: rest => beforeIdOf rest
  end.

(** [it && it.id] *)
Definition itemId (it : Item) : Js.value :=
  match it with
  | Some m => Msg.id m
  | None => None
  end.

(** [new Set(chatItems.map((it)=>it && it.id).filter(Boolean))] *)
Definition existingIds (l : list Item) : gset string :=
  newSet (map Js.strOr (List.filter Js.truthy (map itemId l))).

(** The loop filling [prepend]. The set of ids is not extended inside the
    loop. *)
Definition prependOf (existing : gset string) (fetched : list Item)
    : list Item :=
  List.filter
    (fun it =>
       negb (negb (Js.truthy (itemId it))
             || bool_decide (Js.strOr (itemId it) ∈ existing)))
    fetched.

(** [loadOlderChat], up to its [await]. [renderChat] runs once the flag is
    set and before the [try]: when it throws, the function ends there, with
    the flag set and no call made. (Where [renderChat] is the last
    statement, its throwing leaves the state as it is.) *)
Definition loadOlderChat (st : State) : State :=
  if chatLoadingOlder st then st
  else
    let beforeId := beforeIdOf (chatItems st) in
    if negb (Js.truthy beforeId) then set_chatHasOlder false st
    else
      let st := set_chatLoadingOlder true st in
      if renderChatThrows st then st
      else
        callService
          (mkCall "chat_history_delta" (chatSessionKey st) None beforeId
             (Some CHAT_HISTORY_PAGE_LIMIT)) st.

(** [loadOlderChat], from its [await] on: the [try] body when the call
    resolved, nothing but a warning when it was rejected, then the [finally]
    block. *)
Definition loadOlderChat_settle (r : Settled) (st : State) : State :=
  let st :=
    match r with
    | Resolved data =>
        let fetched := itemsOf data in
        let existing := existingIds (chatItems st) in
        let prepend := prependOf existing fetched in
        let st :=
          if Nat.ltb 0 (length prepend)
          then set_chatItems (prepend ++ chatItems st) st else st in
        let st := set_chatHasOlder (hasOlderOf data) st in
        syncChatSeenIds st
    | Rejected _ => st
    end in
  set_chatLoadingOlder false st.

(** ** The poll loop *)

Definition stopChatPolling (st : State) : State :=
  let st := set_chatPollingActive false st in
  match chatPollTimer st with
  | Some h => set_chatPollTimer None (clearTimeout h st)
  | None => st
  end.

Definition boostChatPolling (now : Z) (st : State) : State :=
  set_chatPollBoostUntil (now + CHAT_POLL_BOOST_WINDOW_MS)%Z st.

(** [Math.max(500, delayMs || 0)] *)
Definition clampDelay (delayMs : Z) : Z :=
  Z.max 500 (if Z.eqb delayMs 0 then 0 else delayMs).

Definition scheduleChatPoll (delayMs : Z) (st : State) : State :=
  if negb (chatPollingActive st) then st
  else
    let st :=
      match chatPollTimer st with
      | Some h => clearTimeout h st
      | None => st
      end in
    let '(h, st) := setTimeout (clampDelay delayMs) st in
    set_chatPollTimer (Some h) st.

Definition startChatPolling (st : State) : State :=
  if chatPollingActive st then st
  else
    let st := set_chatPollingActive true st in
    scheduleChatPoll CHAT_POLL_INITIAL_MS st.

(** [chatItems.slice(-n)] *)
Definition sliceLast {A : Type} (n : nat) (l : list A) : list A :=
  skipn (length l - n) l.

(** The [for] loop that pushes the new items: the array and the key set
    after it. *)
Fixpoint mergeLoop (newer : list Item) (its : list Item)
    (existing : gset string) : list Item * gset string :=
  match newer with
  | [] => (its, existing)
  | it :: rest =>
      let k := chatItemKey it in
      if negb (nonEmpty k) || bool_decide (k ∈ existing)
      then mergeLoop rest its existing
      else mergeLoop rest (its ++ [it]) ({[k]} ∪ existing)
  end.

(** The block "Merge new items onto existing list". *)
Definition mergeNewer (its newer : list Item) : list Item :=
  if Nat.ltb 0 (length newer) then
    let existing := newSet (map chatItemKey its) in
    let its := fst (mergeLoop newer its existing) in
    if Nat.ltb 200 (length its) then sliceLast 200 its else its
  else its.

(** [it && it.role === 'agent'] *)
Definition isAgent (it : Item) : bool :=
  match it with
  | Some m =>
      match Msg.role m with
      | Some r => String.eqb r "agent"
      | None => false
      end
  | None => false
  end.

(** The [for] loop of the "+N" count: [nextSeen] and [appendedCount] after
    it. *)
Fixpoint countLoop (newer : list Item) (nextSeen : gset string)
    (appendedCount : nat) : gset string * nat :=
  match newer with
  | [] => (nextSeen, appendedCount)
  | it :: rest =>
      let key := chatItemKey it in
      if negb (nonEmpty key) then countLoop rest nextSeen appendedCount
      else if bool_decide (key ∈ nextSeen)
      then countLoop rest nextSeen appendedCount
      else
        countLoop rest ({[key]} ∪ nextSeen)
          (if isAgent it then S appendedCount else appendedCount)
  end.

(** What [pollSessionsHistory] keeps in local constants across its
    [await]s. *)
Record PollCtx : Type := mkPollCtx {
  currentSession : Js.value;
  seenBefore : gset string
}.

(** [pollSessionsHistory] when the timeout fires, up to the first [await]
    (the [chat_poll] call); [None] when it returns before that. *)
Definition pollSessionsHistory (now : Z) (st : State)
    : State * option PollCtx :=
  if negb (chatPollingActive st) then (st, None)
  else if negb (Js.truthy (chatSessionKey st)) then
    let st := set_chatLastPollTs (Some now) st in
    let st := set_chatLastPollAppended 0 st in
    let st := set_chatLastPollError None st in
    (scheduleChatPoll CHAT_POLL_INTERVAL_MS st, None)
  else
    let currentSession := chatSessionKey st in
    let seenBefore := chatLastSeenIds st in
    let st :=
      callService
        (mkCall "chat_poll" currentSession None None
           (Some CHAT_HISTORY_PAGE_LIMIT))
        st in
    (st, Some (mkPollCtx currentSession seenBefore)).

(** From the moment [chat_poll] resolved up to the second [await] (the
    [chat_history_delta] call with [after_ts: afterTs || null]). *)
Definition pollSessionsHistory_refreshed (now : Z) (ctx : PollCtx)
    (st : State) : State :=
  let st := set_chatLastPollTs (Some now) st in
  let st := set_chatLastPollError None st in
  let afterTs := maxChatTs st in
  callService
    (mkCall "chat_history_delta" (currentSession ctx)
       (Js.or (Some afterTs) None) None (Some CHAT_DELTA_LIMIT)) st.

(** The [try] block once [chat_history_delta] resolved, up to the call of
    [renderChat]. *)
Definition pollSessionsHistory_merge (ctx : PollCtx) (data : option Delta)
    (st : State) : State :=
  let newer := itemsOf data in
  let st := set_chatItems (mergeNewer (chatItems st) newer) st in
  let '(nextSeen, appendedCount) := countLoop newer (seenBefore ctx) 0 in
  let st := set_chatLastSeenIds nextSeen st in
  set_chatLastPollAppended appendedCount st.

(** [String(e && (e.message || e)).slice(0, 120)] for an error whose text
    is [message]. *)
Definition errorText (message : string) : string :=
  String.substring 0 120 message.

(** The [catch] block. *)
Definition pollSessionsHistory_catch (now : Z) (message : string)
    (st : State) : State :=
  let st := set_chatLastPollTs (Some now) st in
  let st := set_chatLastPollAppended 0 st in
  set_chatLastPollError (Some (errorText message)) st.

(** [renderChat] at the end of the [try] block: when it throws, the
    [catch] block runs on its TypeError. *)
Definition pollSessionsHistory_render (now : Z) (st : State) : State :=
  if renderChatThrows st
  then pollSessionsHistory_catch now (renderError st) st
  else st.

(** After the [try]/[catch]: boost and reschedule. *)
Definition pollSessionsHistory_tail (now : Z) (st : State) : State :=
  let st :=
    if Nat.ltb 0 (chatLastPollAppended st) then boostChatPolling now st
    else st in
  let delay :=
    if Z.ltb now (chatPollBoostUntil st) then CHAT_POLL_FAST_MS
    else CHAT_POLL_INTERVAL_MS in
  scheduleChatPoll delay st.

(** Settling of the first [await]: on to the second call, or through the
    [catch] block to the tail. *)
Definition pollSessionsHistory_afterPoll (now : Z) (ctx : PollCtx)
    (r : Settled) (st : State) : State :=
  match r with
  | Resolved _ => pollSessionsHistory_refreshed now ctx st
  | Rejected message =>
      pollSessionsHistory_tail now (pollSessionsHistory_catch now message st)
  end.

(** Settling of the second [await]: merge, count, render and reschedule,
    or [catch] and reschedule. *)
Definition pollSessionsHistory_afterDelta (now : Z) (ctx : PollCtx)
    (r : Settled) (st : State) : State :=
  match r with
  | Resolved data =>
      pollSessionsHistory_tail now
        (pollSessionsHistory_render now (pollSessionsHistory_merge ctx data st))
  | Rejected message =>
      pollSessionsHistory_tail now (pollSessionsHistory_catch now message st)
  end.

(** One whole poll cycle in which nothing else runs between the segments:
    both calls resolve, the second one with [data]. *)
Definition pollCycle (now : Z) (data : option Delta) (st : State) : State :=
  match pollSessionsHistory now st with
  | (st, Some ctx) =>
      let st := pollSessionsHistory_afterPoll now ctx (Resolved None) st in
      pollSessionsHistory_afterDelta now ctx (Resolved data) st
  | (st, None) => st
  end.

(** ** Session switch: [sessionSel.onchange] *)

(** Up to the [await] inside [loadChatLatest]; [value] is
    [sessionSel.value]. *)
Definition onchange_begin (value : string) (st : State) : State :=
  let st := set_chatSessionKey (Js.or (Some value) None) st in
  loadChatLatest_call st.

(** [refreshTokenUsage], up to its [await]: without a session key it only
    writes the page. What its call settles with is written to the page and
    nowhere else. *)
Definition refreshTokenUsage (st : State) : State :=
  if negb (Js.truthy (chatSessionKey st)) then st
  else
    callService
      (mkCall "session_status_get" (chatSessionKey st) None None None) st.

(** From there to the [await] of [refreshTokenUsage]: [loadChatLatest]
    settles, the chat is rendered and the token usage is asked for. The
    second component is [false] when [renderChat] throws, which ends the
    handler. *)
Definition onchange_loaded (r : Settled) (st : State) : State * bool :=
  let st := loadChatLatest_settle r st in
  if renderChatThrows st then (st, false) else (refreshTokenUsage st, true).

(** The last statement. *)
Definition onchange_end (st : State) : State :=
  if chatPollingActive st then scheduleChatPoll CHAT_POLL_INITIAL_MS st
  else st.

(** The handler when nothing else runs between its segments. *)
Definition onchange (value : string) (r : Settled) (st : State) : State :=
  let '(st, go) := onchange_loaded r (onchange_begin value st) in
  if go then onchange_end st else st.

(** ** Events

    Everything that runs against the chat state, one constructor per
    segment that runs without suspension: opening the chat tab
    ([loadChatFromConfig], then [loadChatLatest], then [startChatPolling]),
    leaving it ([stopChatPolling]), the host running the callback of the
    pending timeout [h] ([EvFire]), the two continuations of a poll, which
    carry what the poll captured, the "Load older" button and the
    continuation of its call, the session selector (the "New session" button
    ends the same way), [refreshTokenUsage], and the end of the send handler.
    A segment that [renderChat] ends by throwing is followed by none of its
    handler. *)
Inductive Event : Type :=
| EvSwitchToChat (DEBUG_UI : bool) (history : list Msg.t) (hasOlder : bool)
    (sessionKey : Js.value)
| EvLoadLatestCall
| EvLoadLatestSettle (r : Settled)
| EvStart
| EvStop
| EvFire (h : positive) (now : Z)
| EvPollSettle1 (now : Z) (ctx : PollCtx) (r : Settled)
| EvPollSettle2 (now : Z) (ctx : PollCtx) (r : Settled)
| EvLoadOlder
| EvLoadOlderSettle (r : Settled)
| EvChangeBegin (value : string)
| EvChangeEnd
| EvTokenUsage
| EvSendEnd (now : Z).

(** The host takes a pending timeout off its list and runs the callback. *)
Definition fire (h : positive) (now : Z) (st : State) : State :=
  if existsb (fun t => Pos.eqb (fst t) h) (timers st)
  then fst (pollSessionsHistory now (set_timers (dropTimer h (timers st)) st))
  else st.

(** The end of [composerSend.onclick] after its [loadChatLatest]:
    [renderChat(...); boostChatPolling();
    if (chatPollingActive) scheduleChatPoll(...)]. *)
Definition send_end (now : Z) (st : State) : State :=
  if renderChatThrows st then st
  else
    let st := boostChatPolling now st in
    if chatPollingActive st then scheduleChatPoll CHAT_POLL_INITIAL_MS st
    else st.

Definition step (e : Event) (st : State) : State :=
  match e with
  | EvSwitchToChat dbg history hasOlder sessionKey =>
      loadChatFromConfig dbg history hasOlder sessionKey st
  | EvLoadLatestCall => loadChatLatest_call st
  | EvLoadLatestSettle r => loadChatLatest_settle r st
  | EvStart => startChatPolling st
  | EvStop => stopChatPolling st
  | EvFire h now => fire h now st
  | EvPollSettle1 now ctx r => pollSessionsHistory_afterPoll now ctx r st
  | EvPollSettle2 now ctx r => pollSessionsHistory_afterDelta now ctx r st
  | EvLoadOlder => loadOlderChat st
  | EvLoadOlderSettle r => loadOlderChat_settle r st
  | EvChangeBegin value => onchange_begin value st
  | EvChangeEnd => onchange_end st
  | EvTokenUsage => refreshTokenUsage st
  | EvSendEnd now => send_end now st
  end.

(** The state after a sequence of events, first event first. *)
Definition run (es : list Event) (st : State) : State :=
  fold_left (fun st e => step e st) es st.

(** ** Pagination calls in flight *)

(** [loadOlderChat] issues its call in [st]: the flag is clear, the window
    has an anchor and [renderChat] does not throw. *)
Definition olderIssued (st : State) : bool :=
  negb (chatLoadingOlder st) && Js.truthy (beforeIdOf (chatItems st))
  && negb (renderChatThrows st).

(** The number of [loadOlderChat] calls awaiting their response after the
    events [es], from [st] with [n] of them awaiting; [None] when [es]
    settles a call that was never made, which the host never does. *)
Fixpoint olderInFlight (es : list Event) (st : State) (n : nat) : option nat :=
  match es with
  | [] => Some n
  | e :: rest =>
      match e with
      | EvLoadOlder =>
          olderInFlight rest (step e st) (if olderIssued st then S n else n)
      | EvLoadOlderSettle _ =>
          match n with
          | O => None
          | S n' => olderInFlight rest (step e st) n'
          end
      | _ => olderInFlight rest (step e st) n
      end
  end.

(** ** Invariant of the poll timer *)

(** Whatever is pending is the one timeout whose handle [chatPollTimer]
    holds, and it was scheduled with a clamped delay. *)
Definition timerInv (st : State) : Prop :=
  timers st = []
  \/ exists h d,
       timers st = [(h, d)] /\ chatPollTimer st = Some h /\ (500 <= d)%Z.

(** ** Reading the count *)

(** The items of a batch that the count takes for new: keyed, and the key
    is not in the snapshot. *)
Definition freshIn (seen : gset string) (it : Item) : bool :=
  nonEmpty (chatItemKey it) && negb (bool_decide (chatItemKey it ∈ seen)).

(** ** Reading the merge loop

    The items the [for] loop of the merge pushes, without the array they
    are pushed onto. [mergeLoop_fst] relates it to [mergeLoop]. *)
Fixpoint addedBy (newer : list Item) (existing : gset string) : list Item :=
  match newer with
  | [] => []
  | it :: rest =>
      let k := chatItemKey it in
      if negb (nonEmpty k) || bool_decide (k ∈ existing)
      then addedBy rest existing
      else it :: addedBy rest ({[k]} ∪ existing)
  end.

(** [keyed l k]: some item of [l] has the non-empty key [k]. *)
Definition keyed (l : list Item) (k : string) : Prop :=
  nonEmpty k = true /\ In k (map chatItemKey l).

(** Every keyed item of the batch has its key in the window. *)
Definition absorbed (its newer : list Item) : Prop :=
  forall k, keyed newer k -> keyed its k.

(** ** The window under merges and prepends *)

(** What [loadOlderChat] makes of the window once its call resolved with
    [fetched]; [loadOlderChat_settle_chatItems] relates it to the code. *)
Definition prependOlder (its fetched : list Item) : list Item :=
  let prepend := prependOf (existingIds its) fetched in
  if Nat.ltb 0 (length prepend) then (prepend ++ its)%list else its.

(** The first item that has a truthy [id]: the item [beforeIdOf] takes the
    anchor from. *)
Definition anchorOf (its : list Item) : option Item :=
  List.find (fun it => Js.truthy (itemId it)) its.

(** The window's order: by [itemTs], the timestamp [maxChatTs] reads. *)
Definition tsLe (a b : Item) : Prop := String.leb (itemTs a) (itemTs b) = true.


(** Non-decreasing by timestamp: each item is at most its successor. *)
Definition ordered (l : list Item) : Prop := Sorted tsLe l.

(** One mutation of the window: the merge of a poll cycle whose delta call
    was sent with the boundary [after] ([after_ts], empty for [null]) and
    resolved with [newer], or the prepend of a [loadOlderChat] whose call
    resolved with [fetched] (nothing is fetched without an anchor). *)
Inductive WindowOp : Type :=
| OpPoll (after : string) (newer : list Item)
| OpOlder (fetched : list Item).

Definition applyOp (its : list Item) (op : WindowOp) : list Item :=
  match op with
  | OpPoll _ newer => mergeNewer its newer
  | OpOlder fetched =>
      if Js.truthy (beforeIdOf its) then prependOlder its fetched else its
  end.


(** A delta batch as the server is meant to send it for a query with the
    boundary [after]: ascending, and no item before the boundary. *)
Definition deltaContract (after : string) (newer : list Item) : Prop :=
  ordered newer
  /\ Forall (fun it => String.leb after (itemTs it) = true) newer.




(** The items an awaited [chat_history_delta] call settled with; none when
    it was rejected. *)
Definition settledItems (r : Settled) : list Item :=
  match r with
  | Resolved data => itemsOf data
  | Rejected _ => []
  end.

(** ** Entity suggestions

    [scoreEntity], [topCandidates], [pickerRules], [bestCandidate],
    [mappingWithDefaults] and [computeAutoFill]. [hass.states] is the list
    of its entries in the order [Object.entries] yields them, each state
    object possibly [null]; attribute values are strings or absent. *)

(** [c.toLowerCase()] on one code unit below 256: the letters A to Z and
    the capital letters of Latin-1 (all of 192 to 222 but the
    multiplication sign) move up by 32. *)
Definition lowerChar (c : ascii) : ascii :=
  let n := nat_of_ascii c in
  if (Nat.leb 65 n && Nat.leb n 90)
     || (Nat.leb 192 n && Nat.leb n 214)
     || (Nat.leb 216 n && Nat.leb n 222)
  then ascii_of_nat (n + 32) else c.

Fixpoint toLowerCase (s : string) : string :=
  match s with
  | EmptyString => EmptyString
  | String c s' => String (lowerChar c) (toLowerCase s')
  end.

(** [s.includes(kw)] *)
Fixpoint includes (kw s : string) : bool :=
  match s with
  | EmptyString => String.prefix kw s
  | String _ s' => String.prefix kw s || includes kw s'
  end.

(** [s.startsWith(p)] *)
Definition startsWith (p s : string) : bool := String.prefix p s.

Module Entity.

Record attrs : Type := mkAttrs {
  friendly_name : Js.value;
  device_class : Js.value;
  unit_of_measurement : Js.value
}.

Record t : Type := mk {
  state : Js.value;
  attributes : option attrs
}.

End Entity.

Record Rules : Type := mkRules {
  label : string;
  keywords : list string;
  units : list string;
  weak : list string
}.

(** The [meta] objects; [score] is [None] until it is assigned. *)
Record Meta : Type := mkMeta {
  entity_id : string;
  name : string;
  unit : string;
  state : Js.value;
  score : option Z
}.

Definition scoreEntity (meta : Meta) (rules : Rules) : Z :=
  let id := toLowerCase (entity_id meta) in
  let name := toLowerCase (name meta) in
  let unit := toLowerCase (unit meta) in
  let s := 0%Z in
  let s :=
    fold_left
      (fun s kw => if includes kw id || includes kw name then (s + 3)%Z else s)
      (keywords rules) s in
  let s :=
    fold_left
      (fun s kw => if includes kw id || includes kw name then (s + 1)%Z else s)
      (weak rules) s in
  let s := if existsb (String.eqb unit) (units rules) then (s + 2)%Z else s in
  if startsWith "automation." id || startsWith "update." id then (s - 2)%Z
  else s.

(** [(a && (a.friendly_name || a.device_class || '')) || ''] *)
Definition nameOf (a : option Entity.attrs) : string :=
  match a with
  | Some a => Js.strOr (Js.or (Entity.friendly_name a) (Entity.device_class a))
  | None => ""
  end.

(** [(a && a.unit_of_measurement) || ''] *)
Definition unitOf (a : option Entity.attrs) : string :=
  match a with
  | Some a => Js.strOr (Entity.unit_of_measurement a)
  | None => ""
  end.

(** The [meta] that [bestCandidate] builds for one entry; [st] may be
    [null]. *)
Definition metaOf (entry : string * option Entity.t) : Meta :=
  match snd entry with
  | Some st =>
      mkMeta (fst entry) (nameOf (Entity.attributes st))
        (unitOf (Entity.attributes st)) (Entity.state st) None
  | None => mkMeta (fst entry) "" "" (Some "") None
  end.

Definition withScore (s : Z) (m : Meta) : Meta :=
  mkMeta (entity_id m) (name m) (unit m) (state m) (Some s).

(** [array.sort((a,b)=>b.score-a.score)], which is stable: descending by
    score, items of equal score in the order they had. *)
Fixpoint insertByScore (x : Z * Meta) (l : list (Z * Meta)) : list (Z * Meta) :=
  match l with
  | [] => [x]
  | y :: l' =>
      if Z.ltb (fst x) (fst y) then y :: insertByScore x l'
      else x :: y :: l'
  end.

Definition sortByScore (l : list (Z * Meta)) : list (Z * Meta) :=
  fold_right insertByScore [] l.

(** [topCandidates(hass, rules, limit)]: [None] when a state object is
    [null], which makes [st.attributes] throw. The result pairs each
    candidate with its score. *)
Definition topCandidates (states : list (string * option Entity.t))
    (rules : Rules) (limit : nat) : option (list Meta) :=
  if forallb (fun e => match snd e with Some _ => true | None => false end)
       states
  then
    let scored := map (fun e => (scoreEntity (metaOf e) rules, metaOf e)) states in
    let out := List.filter (fun p => Z.ltb 0 (fst p)) scored in
    let out := sortByScore out in
    let limit := if Nat.eqb limit 0 then 3%nat else limit in
    Some (map (fun p => withScore (fst p) (snd p)) (firstn limit out))
  else None.

Inductive Field : Type := soc | voltage | solar | load.

(** [pickerRules(field)] for the four fields the script passes. *)
Definition pickerRules (field : Field) : Rules :=
  match field with
  | soc =>
      mkRules "Battery SOC (%)"
        ["soc"; "state_of_charge"; "battery_soc"; "clawdbot_test_battery_soc"]
        ["%"] ["battery"]
  | voltage =>
      mkRules "Battery Voltage (V)"
        ["voltage"; "battery_voltage"; "batt_v";
         "clawdbot_test_battery_voltage"]
        ["v"] ["battery"]
  | solar =>
      mkRules "Solar Power (W)"
        ["solar"; "pv"; "photovoltaic"; "panel"; "clawdbot_test_solar_w"]
        ["w"] ["power"; "input"]
  | load =>
      mkRules "Load Power (W)"
        ["load"; "consumption"; "house_power"; "ac_load"; "power";
         "clawdbot_test_load_w"]
        ["w"] ["total"; "sum"]
  end.

(** The loop of [bestCandidate]: [best] and [bestScore] after it. *)
Definition bestLoop (rules : Rules) (states : list (string * option Entity.t))
    : option Meta * Z :=
  fold_left
    (fun acc entry =>
       let meta := metaOf entry in
       let s := scoreEntity meta rules in
       if Z.ltb (snd acc) s then (Some (withScore s meta), s) else acc)
    states (None, (-999)%Z).

(** [bestCandidate] once [pickerRules(field)] has given [rules]. *)
Definition bestCandidateWith (rules : Rules)
    (states : list (string * option Entity.t)) : option Meta :=
  let '(best, bestScore) := bestLoop rules states in
  match best with
  | Some b => if Z.leb bestScore 0 then None else Some b
  | None => None
  end.

Definition bestCandidate (field : Field)
    (states : list (string * option Entity.t)) : option Meta :=
  bestCandidateWith (pickerRules field) states.

(** The mapping of the four fields to entity ids. *)
Record Mapping : Type := mkMapping {
  map_soc : Js.value;
  map_voltage : Js.value;
  map_solar : Js.value;
  map_load : Js.value
}.

Definition getField (f : Field) (m : Mapping) : Js.value :=
  match f with
  | soc => map_soc m
  | voltage => map_voltage m
  | solar => map_solar m
  | load => map_load m
  end.

Definition setField (f : Field) (v : Js.value) (m : Mapping) : Mapping :=
  match f with
  | soc => mkMapping v (map_voltage m) (map_solar m) (map_load m)
  | voltage => mkMapping (map_soc m) v (map_solar m) (map_load m)
  | solar => mkMapping (map_soc m) (map_voltage m) v (map_load m)
  | load => mkMapping (map_soc m) (map_voltage m) (map_solar m) v
  end.

(** [mappingWithDefaults] on the mapping of the configuration. *)
Definition mappingWithDefaults (m : Mapping) : Mapping :=
  mkMapping (Js.or (map_soc m) None) (Js.or (map_voltage m) None)
    (Js.or (map_solar m) None) (Js.or (map_load m) None).

(** The body of the loop of [computeAutoFill] for the field [k]. *)
Definition fillField (states : list (string * option Entity.t))
    (out : Mapping) (k : Field) : Mapping :=
  if negb (Js.truthy (getField k out)) then
    match bestCandidate k states with
    | Some b =>
        if nonEmpty (entity_id b) then setField k (Some (entity_id b)) out
        else out
    | None => out
    end
  else out.

Definition computeAutoFill (m : Mapping)
    (states : list (string * option Entity.t)) : Mapping :=
  fold_left (fillField states) [soc; voltage; solar; load]
    (mappingWithDefaults m).

(** ** HTML escaping and the session list *)

(** [s.replaceAll(c, r)] for a pattern [c] of one character. *)
Fixpoint replaceAll (c : ascii) (r s : string) : string :=
  match s with
  | EmptyString => EmptyString
  | String a s' =>
      if Ascii.eqb a c then (r ++ replaceAll c r s')%string
      else String a (replaceAll c r s')
  end.

Definition escapeHtml (txt : string) : string :=
  replaceAll ">" "&gt;" (replaceAll "<" "&lt;" (replaceAll "&" "&amp;" txt)).

(** What one character becomes when each is escaped on its own. *)
Definition escapeChar (a : ascii) : string :=
  if Ascii.eqb a "&" then "&amp;"
  else if Ascii.eqb a "<" then "&lt;"
  else if Ascii.eqb a ">" then "&gt;"
  else String a EmptyString.

Module Session.

Record t : Type := mk {
  session_key : Js.value;
  sessionKey : Js.value;
  key : Js.value;
  id : Js.value;
  label : Js.value;
  name : Js.value
}.

End Session.

(** The text of an option: the key alone, or [label + ' — ' + key]. *)
Inductive OptionText : Type :=
  | TextKey (key : string)
  | TextLabelled (label key : string).

(** [s && (s.session_key || s.sessionKey || s.key || s.id)] *)
Definition sessionKeyOf (s : option Session.t) : Js.value :=
  match s with
  | Some s =>
      Js.or (Js.or (Js.or (Session.session_key s) (Session.sessionKey s))
               (Session.key s))
        (Session.id s)
  | None => None
  end.

(** One turn of the loop of [refreshSessions]: the options of the select
    and the set [seen]. *)
Definition addSession (acc : list (string * OptionText) * gset string)
    (s : option Session.t) : list (string * OptionText) * gset string :=
  let key := sessionKeyOf s in
  if negb (Js.truthy key) || bool_decide (Js.strOr key ∈ snd acc) then acc
  else
    let label :=
      match s with
      | Some s => Js.strOr (Js.or (Session.label s) (Session.name s))
      | None => ""
      end in
    ((fst acc
      ++ [(Js.strOr key,
           if nonEmpty label then TextLabelled label (Js.strOr key)
           else TextKey (Js.strOr key))])%list,
     {[Js.strOr key]} ∪ snd acc).

(** [refreshSessions] once the list of sessions [arr] has arrived: the
    options it puts in the select and the value it assigns to it.
    [selValue] is [sel.value] as read, [cfgKey] the [session_key] of the
    configuration. *)
Definition refreshSessions (chatSessionKey selValue : string)
    (cfgKey : Js.value) (arr : list (option Session.t))
    : list (string * OptionText) * string :=
  let current := if nonEmpty chatSessionKey then chatSessionKey else selValue in
  let fallback :=
    if nonEmpty current then current
    else if Js.truthy cfgKey then Js.strOr cfgKey else "main" in
  let init : list (string * OptionText) * gset string :=
    if nonEmpty fallback then ([(fallback, TextKey fallback)], {[fallback]})
    else ([], ∅) in
  (fst (fold_left addSession arr init),
   if nonEmpty current then current else fallback).

(** ** The HTML of a chat bubble *)

(** [s.split(sep)] for a separator that is not empty. While [skip] is not
    zero the characters read belong to a separator that was found; [cur] is
    the part being read. *)
Fixpoint splitAux (sep : string) (skip : nat) (cur s : string) : list string :=
  match s with
  | EmptyString => [cur]
  | String a s' =>
      match skip with
      | S k => splitAux sep k cur s'
      | O =>
          if String.prefix sep s
          then cur :: splitAux sep (String.length sep - 1) "" s'
          else splitAux sep 0 (cur ++ String a "")%string s'
      end
  end.

Definition split (sep s : string) : list string := splitAux sep 0 "" s.

(** [s.replaceAll(pat, rep)] for a pattern that is not empty, [rep] holding
    no dollar sign; [skip] as in [splitAux]. *)
Fixpoint replaceAllAux (pat rep : string) (skip : nat) (s : string) : string :=
  match s with
  | EmptyString => EmptyString
  | String a s' =>
      match skip with
      | S k => replaceAllAux pat rep k s'
      | O =>
          if String.prefix pat s
          then (rep ++ replaceAllAux pat rep (String.length pat - 1) s')%string
          else String a (replaceAllAux pat rep 0 s')
      end
  end.

Definition replaceAllStr (pat rep s : string) : string :=
  replaceAllAux pat rep 0 s.

(** The pattern ['\\n'] of [renderChat]: a backslash followed by [n], not a
    line feed. *)
Definition backslashN : string := String "\" (String "n" EmptyString).

(** One turn of the loop of [renderChat] over the parts of a text: [html]
    and [i]. *)
Definition renderPart (acc : string * nat) (part : string) : string * nat :=
  let seg := escapeHtml part in
  ((fst acc
    ++ (if Nat.even (snd acc) then replaceAllStr backslashN "<br/>" seg
        else "<pre><code>" ++ seg ++ "</code></pre>"))%string,
   S (snd acc)).

(** The [innerHTML] that [renderChat] gives the bubble of a message, before
    the line with the role and the time is appended. *)
Definition bubbleHtml (text : Js.value) : string :=
  fst (fold_left renderPart (split "```" (Js.strOr text)) ("", O)).

(** The pieces of a bubble's HTML: text and the three tags. *)
Inductive Piece : Type :=
  | Text (s : string)
  | Br
  | PreOpen
  | PreClose.

Definition pieceHtml (p : Piece) : string :=
  match p with
  | Text s => s
  | Br => "<br/>"
  | PreOpen => "<pre><code>"
  | PreClose => "</code></pre>"
  end.

Definition piecesHtml (ps : list Piece) : string :=
  fold_right (fun p s => (pieceHtml p ++ s)%string) "" ps.

(** A text that holds neither [<] nor [>]. *)
Definition noAngle (s : string) : Prop :=
  forall c, In c (list_ascii_of_string s) -> c <> "<"%char /\ c <> ">"%char.

(** ** Sample data *)

(** A message as a server that assigns ids sends it. *)
Definition msg (id ts role text : string) : Item :=
  Some (Msg.mk (Some id) None None (Some ts) (Some role) None (Some text)).

(** A message without an id. *)
Definition anon (ts role text : string) : Item :=
  Some (Msg.mk None None None (Some ts) (Some role) None (Some text)).

Definition delta (l : list Item) (older : bool) : Settled :=
  Resolved (Some (mkDelta (Some l) older)).

Definition m1 : Item := msg "m1" "10" "user" "hello".
Definition m2 : Item := msg "m2" "20" "agent" "hi there".
Definition m3 : Item := msg "m3" "30" "user" "lights on".
Definition m4 : Item := msg "m4" "40" "agent" "done".
Definition m5 : Item := msg "m5" "50" "agent" "anything else?".

(** The chat tab opened on session [main], the first fetch returned
    [m1], [m2], [m3] (scenario A) and polling was started. *)
Definition coldStart : State :=
  run [EvSwitchToChat false [] false (Some "main");
       EvLoadLatestCall;
       EvLoadLatestSettle (delta [m1; m2; m3] false);
       EvStart]
      initialState.

(** Three decimal digits. *)
Definition stamp (n : nat) : string :=
  let digit d := ascii_of_nat (48 + d) in
  String (digit (n / 100 mod 10))
    (String (digit (n / 10 mod 10)) (String (digit (n mod 10)) "")).

(** Message number [n] of a log: id [m<n>], timestamp [<n>]. *)
Definition numbered (n : nat) : Item :=
  msg ("m" ++ stamp n) (stamp n) (if Nat.even n then "user" else "agent")
    "text".

(** Messages [from], ..., [from + count - 1] of that log. *)
Definition batchOf (from count : nat) : list Item :=
  map numbered (seq from count).

(** Message number [n] of a burst: all carry the same timestamp. *)
Definition burst (n : nat) : Item :=
  msg ("b" ++ stamp n) "100" "agent" "tick".

(** The chat tab opened on [main]: the first fetch returned the
    latest fifty messages, 151 to 200, polling started, and the first poll
    cycle brought the boundary message and 150 more. *)
Definition fullWindow : State :=
  pollCycle 2000 (Some (mkDelta (Some (batchOf 200 151)) false))
    (run [EvSwitchToChat false [] false (Some "main");
          EvLoadLatestCall;
          EvLoadLatestSettle (delta (batchOf 151 50) true);
          EvStart]
         initialState).

(** [m1] again, as a server would echo it with a later timestamp. *)
Definition m1late : Item := msg "m1" "20" "user" "hello".

(** The chat tab opened on [main] with [m1] alone in the log. *)
Definition oneMessage : State :=
  run [EvSwitchToChat false [] false (Some "main");
       EvLoadLatestCall;
       EvLoadLatestSettle (delta [m1] false);
       EvStart]
      initialState.

(** Two hundred messages of one burst, as the window. *)
Definition burstWindow : list Item := map burst (seq 1 200).

(** A poll brings an item without an id and [m1]; then a page of older
    items, fetched before [m1], brings [m0]. *)
Definition m0 : Item := msg "m0" "07" "agent" "earlier".




(** Messages of another session. *)
Definition x1 : Item := msg "x1" "15" "user" "other session".
Definition x2 : Item := msg "x2" "25" "agent" "other reply".

(** After the cold start on [main] and a first poll cycle that returned the
    boundary message alone, the user switches to [other], whose latest page
    is [x1], [x2]. *)
Definition switched : State :=
  onchange "other" (delta [x1; x2] false)
    (pollCycle 2000 (Some (mkDelta (Some [m3]) false)) coldStart).


(** A poll of session [main] is in flight when the user switches to
    session [other]; the delta response of [main] arrives afterwards. The
    state at the end and what the poll had captured. *)
Definition staleRun : State * option PollCtx :=
  match pollSessionsHistory 2000 coldStart with
  | (st, Some ctx) =>
      let st := pollSessionsHistory_afterPoll 2100 ctx (Resolved None) st in
      let st := onchange "other" (delta [x1] false) st in
      (pollSessionsHistory_afterDelta 2500 ctx
         (Resolved (Some (mkDelta (Some [m3; m4]) false))) st,
       Some ctx)
  | (st, None) => (st, None)
  end.

(** The log of [main] has older messages and the "Load older" button is
    shown. [loadOlderChat] is called in session [main]; the user switches to
    [other]; the page of [main] arrives afterwards. *)
Definition stalePage : State :=
  let st :=
    run [EvSwitchToChat false [] false (Some "main");
         EvLoadLatestCall;
         EvLoadLatestSettle (delta [m1; m2; m3] true);
         EvStart;
         EvLoadOlder]
        initialState in
  let st := onchange "other" (delta [x1] false) st in
  loadOlderChat_settle (delta [m0] false) st.

(** ** Reading the hash *)

(** The hash of Bernstein, [h * 33 + c], kept to 32 bits at every step. *)
Definition djb2 (s : string) : Z :=
  fold_left (fun h c => ((33 * h + Js.charCode c) mod 2 ^ 32)%Z)
    (list_ascii_of_string s) 5381%Z.

(** The value of a lower-case hexadecimal digit; 0 for any other
    character. *)
Definition hexValue (c : ascii) : Z :=
  let n := Z.of_nat (nat_of_ascii c) in
  if ((48 <=? n) && (n <=? 57))%Z then (n - 48)%Z
  else if ((97 <=? n) && (n <=? 102))%Z then (n - 87)%Z
  else 0%Z.

(** The number a string of hexadecimal digits writes, after the digits
    already read gave [v]. *)
Fixpoint parseHexFrom (v : Z) (s : string) : Z :=
  match s with
  | EmptyString => v
  | String c s' => parseHexFrom (16 * v + hexValue c)%Z s'
  end.

Definition isHexDigit (c : ascii) : bool :=
  let n := Z.of_nat (nat_of_ascii c) in
  ((48 <=? n) && (n <=? 57) || (97 <=? n) && (n <=? 102))%Z.

(** ** Further invariant of the poll timer *)

(** One of the three delays the script ever asks for. *)
Definition knownDelay (d : Z) : Prop :=
  d = CHAT_POLL_INITIAL_MS \/ d = CHAT_POLL_FAST_MS
  \/ d = CHAT_POLL_INTERVAL_MS.

(** A timeout is pending only while polling is active, and with one of the
    three delays. *)
Definition pollInv (st : State) : Prop :=
  Forall (fun t => chatPollingActive st = true /\ knownDelay (snd t))
    (timers st).

(** The batch keys the count takes into the seen set. *)
Definition batchKeys (newer : list Item) : gset string :=
  newSet (List.filter nonEmpty (map chatItemKey newer)).

(** The chat tab opened on session [main] with nothing in the page
    configuration, polling on, before the first fetch has answered. *)
Definition coldStart0 : State :=
  run [EvSwitchToChat false [] false (Some "main"); EvLoadLatestCall; EvStart]
      initialState.

(** Three entities: a battery sensor, a solar sensor without attributes
    and an automation. *)
Definition sampleStates : list (string * option Entity.t) :=
  [("automation.battery_soc_alert",
    Some (Entity.mk (Some "on")
            (Some (Entity.mkAttrs (Some "Battery SOC alert") None None))));
   ("sensor.battery_soc",
    Some (Entity.mk (Some "87")
            (Some (Entity.mkAttrs (Some "Battery SOC") (Some "battery")
                     (Some "%")))));
   ("sensor.pv_power", Some (Entity.mk (Some "412") None))].

Definition noMapping : Mapping := mkMapping None (Some "") None None.

(** * Properties *)

Example simpleHash_empty : simpleHash "" = "1505".
Proof. reflexivity. Qed.

Example simpleHash_a : simpleHash "a" = "2b606".
Proof. vm_compute. reflexivity. Qed.

Example simpleHash_wraps :
  simpleHash "agent|2024-01-01T00:00:00Z|hello world, this is long"
  = "c64e51de".
Proof. vm_compute. reflexivity. Qed.

(** ** Rendering *)

Lemma hasNull_false (l : list Item) : hasNull l = false <-> ~ In None l.
Proof.
  unfold hasNull. induction l as [ | [m | ] l IH]; simpl.
  - tauto.
  - rewrite IH. split; [intros H [Hm | Hl]; [discriminate Hm | tauto] | tauto].
  - split; [discriminate | intros H; exfalso; apply H; left; reflexivity].
Qed.

(** [renderChat] throws exactly when the window holds a [null]. *)
Lemma renderChatThrows_false (st : State) :
  renderChatThrows st = false <-> ~ In None (chatItems st).
Proof. apply hasNull_false. Qed.

(** The [catch] block that a throwing [renderChat] leads to writes the
    three fields of the last poll and nothing else. *)
Lemma pollSessionsHistory_render_frame (now : Z) (st : State) :
  let st' := pollSessionsHistory_render now st in
  chatItems st' = chatItems st
  /\ chatHasOlder st' = chatHasOlder st
  /\ chatLoadingOlder st' = chatLoadingOlder st
  /\ chatSessionKey st' = chatSessionKey st
  /\ chatPollingActive st' = chatPollingActive st
  /\ chatPollTimer st' = chatPollTimer st
  /\ chatLastSeenIds st' = chatLastSeenIds st
  /\ chatPollBoostUntil st' = chatPollBoostUntil st
  /\ timers st' = timers st
  /\ nextTimer st' = nextTimer st
  /\ calls st' = calls st.
Proof.
  unfold pollSessionsHistory_render.
  destruct (renderChatThrows st); simpl; repeat split.
Qed.

Lemma pollSessionsHistory_render_chatLastPollAppended (now : Z) (st : State) :
  chatLastPollAppended (pollSessionsHistory_render now st)
  = if renderChatThrows st then 0%nat else chatLastPollAppended st.
Proof.
  unfold pollSessionsHistory_render.
  destruct (renderChatThrows st); reflexivity.
Qed.

(** ** The poll timer *)

Lemma clampDelay_ge (delayMs : Z) : (500 <= clampDelay delayMs)%Z.
Proof. unfold clampDelay. apply Z.le_max_l. Qed.

Lemma clampDelay_max (delayMs : Z) : clampDelay delayMs = Z.max 500 delayMs.
Proof.
  unfold clampDelay. destruct (Z.eqb_spec delayMs 0) as [-> | _]; reflexivity.
Qed.

Lemma dropTimer_single (h : positive) (d : Z) : dropTimer h [(h, d)] = [].
Proof. unfold dropTimer. simpl. rewrite Pos.eqb_refl. reflexivity. Qed.

Lemma scheduleChatPoll_inactive (delayMs : Z) (st : State) :
  chatPollingActive st = false -> scheduleChatPoll delayMs st = st.
Proof. intros H. unfold scheduleChatPoll. rewrite H. reflexivity. Qed.

(** In a state that satisfies the invariant, scheduling leaves exactly the
    new timeout pending. *)
Lemma scheduleChatPoll_active (delayMs : Z) (st : State) :
  timerInv st ->
  chatPollingActive st = true ->
  timers (scheduleChatPoll delayMs st) = [(nextTimer st, clampDelay delayMs)]
  /\ chatPollTimer (scheduleChatPoll delayMs st) = Some (nextTimer st).
Proof.
  intros Hinv Hact. unfold scheduleChatPoll. rewrite Hact. simpl.
  destruct Hinv as [Hnil | (h & d & Hl & Hh & _)].
  - destruct (chatPollTimer st); simpl; unfold dropTimer; rewrite Hnil;
      simpl; auto.
  - rewrite Hh. simpl. rewrite Hl, dropTimer_single. simpl. auto.
Qed.

Lemma scheduleChatPoll_inv (delayMs : Z) (st : State) :
  timerInv st -> timerInv (scheduleChatPoll delayMs st).
Proof.
  intros Hinv. destruct (chatPollingActive st) eqn:Hact.
  - destruct (scheduleChatPoll_active delayMs st Hinv Hact) as [Ht Hh].
    right. exists (nextTimer st), (clampDelay delayMs).
    auto using clampDelay_ge.
  - rewrite scheduleChatPoll_inactive; assumption.
Qed.

Lemma stopChatPolling_timers (st : State) :
  timerInv st -> timers (stopChatPolling st) = [].
Proof.
  intros Hinv. unfold stopChatPolling. simpl.
  destruct Hinv as [Hnil | (h & d & Hl & Hh & _)].
  - destruct (chatPollTimer st); simpl; unfold dropTimer; rewrite ?Hnil;
      reflexivity.
  - rewrite Hh. simpl. rewrite Hl. apply dropTimer_single.
Qed.

(** The invariant only reads [timers] and [chatPollTimer]. *)
Lemma timerInv_ext (st st' : State) :
  timers st' = timers st -> chatPollTimer st' = chatPollTimer st ->
  timerInv st -> timerInv st'.
Proof. unfold timerInv. intros -> ->. auto. Qed.

Lemma syncChatSeenIds_timers (st : State) :
  timers (syncChatSeenIds st) = timers st.
Proof. unfold syncChatSeenIds. destruct (Nat.ltb _ _); reflexivity. Qed.

Lemma syncChatSeenIds_chatPollTimer (st : State) :
  chatPollTimer (syncChatSeenIds st) = chatPollTimer st.
Proof. unfold syncChatSeenIds. destruct (Nat.ltb _ _); reflexivity. Qed.

Lemma syncChatSeenIds_calls (st : State) :
  calls (syncChatSeenIds st) = calls st.
Proof. unfold syncChatSeenIds. destruct (Nat.ltb _ _); reflexivity. Qed.

Lemma syncChatSeenIds_chatItems (st : State) :
  chatItems (syncChatSeenIds st) = chatItems st.
Proof. unfold syncChatSeenIds. destruct (Nat.ltb _ _); reflexivity. Qed.

Lemma syncChatSeenIds_chatPollingActive (st : State) :
  chatPollingActive (syncChatSeenIds st) = chatPollingActive st.
Proof. unfold syncChatSeenIds. destruct (Nat.ltb _ _); reflexivity. Qed.

(** Closes [timerInv st'] when [st'] has the timeouts and the handle of a
    state that satisfies the invariant. *)
Ltac same_timers H :=
  eapply timerInv_ext; [ | | exact H];
  simpl;
  repeat (rewrite ?syncChatSeenIds_timers, ?syncChatSeenIds_chatPollTimer;
          simpl;
          try match goal with
              | |- context [if ?b then _ else _] => destruct b; simpl
              end);
  reflexivity.

Lemma pollSessionsHistory_tail_inv (now : Z) (st : State) :
  timerInv st -> timerInv (pollSessionsHistory_tail now st).
Proof.
  intros Hinv. unfold pollSessionsHistory_tail.
  apply scheduleChatPoll_inv. same_timers Hinv.
Qed.

Lemma fire_inv (h : positive) (now : Z) (st : State) :
  timerInv st -> timerInv (fire h now st).
Proof.
  intros Hinv. unfold fire.
  destruct (existsb _ _) eqn:Hex; [ | assumption].
  assert (Hempty : timerInv (set_timers (dropTimer h (timers st)) st)).
  { destruct Hinv as [Hnil | (h' & d & Hl & Hh & _)].
    - left. simpl. rewrite Hnil. reflexivity.
    - rewrite Hl in Hex. simpl in Hex. rewrite orb_false_r in Hex.
      apply Pos.eqb_eq in Hex. subst h'.
      left. simpl. rewrite Hl. apply dropTimer_single. }
  revert Hempty. generalize (set_timers (dropTimer h (timers st)) st).
  intros s Hs. unfold pollSessionsHistory.
  destruct (chatPollingActive s); simpl; [ | assumption].
  destruct (Js.truthy (chatSessionKey s)); simpl.
  - same_timers Hs.
  - apply scheduleChatPoll_inv. same_timers Hs.
Qed.

Lemma step_inv (e : Event) (st : State) : timerInv st -> timerInv (step e st).
Proof.
  intros Hinv. destruct e; simpl.
  - unfold loadChatFromConfig. same_timers Hinv.
  - same_timers Hinv.
  - destruct r; simpl; [ | assumption]. same_timers Hinv.
  - unfold startChatPolling. destruct (chatPollingActive st); [assumption | ].
    apply scheduleChatPoll_inv. same_timers Hinv.
  - left. apply stopChatPolling_timers. assumption.
  - apply fire_inv. assumption.
  - destruct r; simpl.
    + same_timers Hinv.
    + apply pollSessionsHistory_tail_inv. same_timers Hinv.
  - destruct r; simpl; apply pollSessionsHistory_tail_inv.
    + unfold pollSessionsHistory_render, pollSessionsHistory_merge.
      destruct (countLoop _ _ _). same_timers Hinv.
    + same_timers Hinv.
  - unfold loadOlderChat. destruct (chatLoadingOlder st); [assumption | ].
    destruct (negb _); same_timers Hinv.
  - unfold loadOlderChat_settle. destruct r; same_timers Hinv.
  - same_timers Hinv.
  - unfold onchange_end. destruct (chatPollingActive st); [ | assumption].
    apply scheduleChatPoll_inv. assumption.
  - unfold refreshTokenUsage. same_timers Hinv.
  - unfold send_end. destruct (renderChatThrows st); [assumption | ].
    simpl. destruct (chatPollingActive st).
    + apply scheduleChatPoll_inv. same_timers Hinv.
    + same_timers Hinv.
Qed.

Lemma run_inv (es : list Event) (st : State) :
  timerInv st -> timerInv (run es st).
Proof.
  revert st. induction es as [ | e es IH]; intros st Hinv; simpl.
  - assumption.
  - apply IH, step_inv, Hinv.
Qed.

Lemma initialState_inv : timerInv initialState.
Proof. left. reflexivity. Qed.

(** C10. From the initial state, whatever sequence of events runs, at most
    one poll timeout is pending, it is the one whose handle [chatPollTimer]
    holds, and its delay is at least 500 ms. Starting while polling is
    active changes nothing. Scheduling while polling is active cancels what
    was pending and leaves exactly the new timeout, with the requested delay
    raised to 500 ms when it is smaller; scheduling while polling is
    inactive changes nothing. *)
Theorem poll_timer_single (es : list Event) (delayMs : Z) :
  let st := run es initialState in
  (length (timers st) <= 1)%nat
  /\ Forall (fun t => chatPollTimer st = Some (fst t) /\ (500 <= snd t)%Z)
       (timers st)
  /\ (chatPollingActive st = true -> startChatPolling st = st)
  /\ (chatPollingActive st = true ->
      timers (scheduleChatPoll delayMs st)
      = [(nextTimer st, Z.max 500 delayMs)])
  /\ (chatPollingActive st = false -> scheduleChatPoll delayMs st = st).
Proof.
  intros st.
  assert (Hinv : timerInv st) by apply run_inv, initialState_inv.
  repeat split.
  - destruct Hinv as [-> | (h & d & -> & _)]; simpl; lia.
  - destruct Hinv as [-> | (h & d & -> & Hh & Hd)]; repeat constructor;
      assumption.
  - intros Hact. unfold startChatPolling. rewrite Hact. reflexivity.
  - intros Hact. rewrite <- clampDelay_max.
    apply scheduleChatPoll_active; assumption.
  - apply scheduleChatPoll_inactive.
Qed.

Lemma poll_timer_single_witness :
  let st := run [EvStart] initialState in
  startChatPolling st = st
  /\ timers (scheduleChatPoll 0 st) = [(2%positive, 500%Z)].
Proof.
  destruct (poll_timer_single [EvStart] 0) as (_ & _ & Hstart & Hsched & _).
  split.
  - apply Hstart. reflexivity.
  - apply Hsched. reflexivity.
Defined.

(** ** Backward pagination *)



(** The anchor is the [id] of the item [anchorOf] finds. *)
Lemma beforeIdOf_anchorOf (l : list Item) :
  beforeIdOf l = match anchorOf l with Some it => itemId it | None => None end.
Proof.
  unfold anchorOf. induction l as [ | [m | ] l IH]; simpl.
  - reflexivity.
  - destruct (Js.truthy (Msg.id m)); [reflexivity | exact IH].
  - exact IH.
Qed.




Lemma syncChatSeenIds_chatLoadingOlder (st : State) :
  chatLoadingOlder (syncChatSeenIds st) = chatLoadingOlder st.
Proof. unfold syncChatSeenIds. destruct (Nat.ltb _ _); reflexivity. Qed.

Lemma scheduleChatPoll_chatLoadingOlder (delayMs : Z) (st : State) :
  chatLoadingOlder (scheduleChatPoll delayMs st) = chatLoadingOlder st.
Proof.
  unfold scheduleChatPoll. destruct (chatPollingActive st); simpl;
    [ destruct (chatPollTimer st) | ]; reflexivity.
Qed.

(** Only [loadOlderChat] and the continuation of its call write the flag. *)
Lemma step_chatLoadingOlder (e : Event) (st : State) :
  match e with
  | EvLoadOlder | EvLoadOlderSettle _ => True
  | _ => chatLoadingOlder (step e st) = chatLoadingOlder st
  end.
Proof.
  destruct e; simpl; try exact I;
    unfold loadChatFromConfig, loadChatLatest_settle, startChatPolling,
      stopChatPolling, fire, pollSessionsHistory,
      pollSessionsHistory_afterPoll, pollSessionsHistory_afterDelta,
      pollSessionsHistory_tail, pollSessionsHistory_render,
      pollSessionsHistory_merge, onchange_end, refreshTokenUsage, send_end;
    repeat (rewrite ?syncChatSeenIds_chatLoadingOlder,
              ?scheduleChatPoll_chatLoadingOlder;
            simpl;
            try match goal with
                | |- context [if ?b then _ else _] => destruct b; simpl
                | |- context [match ?r with Resolved _ => _ | _ => _ end] =>
                    destruct r; simpl
                | |- context [match chatPollTimer ?s with _ => _ end] =>
                    destruct (chatPollTimer s); simpl
                | |- context [let '(_, _) := ?p in _] => destruct p; simpl
                end);
    reflexivity.
Qed.

(** A [loadOlderChat] that issues its call adds one to the calls in
    flight and sets the flag; one that [renderChat] stops sets the flag and
    issues nothing; any other leaves both. *)
Lemma loadOlderChat_flag (st : State) (n : nat) :
  (n <= if chatLoadingOlder st then 1 else 0)%nat ->
  ((if olderIssued st then S n else n)
   <= if chatLoadingOlder (loadOlderChat st) then 1 else 0)%nat.
Proof.
  intros Hn. unfold olderIssued, loadOlderChat.
  destruct (chatLoadingOlder st) eqn:Hflag; simpl.
  - rewrite Hflag. exact Hn.
  - destruct (Js.truthy (beforeIdOf (chatItems st))); simpl;
      [ | rewrite Hflag; exact Hn].
    change (renderChatThrows (set_chatLoadingOlder true st))
      with (renderChatThrows st).
    destruct (renderChatThrows st); simpl; lia.
Qed.

(** The flag bounds the calls in flight. *)
Lemma olderInFlight_flag (es : list Event) (st : State) (n m : nat) :
  (n <= if chatLoadingOlder st then 1 else 0)%nat ->
  olderInFlight es st n = Some m ->
  (m <= if chatLoadingOlder (run es st) then 1 else 0)%nat.
Proof.
  revert st n. induction es as [ | e es IH]; intros st n Hn Hrun; simpl in *.
  - injection Hrun as <-. exact Hn.
  - pose proof (step_chatLoadingOlder e st) as Hframe.
    destruct e; try (apply (IH _ n); [rewrite Hframe; exact Hn | exact Hrun]).
    + apply (IH _ _ (loadOlderChat_flag st n Hn) Hrun).
    + destruct n as [ | n']; [discriminate | ].
      apply (IH _ n'); [ | exact Hrun].
      simpl. destruct (chatLoadingOlder st); lia.
Qed.

(** C9. A [loadOlderChat] call made while [chatLoadingOlder] is set
    changes nothing at all: no call is issued and neither the window nor
    [chatHasOlder] moves. The flag is clear once the awaited call has
    settled, resolved or rejected. With the flag clear, an anchor in the
    window and no [null] in it, [loadOlderChat] issues one call and sets the
    flag, so that a second [loadOlderChat] before the first settles is a
    no-op, and after a rejection the same call can be made again. Whatever
    events run from the initial state, at most one [loadOlderChat] call is
    awaiting its response. *)
Theorem loadOlderChat_single_flight (st : State) (r : Settled)
    (es : list Event) :
  (chatLoadingOlder st = true -> loadOlderChat st = st)
  /\ chatLoadingOlder (loadOlderChat_settle r st) = false
  /\ (chatLoadingOlder st = false ->
      Js.truthy (beforeIdOf (chatItems st)) = true ->
      ~ In None (chatItems st) ->
      let call :=
        mkCall "chat_history_delta" (chatSessionKey st) None
          (beforeIdOf (chatItems st)) (Some CHAT_HISTORY_PAGE_LIMIT) in
      let st1 := loadOlderChat st in
      calls st1 = (calls st ++ [call])%list
      /\ chatLoadingOlder st1 = true
      /\ loadOlderChat st1 = st1
      /\ forall message,
          calls (loadOlderChat (loadOlderChat_settle (Rejected message) st1))
          = (calls st ++ [call; call])%list)
  /\ (forall n, olderInFlight es initialState 0 = Some n -> (n <= 1)%nat).
Proof.
  split; [ | split; [ | split]].
  - intros Hflag. unfold loadOlderChat. rewrite Hflag. reflexivity.
  - reflexivity.
  - intros Hflag Hanchor Hnull. apply renderChatThrows_false in Hnull.
    assert (Hst1 : loadOlderChat st
                   = callService
                       (mkCall "chat_history_delta" (chatSessionKey st) None
                          (beforeIdOf (chatItems st))
                          (Some CHAT_HISTORY_PAGE_LIMIT))
                       (set_chatLoadingOlder true st)).
    { unfold loadOlderChat. rewrite Hflag, Hanchor. cbn [negb].
      change (renderChatThrows (set_chatLoadingOlder true st))
        with (renderChatThrows st).
      rewrite Hnull. reflexivity. }
    cbv zeta. rewrite Hst1. repeat split.
    intros message. unfold loadOlderChat. simpl. rewrite Hanchor. cbn [negb].
    match goal with
    | |- context [renderChatThrows ?s] =>
        change (renderChatThrows s) with (renderChatThrows st)
    end.
    rewrite Hnull. simpl. rewrite <- app_assoc. reflexivity.
  - intros n Hn.
    pose proof (olderInFlight_flag es initialState 0 n (Nat.le_refl 0) Hn) as H.
    destruct (chatLoadingOlder _); lia.
Qed.

Lemma loadOlderChat_single_flight_witness :
  let st := set_chatItems [m1; m2] initialState in
  loadOlderChat (loadOlderChat st) = loadOlderChat st
  /\ calls (loadOlderChat (loadOlderChat st))
     = [mkCall "chat_history_delta" None None (Some "m1") (Some 50%Z)]
  /\ chatLoadingOlder
       (loadOlderChat_settle (Rejected "timeout") (loadOlderChat st)) = false
  /\ olderInFlight
       [EvLoadLatestSettle (delta [m1; m2] true); EvLoadOlder; EvLoadOlder]
       initialState 0 = Some 1%nat
  /\ (1 <= 1)%nat.
Proof.
  intros st.
  destruct (loadOlderChat_single_flight st (Rejected "timeout")
              [EvLoadLatestSettle (delta [m1; m2] true); EvLoadOlder;
               EvLoadOlder])
    as (_ & _ & Hfirst & Hflight).
  assert (Hnull : ~ In None (chatItems st)).
  { intros [H | [H | []]]; discriminate H. }
  destruct (Hfirst eq_refl eq_refl Hnull) as (Hcalls & Hflag & Hsecond & _).
  destruct (loadOlderChat_single_flight (loadOlderChat st) (Rejected "timeout")
              [])
    as (Hnoop & Hreset & _).
  split; [ | split; [ | split; [ | split]]].
  - apply Hnoop. reflexivity.
  - rewrite (Hnoop eq_refl). exact Hcalls.
  - exact Hreset.
  - vm_compute. reflexivity.
  - apply Hflight. vm_compute. reflexivity.
Defined.

(** ** The "+N" count *)

Lemma freshIn_add (k : string) (seen : gset string) (l : list Item) :
  ~ In k (map chatItemKey l) ->
  List.filter (freshIn ({[k]} ∪ seen)) l = List.filter (freshIn seen) l.
Proof.
  intros Hk. apply filter_ext_in. intros it Hin. unfold freshIn.
  f_equal. f_equal. apply bool_decide_ext.
  assert (Hne : chatItemKey it <> k).
  { intros <-. apply Hk. apply in_map. assumption. }
  rewrite elem_of_union, elem_of_singleton. tauto.
Qed.

(** Without key reuse inside the batch, the loop counts the new items whose
    role is [agent]. *)
Lemma countLoop_snd (newer : list Item) (seen : gset string) (n : nat) :
  NoDup (List.filter nonEmpty (map chatItemKey newer)) ->
  snd (countLoop newer seen n)
  = (n + length (List.filter isAgent (List.filter (freshIn seen) newer)))%nat.
Proof.
  revert seen n. induction newer as [ | it rest IH]; intros seen n Hnd; simpl.
  - lia.
  - simpl in Hnd. unfold freshIn at 1.
    destruct (nonEmpty (chatItemKey it)) eqn:Hkey; simpl.
    + apply NoDup_cons in Hnd as [Hnotin Hnd].
      rewrite list_elem_of_In in Hnotin.
      destruct (bool_decide (chatItemKey it ∈ seen)) eqn:Hseen; simpl.
      * apply IH. assumption.
      * rewrite IH by assumption.
        rewrite freshIn_add.
        -- destruct (isAgent it); simpl; lia.
        -- intros Hin. apply Hnotin. apply filter_In. split; assumption.
    + apply IH. assumption.
Qed.

Lemma scheduleChatPoll_chatLastPollAppended (delayMs : Z) (st : State) :
  chatLastPollAppended (scheduleChatPoll delayMs st) = chatLastPollAppended st.
Proof.
  unfold scheduleChatPoll. destruct (chatPollingActive st); simpl;
    [ destruct (chatPollTimer st) | ]; reflexivity.
Qed.

Lemma pollSessionsHistory_tail_chatLastPollAppended (now : Z) (st : State) :
  chatLastPollAppended (pollSessionsHistory_tail now st)
  = chatLastPollAppended st.
Proof.
  unfold pollSessionsHistory_tail.
  rewrite scheduleChatPoll_chatLastPollAppended.
  destruct (Nat.ltb _ _); reflexivity.
Qed.

(** ** The merge loop *)

Lemma mergeLoop_fst (newer its : list Item) (existing : gset string) :
  fst (mergeLoop newer its existing) = (its ++ addedBy newer existing)%list.
Proof.
  revert its existing.
  induction newer as [ | it rest IH]; intros its existing; simpl.
  - rewrite app_nil_r. reflexivity.
  - destruct (negb (nonEmpty (chatItemKey it))
              || bool_decide (chatItemKey it ∈ existing)).
    + apply IH.
    + rewrite IH, <- app_assoc. reflexivity.
Qed.

Lemma addedBy_In (newer : list Item) (existing : gset string) (it : Item) :
  In it (addedBy newer existing) ->
  In it newer /\ nonEmpty (chatItemKey it) = true
  /\ chatItemKey it ∉ existing.
Proof.
  revert existing.
  induction newer as [ | it' rest IH]; intros existing Hin; simpl in *.
  - contradiction.
  - destruct (nonEmpty (chatItemKey it')) eqn:Hkey; simpl in Hin.
    + destruct (bool_decide (chatItemKey it' ∈ existing)) eqn:Hmem.
      * destruct (IH _ Hin) as (? & ? & ?). auto.
      * apply bool_decide_eq_false in Hmem.
        destruct Hin as [<- | Hin]; [auto | ].
        destruct (IH _ Hin) as (? & ? & Hnot).
        repeat split; auto.
        intros Hex. apply Hnot. apply elem_of_union. right. assumption.
    + destruct (IH _ Hin) as (? & ? & ?). auto.
Qed.

Lemma addedBy_length (newer : list Item) (existing : gset string) :
  (length (addedBy newer existing) <= length newer)%nat.
Proof.
  revert existing. induction newer as [ | it rest IH]; intros existing; simpl.
  - lia.
  - destruct (_ || _); simpl;
      [ specialize (IH existing)
      | specialize (IH ({[chatItemKey it]} ∪ existing)) ];
      lia.
Qed.

(** The keys pushed by the loop are pairwise distinct. *)
Lemma addedBy_NoDup (newer : list Item) (existing : gset string) :
  NoDup (map chatItemKey (addedBy newer existing)).
Proof.
  revert existing. induction newer as [ | it rest IH]; intros existing; simpl.
  - constructor.
  - destruct (_ || _); simpl; [apply IH | ].
    apply NoDup_cons. split; [ | apply IH].
    rewrite list_elem_of_In, in_map_iff. intros (it' & Hk & Hin).
    apply addedBy_In in Hin as (_ & _ & Hnot).
    apply Hnot. rewrite Hk. apply elem_of_union. left.
    apply elem_of_singleton. reflexivity.
Qed.

(** Every keyed item of the batch ends up known: its key was in the set,
    or the loop pushed an item with that key. *)
Lemma addedBy_covers (newer : list Item) (existing : gset string) (k : string) :
  keyed newer k ->
  k ∈ existing \/ In k (map chatItemKey (addedBy newer existing)).
Proof.
  intros [Hk Hin]. revert existing.
  induction newer as [ | it rest IH]; intros existing; simpl in *.
  - contradiction.
  - destruct Hin as [Heq | Hin].
    + subst k. rewrite Hk. simpl.
      destruct (bool_decide (chatItemKey it ∈ existing)) eqn:Hmem.
      * left. apply bool_decide_eq_true in Hmem. assumption.
      * right. left. reflexivity.
    + destruct (negb (nonEmpty (chatItemKey it))
                || bool_decide (chatItemKey it ∈ existing)).
      * apply IH. assumption.
      * destruct (IH Hin ({[chatItemKey it]} ∪ existing)) as [Hex | Hadd].
        -- apply elem_of_union in Hex as [Hex | Hex].
           ++ apply elem_of_singleton in Hex. right. left. auto.
           ++ left. assumption.
        -- right. right. assumption.
Qed.

Lemma addedBy_nil (newer : list Item) (existing : gset string) :
  (forall k, keyed newer k -> k ∈ existing) ->
  addedBy newer existing = [].
Proof.
  intros Hall. destruct (addedBy newer existing) as [ | it l] eqn:Hadd.
  - reflexivity.
  - assert (Hin : In it (addedBy newer existing))
      by (rewrite Hadd; left; reflexivity).
    apply addedBy_In in Hin as (Hin & Hk & Hnot).
    exfalso. apply Hnot, Hall. split; [assumption | ].
    apply in_map. assumption.
Qed.

Lemma elem_of_newSet (k : string) (l : list string) : k ∈ newSet l <-> In k l.
Proof. unfold newSet. rewrite elem_of_list_to_set. apply list_elem_of_In. Qed.

Lemma sliceLast_length {A : Type} (n : nat) (l : list A) :
  length (sliceLast n l) = Nat.min n (length l).
Proof. unfold sliceLast. rewrite length_skipn. lia. Qed.

Lemma sliceLast_short {A : Type} (n : nat) (l : list A) :
  (length l <= n)%nat -> sliceLast n l = l.
Proof.
  intros Hle. unfold sliceLast.
  replace (length l - n)%nat with 0%nat by lia. reflexivity.
Qed.

(** The merge block as one expression. *)
Lemma mergeNewer_eq (its newer : list Item) :
  mergeNewer its newer
  = if Nat.ltb 0 (length newer)
    then
      let its' := (its ++ addedBy newer (newSet (map chatItemKey its)))%list in
      if Nat.ltb 200 (length its') then sliceLast 200 its' else its'
    else its.
Proof. unfold mergeNewer. rewrite mergeLoop_fst. reflexivity. Qed.

Lemma mergeNewer_nil (its : list Item) : mergeNewer its [] = its.
Proof. reflexivity. Qed.

Lemma mergeNewer_length (its newer : list Item) :
  newer <> [] -> (length (mergeNewer its newer) <= 200)%nat.
Proof.
  intros Hne. rewrite mergeNewer_eq.
  assert (Hpos : Nat.ltb 0 (length newer) = true).
  { destruct newer; [contradiction | reflexivity]. }
  rewrite Hpos. cbv zeta.
  destruct (Nat.ltb_spec 200
              (length (its ++ addedBy newer (newSet (map chatItemKey its))))).
  - rewrite sliceLast_length. lia.
  - assumption.
Qed.

(** A batch that brings no new key pushes nothing; only the trim is left. *)
Lemma mergeNewer_absorbed (its newer : list Item) :
  absorbed its newer ->
  mergeNewer its newer
  = if Nat.ltb 0 (length newer) && Nat.ltb 200 (length its)
    then sliceLast 200 its else its.
Proof.
  intros Habs. rewrite mergeNewer_eq. rewrite addedBy_nil.
  - rewrite app_nil_r. cbv zeta.
    destruct (Nat.ltb 0 (length newer)); reflexivity.
  - intros k Hk. apply elem_of_newSet. apply Habs. assumption.
Qed.

(** ** Timestamps: the order [>] compares them by *)

Module TsOrder.

Import OrderedTypeEx.

Lemma leb_iff (a b : string) :
  String.leb a b = true <-> a = b \/ String.compare a b = Lt.
Proof.
  unfold String.leb. split.
  - destruct (String.compare a b) eqn:Hc; intros H.
    + left. apply String.compare_eq_iff. assumption.
    + right. reflexivity.
    + discriminate.
  - intros [-> | ->]; [ | reflexivity].
    assert (Hrefl : String.compare b b = Eq)
      by (apply (proj2 (String_as_OT.cmp_eq b b)); reflexivity).
    rewrite Hrefl. reflexivity.
Qed.

Lemma ltb_iff (a b : string) :
  String.ltb a b = true <-> String.compare a b = Lt.
Proof.
  unfold String.ltb. destruct (String.compare a b); split; congruence.
Qed.

Lemma compare_lt_trans (a b c : string) :
  String.compare a b = Lt -> String.compare b c = Lt ->
  String.compare a c = Lt.
Proof.
  intros Hab Hbc. apply String_as_OT.cmp_lt.
  apply String_as_OT.lt_trans with b; apply String_as_OT.cmp_lt; assumption.
Qed.

Lemma leb_refl (a : string) : String.leb a a = true.
Proof. apply leb_iff. left. reflexivity. Qed.

Lemma leb_trans (a b c : string) :
  String.leb a b = true -> String.leb b c = true -> String.leb a c = true.
Proof.
  rewrite !leb_iff. intros [-> | Hab] [-> | Hbc]; auto.
  right. eapply compare_lt_trans; eassumption.
Qed.

Lemma ltb_leb (a b : string) : String.ltb a b = true -> String.leb a b = true.
Proof. rewrite ltb_iff, leb_iff. auto. Qed.

(** [a > b] is false exactly when [a <= b]. *)
Lemma gt_false_leb (a b : string) : Js.gt a b = false -> String.leb a b = true.
Proof.
  unfold Js.gt, String.ltb, String.leb.
  rewrite (String.compare_antisym a b).
  destruct (String.compare b a); simpl; congruence.
Qed.

Lemma gt_true_leb (a b : string) : Js.gt a b = true -> String.leb b a = true.
Proof. unfold Js.gt. apply ltb_leb. Qed.

Lemma leb_empty (a : string) : String.leb "" a = true.
Proof. destruct a; reflexivity. Qed.

End TsOrder.

Lemma maxChatTsOf_from (l : list Item) (acc : string) :
  let f := fun max it =>
             let ts := itemTs it in
             if nonEmpty ts && Js.gt ts max then ts else max in
  String.leb acc (fold_left f l acc) = true
  /\ forall it, In it l -> String.leb (itemTs it) (fold_left f l acc) = true.
Proof.
  intros f. revert acc. induction l as [ | x l IH]; intros acc; simpl.
  - split; [apply TsOrder.leb_refl | contradiction].
  - destruct (IH (f acc x)) as [Hacc Hall].
    assert (Hstep : String.leb acc (f acc x) = true
                    /\ String.leb (itemTs x) (f acc x) = true).
    { unfold f. destruct (nonEmpty (itemTs x)) eqn:Hne; simpl.
      - destruct (Js.gt (itemTs x) acc) eqn:Hgt.
        + split; [ | apply TsOrder.leb_refl].
          apply TsOrder.gt_true_leb. assumption.
        + split; [apply TsOrder.leb_refl | ].
          apply TsOrder.gt_false_leb. assumption.
      - split; [apply TsOrder.leb_refl | ].
        unfold nonEmpty in Hne. apply negb_false_iff, String.eqb_eq in Hne.
        rewrite Hne. apply TsOrder.leb_empty. }
    destruct Hstep as [Hs1 Hs2]. split.
    + eapply TsOrder.leb_trans; eassumption.
    + intros it [<- | Hin].
      * eapply TsOrder.leb_trans; eassumption.
      * apply Hall. assumption.
Qed.

(** The forward cursor is an upper bound of the window's timestamps. *)
Lemma maxChatTsOf_upper (l : list Item) (it : Item) :
  In it l -> String.leb (itemTs it) (maxChatTsOf l) = true.
Proof. intros Hin. apply (maxChatTsOf_from l ""). assumption. Qed.

#[local] Instance tsLe_trans : Transitive tsLe.
Proof. intros a b c. unfold tsLe. apply TsOrder.leb_trans. Qed.

Example fullWindow_length : length (chatItems fullWindow) = 200%nat.
Proof. vm_compute. reflexivity. Qed.

(** ** What the operations do to the window *)

Lemma scheduleChatPoll_chatItems (delayMs : Z) (st : State) :
  chatItems (scheduleChatPoll delayMs st) = chatItems st.
Proof.
  unfold scheduleChatPoll. destruct (chatPollingActive st); simpl;
    [ destruct (chatPollTimer st) | ]; reflexivity.
Qed.

Lemma pollSessionsHistory_tail_chatItems (now : Z) (st : State) :
  chatItems (pollSessionsHistory_tail now st) = chatItems st.
Proof.
  unfold pollSessionsHistory_tail. rewrite scheduleChatPoll_chatItems.
  destruct (Nat.ltb _ _); reflexivity.
Qed.

Lemma pollSessionsHistory_merge_chatItems (ctx : PollCtx)
    (data : option Delta) (st : State) :
  chatItems (pollSessionsHistory_merge ctx data st)
  = mergeNewer (chatItems st) (itemsOf data).
Proof.
  unfold pollSessionsHistory_merge. destruct (countLoop _ _ _). reflexivity.
Qed.

(** The window after the delta call of a poll cycle resolved. *)
Lemma pollSessionsHistory_afterDelta_chatItems (now : Z) (ctx : PollCtx)
    (data : option Delta) (st : State) :
  chatItems (pollSessionsHistory_afterDelta now ctx (Resolved data) st)
  = mergeNewer (chatItems st) (itemsOf data).
Proof.
  simpl. rewrite pollSessionsHistory_tail_chatItems.
  rewrite (proj1 (pollSessionsHistory_render_frame now _)).
  apply pollSessionsHistory_merge_chatItems.
Qed.

(** The window after the call of [loadOlderChat] settled. *)
Lemma loadOlderChat_settle_chatItems (r : Settled) (st : State) :
  chatItems (loadOlderChat_settle r st)
  = prependOlder (chatItems st) (settledItems r).
Proof.
  unfold loadOlderChat_settle, prependOlder. destruct r; simpl.
  - rewrite syncChatSeenIds_chatItems. simpl.
    destruct (Nat.ltb _ _); reflexivity.
  - reflexivity.
Qed.

(** A prepend keeps the window and puts at most the fetched items in
    front. *)
Lemma prependOlder_app (its fetched : list Item) :
  exists prepend,
    prependOlder its fetched = (prepend ++ its)%list
    /\ (length prepend <= length fetched)%nat.
Proof.
  unfold prependOlder.
  pose proof (filter_length_le
                (fun it => negb (negb (Js.truthy (itemId it))
                                 || bool_decide (Js.strOr (itemId it)
                                                 ∈ existingIds its)))
                fetched) as Hle.
  fold (prependOf (existingIds its) fetched) in Hle.
  destruct (Nat.ltb _ _).
  - exists (prependOf (existingIds its) fetched).
    split; [reflexivity | exact Hle].
  - exists []. split; [reflexivity | simpl; lia].
Qed.

(** C1, as the code has it. A poll-cycle merge leaves at most 200 items
    when the batch is not empty, and leaves the window as it is when the
    batch is empty; so it keeps a window of at most 200 items within 200.
    A pagination prepend does not trim: the window keeps all its items
    behind at most as many new ones as were fetched. An initial load makes
    the fetched items, or the items of the page configuration, the window,
    however many they are. *)
Theorem window_bound (now : Z) (ctx : PollCtx) (data : option Delta)
    (r : Settled) (st : State) :
  let polled := pollSessionsHistory_afterDelta now ctx (Resolved data) st in
  let paged := loadOlderChat_settle r st in
  let loaded := loadChatLatest_settle (Resolved data) st in
  (itemsOf data <> [] -> (length (chatItems polled) <= 200)%nat)
  /\ (itemsOf data = [] -> chatItems polled = chatItems st)
  /\ ((length (chatItems st) <= 200)%nat ->
      (length (chatItems polled) <= 200)%nat)
  /\ (exists prepend,
        chatItems paged = (prepend ++ chatItems st)%list
        /\ (length prepend <= length (settledItems r))%nat)
  /\ chatItems loaded = itemsOf data
  /\ (forall DEBUG_UI history hasOlder sessionKey,
        length (chatItems
                  (loadChatFromConfig DEBUG_UI history hasOlder sessionKey st))
        = length history).
Proof.
  intros polled paged loaded. subst polled paged loaded.
  rewrite pollSessionsHistory_afterDelta_chatItems.
  rewrite loadOlderChat_settle_chatItems.
  assert (Hempty : itemsOf data = [] ->
                   mergeNewer (chatItems st) (itemsOf data) = chatItems st).
  { intros ->. apply mergeNewer_nil. }
  repeat split.
  - apply mergeNewer_length.
  - exact Hempty.
  - intros Hle. destruct (itemsOf data) as [ | it rest] eqn:Hitems.
    + rewrite Hempty by reflexivity. assumption.
    + apply mergeNewer_length. discriminate.
  - apply prependOlder_app.
  - simpl. rewrite syncChatSeenIds_chatItems. reflexivity.
  - intros dbg history hasOlder sessionKey. unfold loadChatFromConfig.
    rewrite syncChatSeenIds_chatItems.
    destruct (_ && _); simpl; apply length_map.
Qed.

Lemma window_bound_witness :
  (length
     (chatItems
        (pollSessionsHistory_afterDelta 9000
           (mkPollCtx (Some "main") ∅)
           (Resolved (Some (mkDelta (Some (batchOf 351 5)) false)))
           fullWindow)) <= 200)%nat.
Proof.
  refine (proj1 (window_bound 9000 (mkPollCtx (Some "main") ∅)
                   (Some (mkDelta (Some (batchOf 351 5)) false))
                   (Rejected "") fullWindow) _).
  simpl. discriminate.
Defined.

(** C1 fails as stated: with the 200 messages 151 to 350 in the window,
    [loadOlderChat] fetches the fifty messages 101 to 150 and prepends them
    all; the window then holds 250 items. *)
Lemma window_bound_fails :
  let st :=
    loadOlderChat_settle (delta (batchOf 101 50) true)
      (loadOlderChat fullWindow) in
  length (chatItems fullWindow) = 200%nat
  /\ length (chatItems st) = 250%nat
  /\ ~ (length (chatItems st) <= CHAT_UI_MAX_ITEMS)%nat.
Proof.
  intros st.
  assert (Hlen : length (chatItems st) = 250%nat) by (vm_compute; reflexivity).
  split; [vm_compute; reflexivity | ]. split; [exact Hlen | ].
  rewrite Hlen. unfold CHAT_UI_MAX_ITEMS. lia.
Qed.

(** ** Batches that bring nothing new *)

(** The delta call of the next cycle carries the cursor as [after_ts]. *)
Lemma pollSessionsHistory_refreshed_calls (now : Z) (ctx : PollCtx)
    (st : State) :
  calls (pollSessionsHistory_refreshed now ctx st)
  = (calls st
     ++ [mkCall "chat_history_delta" (currentSession ctx)
           (Js.or (Some (maxChatTs st)) None) None
           (Some CHAT_DELTA_LIMIT)])%list.
Proof. reflexivity. Qed.

(** C4, as the code has it. When every keyed item of the batch has its key
    in the window, the merge pushes nothing: the window is left as it is,
    except that a window of more than 200 items is cut to its last 200 by a
    non-empty batch. The forward cursor is read off the window, so with the
    window it stays where it was, whatever timestamps the batch carries, and
    the next delta call sends the same [after_ts]. *)
Theorem merge_seen_batch (now now' : Z) (ctx ctx' : PollCtx)
    (data : option Delta) (st : State) :
  let st' := pollSessionsHistory_afterDelta now ctx (Resolved data) st in
  absorbed (chatItems st) (itemsOf data) ->
  chatItems st'
  = (if Nat.ltb 0 (length (itemsOf data)) && Nat.ltb 200 (length (chatItems st))
     then sliceLast 200 (chatItems st) else chatItems st)
  /\ ((length (chatItems st) <= 200)%nat ->
      chatItems st' = chatItems st
      /\ maxChatTs st' = maxChatTs st
      /\ calls (pollSessionsHistory_refreshed now' ctx' st')
         = (calls st'
            ++ [mkCall "chat_history_delta" (currentSession ctx')
                  (Js.or (Some (maxChatTs st)) None) None
                  (Some CHAT_DELTA_LIMIT)])%list).
Proof.
  intros st' Habs.
  assert (Hitems : chatItems st'
                   = if Nat.ltb 0 (length (itemsOf data))
                        && Nat.ltb 200 (length (chatItems st))
                     then sliceLast 200 (chatItems st) else chatItems st).
  { subst st'. rewrite pollSessionsHistory_afterDelta_chatItems.
    apply mergeNewer_absorbed. assumption. }
  split; [exact Hitems | ].
  intros Hle.
  assert (Hsame : chatItems st' = chatItems st).
  { rewrite Hitems. destruct (_ && _); [ | reflexivity].
    apply sliceLast_short. assumption. }
  assert (Hcursor : maxChatTs st' = maxChatTs st).
  { unfold maxChatTs. rewrite Hsame. reflexivity. }
  repeat split; [exact Hsame | exact Hcursor | ].
  rewrite pollSessionsHistory_refreshed_calls, Hcursor. reflexivity.
Qed.

Lemma absorbed_m1late : absorbed [m1] [m1late].
Proof.
  intros k [Hk [<- | []]]. split; [assumption | left; reflexivity].
Qed.

Lemma merge_seen_batch_witness :
  let st' :=
    pollSessionsHistory_afterDelta 2000 (mkPollCtx (Some "main") ∅)
      (Resolved (Some (mkDelta (Some [m1late]) false))) oneMessage in
  chatItems st' = [m1] /\ maxChatTs st' = "10".
Proof.
  intros st'.
  destruct (merge_seen_batch 2000 7000 (mkPollCtx (Some "main") ∅)
              (mkPollCtx (Some "main") ∅)
              (Some (mkDelta (Some [m1late]) false)) oneMessage
              absorbed_m1late) as [_ Hsmall].
  destruct Hsmall as (Hitems & Hcursor & _).
  - vm_compute. lia.
  - split; [exact Hitems | exact Hcursor].
Defined.

(** C4 fails as stated: the window holds [m1] with timestamp 10 and the
    batch echoes [m1] with timestamp 20. The key is known, so the item is
    skipped, and the cursor, read off the window, is still 10 although the
    batch carried a later timestamp. *)
Lemma cursor_stays_behind :
  let st' := pollCycle 2000 (Some (mkDelta (Some [m1late]) false)) oneMessage in
  absorbed (chatItems oneMessage) [m1late]
  /\ maxChatTs oneMessage = "10"
  /\ itemTs m1late = "20"
  /\ Js.gt (itemTs m1late) (maxChatTs oneMessage) = true
  /\ chatItems st' = chatItems oneMessage
  /\ maxChatTs st' = "10"
  /\ maxChatTs st' <> itemTs m1late.
Proof.
  intros st'. split; [exact absorbed_m1late | ].
  repeat split; try (vm_compute; reflexivity).
  vm_compute. discriminate.
Qed.

(** ** Merging a batch twice *)

Lemma keyed_app (l1 l2 : list Item) (k : string) :
  keyed (l1 ++ l2) k <-> keyed l1 k \/ keyed l2 k.
Proof. unfold keyed. rewrite map_app, in_app_iff. tauto. Qed.

(** Without a trim, every keyed item of the batch is in the merged window. *)
Lemma merged_covers (its newer : list Item) (k : string) :
  keyed newer k ->
  keyed (its ++ addedBy newer (newSet (map chatItemKey its))) k.
Proof.
  intros Hk. apply keyed_app.
  destruct (addedBy_covers newer (newSet (map chatItemKey its)) k Hk)
    as [Hex | Hadd].
  - left. split; [apply Hk | ]. apply elem_of_newSet. assumption.
  - right. split; [apply Hk | assumption].
Qed.

Lemma mergeNewer_small (its newer : list Item) :
  (length its + length newer <= 200)%nat ->
  mergeNewer its newer
  = if Nat.ltb 0 (length newer)
    then (its ++ addedBy newer (newSet (map chatItemKey its)))%list
    else its.
Proof.
  intros Hle. rewrite mergeNewer_eq. cbv zeta.
  destruct (Nat.ltb 0 (length newer)); [ | reflexivity].
  pose proof (addedBy_length newer (newSet (map chatItemKey its))) as Hadd.
  destruct (Nat.ltb_spec 200
              (length (its ++ addedBy newer (newSet (map chatItemKey its)))))
    as [Hlt | _]; [ | reflexivity].
  rewrite length_app in Hlt. lia.
Qed.

Lemma mergeNewer_NoDup (its newer : list Item) :
  NoDup (map chatItemKey its) ->
  NoDup (map chatItemKey (mergeNewer its newer)).
Proof.
  intros Hnd. rewrite mergeNewer_eq. cbv zeta.
  destruct (Nat.ltb 0 (length newer)); [ | assumption].
  assert (Hall : NoDup
                   (map chatItemKey
                      (its ++ addedBy newer (newSet (map chatItemKey its))))).
  { rewrite map_app. apply NoDup_app. split; [assumption | ].
    split; [ | apply addedBy_NoDup].
    intros k Hin Hadd. rewrite list_elem_of_In in Hin, Hadd.
    apply in_map_iff in Hadd as (it & <- & Hit).
    apply addedBy_In in Hit as (_ & _ & Hnot).
    apply Hnot, elem_of_newSet. assumption. }
  destruct (Nat.ltb 200 _); [ | assumption].
  unfold sliceLast. rewrite <- skipn_map.
  eapply sublist_NoDup; [exact Hall | apply sublist_drop].
Qed.

(** C5, as the code has it. If the window that absorbed the batch still
    holds every keyed item of the batch, merging the batch again changes
    nothing. That is so whenever window and batch together are at most 200
    items, so that the first merge trimmed nothing. If no two items of the
    window share a key, no two items of the merged window do. *)
Theorem merge_twice (its newer : list Item) :
  (absorbed (mergeNewer its newer) newer ->
   mergeNewer (mergeNewer its newer) newer = mergeNewer its newer)
  /\ ((length its + length newer <= 200)%nat ->
      absorbed (mergeNewer its newer) newer)
  /\ (NoDup (map chatItemKey its) ->
      NoDup (map chatItemKey (mergeNewer its newer))).
Proof.
  split; [ | split].
  - intros Habs. rewrite (mergeNewer_absorbed _ _ Habs).
    destruct newer as [ | it rest]; [reflexivity | ].
    assert (Hlen : (length (mergeNewer its (it :: rest)) <= 200)%nat)
      by (apply mergeNewer_length; discriminate).
    destruct (_ && _); [ | reflexivity].
    apply sliceLast_short. assumption.
  - intros Hle k Hk. rewrite (mergeNewer_small _ _ Hle).
    destruct newer as [ | it rest].
    + destruct Hk as [_ []].
    + apply merged_covers. assumption.
  - apply mergeNewer_NoDup.
Qed.

Lemma merge_twice_witness :
  mergeNewer (mergeNewer [m1; m2; m3] [m3; m4]) [m3; m4]
  = mergeNewer [m1; m2; m3] [m3; m4]
  /\ NoDup (map chatItemKey (mergeNewer [m1; m2; m3] [m3; m4])).
Proof.
  destruct (merge_twice [m1; m2; m3] [m3; m4]) as (Hidem & Hsmall & Hnd).
  split.
  - apply Hidem, Hsmall. vm_compute. lia.
  - apply Hnd. apply (bool_decide_unpack _). vm_compute. exact I.
Defined.

(** C5 fails as stated. The window holds the 200 messages of a burst, all
    with one timestamp; the batch is the first of them and a new one. The
    first merge pushes the new message and trims the first one away, so the
    second merge pushes the first one back and trims again. And a window in
    which two items already share a key keeps them through a merge. *)
Lemma merge_twice_fails :
  mergeNewer (mergeNewer burstWindow [burst 1; burst 201]) [burst 1; burst 201]
  <> mergeNewer burstWindow [burst 1; burst 201]
  /\ ~ NoDup (map chatItemKey (mergeNewer [m1; m1] [m2])).
Proof.
  split.
  - intros Heq. apply (f_equal head) in Heq. vm_compute in Heq. discriminate.
  - apply (bool_decide_unpack _). vm_compute. exact I.
Qed.

(** ** Order of the window *)

Section Sortedness.

Context {A : Type} (R : A -> A -> Prop).



End Sortedness.

Lemma ordered_strongly (l : list Item) : ordered l <-> StronglySorted tsLe l.
Proof.
  split.
  - apply (Sorted_StronglySorted tsLe).
  - apply StronglySorted_Sorted.
Qed.

Lemma addedBy_sorted (newer : list Item) (existing : gset string) :
  StronglySorted tsLe newer -> StronglySorted tsLe (addedBy newer existing).
Proof.
  intros Hs. revert existing.
  induction Hs as [ | it rest Hrest IH Hit]; intros existing; simpl.
  - constructor.
  - destruct (_ || _); [apply IH | ].
    constructor; [apply IH | ].
    apply List.Forall_forall. intros x Hx.
    apply addedBy_In in Hx as (Hx & _).
    revert x Hx. apply List.Forall_forall. assumption.
Qed.




Lemma loadOlderChat_chatItems (st : State) :
  chatItems (loadOlderChat st) = chatItems st.
Proof.
  unfold loadOlderChat. destruct (chatLoadingOlder st); [reflexivity | ].
  destruct (negb _); [reflexivity | ].
  destruct (renderChatThrows _); reflexivity.
Qed.


Lemma applyOp_older (data : option Delta) (st : State) :
  chatLoadingOlder st = false ->
  chatItems (if Js.truthy (beforeIdOf (chatItems st))
             then loadOlderChat_settle (Resolved data) (loadOlderChat st)
             else loadOlderChat st)
  = applyOp (chatItems st) (OpOlder (itemsOf data)).
Proof.
  intros Hflag. simpl.
  destruct (Js.truthy (beforeIdOf (chatItems st))).
  - rewrite loadOlderChat_settle_chatItems, loadOlderChat_chatItems.
    reflexivity.
  - apply loadOlderChat_chatItems.
Qed.




(** ** Session switch *)

Lemma syncChatSeenIds_nextTimer (st : State) :
  nextTimer (syncChatSeenIds st) = nextTimer st.
Proof. unfold syncChatSeenIds. destruct (Nat.ltb _ _); reflexivity. Qed.

Lemma syncChatSeenIds_chatSessionKey (st : State) :
  chatSessionKey (syncChatSeenIds st) = chatSessionKey st.
Proof. unfold syncChatSeenIds. destruct (Nat.ltb _ _); reflexivity. Qed.

Lemma syncChatSeenIds_chatHasOlder (st : State) :
  chatHasOlder (syncChatSeenIds st) = chatHasOlder st.
Proof. unfold syncChatSeenIds. destruct (Nat.ltb _ _); reflexivity. Qed.

(** The seen-key set is written only when it is empty. *)
Lemma syncChatSeenIds_seen (st : State) :
  chatLastSeenIds (syncChatSeenIds st)
  = if Nat.ltb 0 (size (chatLastSeenIds st)) then chatLastSeenIds st
    else newSet (List.filter nonEmpty (map chatItemKey (chatItems st))).
Proof. unfold syncChatSeenIds. destruct (Nat.ltb _ _); reflexivity. Qed.

(** Scheduling touches the timeout list, the next handle and
    [chatPollTimer], and nothing else. *)
Lemma scheduleChatPoll_frame (delayMs : Z) (st : State) :
  let st' := scheduleChatPoll delayMs st in
  chatItems st' = chatItems st
  /\ chatHasOlder st' = chatHasOlder st
  /\ chatLoadingOlder st' = chatLoadingOlder st
  /\ chatSessionKey st' = chatSessionKey st
  /\ chatPollingActive st' = chatPollingActive st
  /\ chatLastSeenIds st' = chatLastSeenIds st
  /\ calls st' = calls st.
Proof.
  unfold scheduleChatPoll. destruct (chatPollingActive st) eqn:Hact; simpl;
    [ destruct (chatPollTimer st) | ]; simpl; rewrite ?Hact; repeat split.
Qed.

(** Asking for the token usage adds its call, when there is a session key,
    and changes nothing else. *)
Lemma refreshTokenUsage_frame (st : State) :
  let st' := refreshTokenUsage st in
  chatItems st' = chatItems st
  /\ chatHasOlder st' = chatHasOlder st
  /\ chatSessionKey st' = chatSessionKey st
  /\ chatPollingActive st' = chatPollingActive st
  /\ chatLastSeenIds st' = chatLastSeenIds st
  /\ timers st' = timers st
  /\ chatPollTimer st' = chatPollTimer st
  /\ nextTimer st' = nextTimer st
  /\ calls st'
     = (calls st
        ++ if Js.truthy (chatSessionKey st)
           then [mkCall "session_status_get" (chatSessionKey st) None None
                   None]
           else [])%list.
Proof.
  unfold refreshTokenUsage.
  destruct (Js.truthy (chatSessionKey st)); simpl; repeat split.
  rewrite app_nil_r. reflexivity.
Qed.

(** The fetch of the handler, settled, leaves the timeouts alone. *)
Lemma onchange_loaded_timers (value : string) (r : Settled) (st : State) :
  let st' := loadChatLatest_settle r (onchange_begin value st) in
  timers st' = timers st
  /\ chatPollTimer st' = chatPollTimer st
  /\ nextTimer st' = nextTimer st
  /\ chatPollingActive st' = chatPollingActive st.
Proof.
  unfold onchange_begin, loadChatLatest_settle.
  destruct r; simpl;
    rewrite ?syncChatSeenIds_timers, ?syncChatSeenIds_chatPollTimer,
      ?syncChatSeenIds_nextTimer, ?syncChatSeenIds_chatPollingActive;
    repeat split.
Qed.

(** The window the handler renders. *)
Lemma onchange_loaded_chatItems (value : string) (r : Settled) (st : State) :
  chatItems (loadChatLatest_settle r (onchange_begin value st))
  = match r with
    | Resolved data => itemsOf data
    | Rejected _ => chatItems st
    end.
Proof.
  destruct r; simpl; [ | reflexivity].
  rewrite syncChatSeenIds_chatItems. reflexivity.
Qed.

(** C2, as the code has it. In a state reached from the initial one, the
    [onchange] handler of the session selector, run to its end with the
    fetch of [loadChatLatest] settling as [r], the window it then renders
    holding no [null]: sets the session key to the selected value ([null]
    for the empty string) and fetches the latest page for it, and asks for
    the token usage of the session when the key is not [null]; when the
    fetch resolves, makes the fetched items the window, so that the forward
    cursor is their maximum timestamp, and takes [chatHasOlder] from the
    response; when the fetch is rejected, leaves the window as it was;
    leaves a non-empty seen-key set as it was, and fills an empty one with
    the keys of the fetched items; when polling is active, cancels the
    pending timeout and schedules the next poll after
    [CHAT_POLL_INITIAL_MS], which is below the fast and the steady
    interval; when polling is not active, schedules nothing. *)
Theorem onchange_effect (es : list Event) (value : string) (r : Settled) :
  let st := run es initialState in
  let st' := onchange value r st in
  let key := Js.or (Some value) None in
  ~ In None (match r with
             | Resolved data => itemsOf data
             | Rejected _ => chatItems st
             end) ->
  chatSessionKey st' = key
  /\ calls st'
     = (calls st
        ++ [mkCall "chat_history_delta" key None None
              (Some CHAT_HISTORY_PAGE_LIMIT)]
        ++ if Js.truthy key
           then [mkCall "session_status_get" key None None None]
           else [])%list
  /\ (forall data, r = Resolved data ->
        chatItems st' = itemsOf data
        /\ maxChatTs st' = maxChatTsOf (itemsOf data)
        /\ chatHasOlder st' = hasOlderOf data)
  /\ (forall message, r = Rejected message ->
        chatItems st' = chatItems st /\ chatHasOlder st' = chatHasOlder st)
  /\ ((0 < size (chatLastSeenIds st))%nat ->
        chatLastSeenIds st' = chatLastSeenIds st)
  /\ (size (chatLastSeenIds st) = 0%nat ->
        forall data, r = Resolved data ->
        chatLastSeenIds st'
        = newSet (List.filter nonEmpty (map chatItemKey (itemsOf data))))
  /\ (chatPollingActive st = true ->
        timers st' = [(nextTimer st, CHAT_POLL_INITIAL_MS)]
        /\ chatPollTimer st' = Some (nextTimer st)
        /\ (CHAT_POLL_INITIAL_MS < CHAT_POLL_FAST_MS < CHAT_POLL_INTERVAL_MS)%Z)
  /\ (chatPollingActive st = false ->
        timers st' = timers st /\ chatPollingActive st' = false).
Proof.
  intros st st' key Hnull.
  assert (Hinv : timerInv st) by apply run_inv, initialState_inv.
  pose (loaded := loadChatLatest_settle r (onchange_begin value st)).
  pose (mid := refreshTokenUsage loaded).
  assert (Hrun : st' = onchange_end mid).
  { subst st' mid loaded. unfold onchange, onchange_loaded.
    rewrite <- onchange_loaded_chatItems with (value := value) in Hnull.
    apply renderChatThrows_false in Hnull. rewrite Hnull. reflexivity. }
  destruct (onchange_loaded_timers value r st) as (Ht & Hh & Hn & Ha).
  fold loaded in Ht, Hh, Hn, Ha.
  destruct (refreshTokenUsage_frame loaded)
    as (Titems & Tolder & Tkey & Tact & Tseen & Tt & Th & Tn & Tcalls).
  fold mid in Titems, Tolder, Tkey, Tact, Tseen, Tt, Th, Tn, Tcalls.
  rewrite Ht in Tt. rewrite Hh in Th. rewrite Hn in Tn. rewrite Ha in Tact.
  assert (Hmid : timerInv mid).
  { eapply timerInv_ext; [exact Tt | exact Th | exact Hinv]. }
  assert (Hframe : chatItems st' = chatItems loaded
                   /\ chatHasOlder st' = chatHasOlder loaded
                   /\ chatSessionKey st' = chatSessionKey loaded
                   /\ chatLastSeenIds st' = chatLastSeenIds loaded
                   /\ calls st' = calls mid).
  { rewrite Hrun. unfold onchange_end.
    destruct (chatPollingActive mid).
    - destruct (scheduleChatPoll_frame CHAT_POLL_INITIAL_MS mid)
        as (-> & -> & _ & -> & _ & -> & ->).
      repeat split; assumption.
    - repeat split; assumption. }
  destruct Hframe as (Fitems & Folder & Fkey & Fseen & Fcalls).
  assert (Hkey : chatSessionKey loaded = key).
  { subst loaded. unfold loadChatLatest_settle.
    destruct r; simpl; rewrite ?syncChatSeenIds_chatSessionKey; reflexivity. }
  split; [ | split; [ | split; [ | split; [ | split; [ | split; [ | split]]]]]].
  - rewrite Fkey. exact Hkey.
  - rewrite Fcalls, Tcalls, Hkey. subst loaded.
    unfold loadChatLatest_settle.
    destruct r; simpl; rewrite ?syncChatSeenIds_calls; simpl;
      rewrite <- app_assoc; reflexivity.
  - intros data ->.
    assert (Hitems : chatItems st' = itemsOf data).
    { rewrite Fitems. subst loaded. simpl.
      rewrite syncChatSeenIds_chatItems. reflexivity. }
    split; [exact Hitems | ]. split.
    + unfold maxChatTs. rewrite Hitems. reflexivity.
    + rewrite Folder. subst loaded. simpl.
      rewrite syncChatSeenIds_chatHasOlder. reflexivity.
  - intros message ->. rewrite Fitems, Folder. split; reflexivity.
  - intros Hpos. rewrite Fseen. subst loaded.
    unfold loadChatLatest_settle. destruct r; simpl.
    + rewrite syncChatSeenIds_seen. simpl.
      apply Nat.ltb_lt in Hpos. rewrite Hpos. reflexivity.
    + reflexivity.
  - intros Hzero data ->. rewrite Fseen. subst loaded. simpl.
    rewrite syncChatSeenIds_seen. simpl. rewrite Hzero. reflexivity.
  - intros Hact. rewrite Hrun. unfold onchange_end.
    rewrite Tact, Hact.
    destruct (scheduleChatPoll_active CHAT_POLL_INITIAL_MS mid Hmid)
      as [Htimers Hhandle]; [rewrite Tact; exact Hact | ].
    rewrite Htimers, Hhandle, Tn.
    repeat split; reflexivity.
  - intros Hact. rewrite Hrun. unfold onchange_end.
    rewrite Tact, Hact. split; [exact Tt | rewrite Tact; exact Hact].
Qed.

Lemma onchange_effect_witness :
  let st' := onchange "other" (delta [x1] false) coldStart in
  chatItems st' = [x1]
  /\ chatLastSeenIds st' = chatLastSeenIds coldStart
  /\ timers st' = [(2%positive, 1000%Z)].
Proof.
  intros st'.
  assert (Hnull : ~ In None [x1]).
  { intros [H | []]. discriminate H. }
  destruct (onchange_effect
              [EvSwitchToChat false [] false (Some "main");
               EvLoadLatestCall;
               EvLoadLatestSettle (delta [m1; m2; m3] false);
               EvStart]
              "other" (delta [x1] false) Hnull)
    as (_ & _ & Hres & _ & Hseen & _ & Hact & _).
  split; [ | split].
  - apply (Hres _ eq_refl).
  - apply Hseen. vm_compute. lia.
  - apply Hact. reflexivity.
Defined.

(** C2 fails as stated: after the cold start on [main] the seen-key set
    holds the keys of [m1], [m2] and [m3]; the switch to [other] replaces
    the session key and the window and leaves the seen-key set as it was. *)
Lemma switch_keeps_seen :
  let st' := onchange "other" (delta [x1] false) coldStart in
  chatSessionKey st' = Some "other"
  /\ chatItems st' = [x1]
  /\ chatLastSeenIds st' = newSet ["m1"; "m2"; "m3"]
  /\ chatLastSeenIds st' <> ∅.
Proof.
  intros st'.
  assert (Hseen : chatLastSeenIds st' = newSet ["m1"; "m2"; "m3"])
    by (vm_compute; reflexivity).
  repeat split; try (vm_compute; reflexivity).
  rewrite Hseen. intros Hempty. apply (f_equal size) in Hempty.
  vm_compute in Hempty. discriminate Hempty.
Qed.

(** ** Responses that arrive after a session switch *)

Lemma scheduleChatPoll_chatSessionKey (delayMs : Z) (st : State) :
  chatSessionKey (scheduleChatPoll delayMs st) = chatSessionKey st.
Proof. apply (scheduleChatPoll_frame delayMs st). Qed.

Lemma pollSessionsHistory_afterDelta_chatSessionKey (now : Z) (ctx : PollCtx)
    (r : Settled) (st : State) :
  chatSessionKey (pollSessionsHistory_afterDelta now ctx r st)
  = chatSessionKey st.
Proof.
  unfold pollSessionsHistory_afterDelta, pollSessionsHistory_tail.
  destruct r; rewrite scheduleChatPoll_chatSessionKey;
    destruct (Nat.ltb _ _); simpl; try reflexivity;
    destruct (pollSessionsHistory_render_frame now
                (pollSessionsHistory_merge ctx data st))
      as (_ & _ & _ & -> & _);
    unfold pollSessionsHistory_merge; destruct (countLoop _ _ _); reflexivity.
Qed.

Lemma loadOlderChat_settle_chatSessionKey (r : Settled) (st : State) :
  chatSessionKey (loadOlderChat_settle r st) = chatSessionKey st.
Proof.
  unfold loadOlderChat_settle. destruct r; simpl; [ | reflexivity].
  rewrite syncChatSeenIds_chatSessionKey. simpl.
  destruct (Nat.ltb _ _); reflexivity.
Qed.

(** C3, as the code has it. A poll captures the session key when it starts
    and sends it with both of its calls. Nothing compares it with the
    current session key when a response arrives: whatever the session key
    is by then, the delta response is merged into the window that is
    current, and the page of [loadOlderChat] is prepended to it; the
    session key is left as it is. *)
Theorem response_applied_unguarded (now : Z) (ctx : PollCtx)
    (key : Js.value) (data : option Delta) (r : Settled) (st : State) :
  let cur := set_chatSessionKey key st in
  (forall st1 ctx1,
      pollSessionsHistory now st = (st1, Some ctx1) ->
      currentSession ctx1 = chatSessionKey st
      /\ calls st1
         = (calls st
            ++ [mkCall "chat_poll" (chatSessionKey st) None None
                  (Some CHAT_HISTORY_PAGE_LIMIT)])%list)
  /\ calls (pollSessionsHistory_refreshed now ctx cur)
     = (calls st
        ++ [mkCall "chat_history_delta" (currentSession ctx)
              (Js.or (Some (maxChatTs st)) None) None
              (Some CHAT_DELTA_LIMIT)])%list
  /\ chatItems (pollSessionsHistory_afterDelta now ctx (Resolved data) cur)
     = mergeNewer (chatItems st) (itemsOf data)
  /\ chatSessionKey (pollSessionsHistory_afterDelta now ctx (Resolved data) cur)
     = key
  /\ chatItems (loadOlderChat_settle r cur)
     = prependOlder (chatItems st) (settledItems r)
  /\ chatSessionKey (loadOlderChat_settle r cur) = key.
Proof.
  intros cur. split; [ | split; [ | split; [ | split; [ | split]]]].
  - intros st1 ctx1. unfold pollSessionsHistory.
    destruct (chatPollingActive st); simpl; [ | discriminate].
    destruct (Js.truthy (chatSessionKey st)); simpl; [ | discriminate].
    intros [= <- <-]. split; reflexivity.
  - reflexivity.
  - rewrite pollSessionsHistory_afterDelta_chatItems. reflexivity.
  - rewrite pollSessionsHistory_afterDelta_chatSessionKey. reflexivity.
  - rewrite loadOlderChat_settle_chatItems. reflexivity.
  - rewrite loadOlderChat_settle_chatSessionKey. reflexivity.
Qed.

Lemma response_applied_unguarded_witness :
  let st1 := fst (pollSessionsHistory 2000 coldStart) in
  calls st1
  = (calls coldStart ++ [mkCall "chat_poll" (Some "main") None None
                         (Some 50%Z)])%list.
Proof.
  intros st1.
  refine (proj2 (proj1 (response_applied_unguarded 2000
                          (mkPollCtx None ∅) None None (Rejected "")
                          coldStart)
                   st1 (mkPollCtx (Some "main") (chatLastSeenIds coldStart))
                   _)).
  vm_compute. reflexivity.
Defined.

(** C3 fails as stated. The poll captured [main]; the session is [other]
    when its delta response arrives, and the response is merged all the
    same: [m3] and [m4] of [main] follow [x1] of [other] in the window.
    Likewise the page fetched for [main] is prepended to the window of
    [other]. *)
Lemma stale_response_merged :
  currentSession <$> snd staleRun = Some (Some "main")
  /\ chatSessionKey (fst staleRun) = Some "other"
  /\ chatItems (fst staleRun) = [x1; m3; m4]
  /\ chatSessionKey stalePage = Some "other"
  /\ chatItems stalePage = [m0; x1].
Proof. repeat split; vm_compute; reflexivity. Qed.

(** ** The scenarios of the specification, run on the model *)

(** Scenario A: the first fetch returns three messages. *)
Example scenario_cold_start :
  chatItems coldStart = [m1; m2; m3]
  /\ chatHasOlder coldStart = false
  /\ timers coldStart = [(1%positive, 1000%Z)].
Proof. repeat split; vm_compute; reflexivity. Qed.

(** Scenario B: the next poll asks for [after_ts = 30] and gets the
    boundary message again with one new agent message. *)
Example scenario_overlap :
  let st := pollCycle 2000 (Some (mkDelta (Some [m3; m4]) false)) coldStart in
  chatItems st = [m1; m2; m3; m4]
  /\ chatLastPollAppended st = 1%nat
  /\ after_ts <$> last (calls st) = Some (Some "30")
  /\ timers st = [(2%positive, 2000%Z)].
Proof. repeat split; vm_compute; reflexivity. Qed.

(** Scenario C: a window of 200 items takes five new ones and drops its
    five oldest; [chatHasOlder] is not touched. *)
Example scenario_trim :
  let st :=
    pollCycle 9000 (Some (mkDelta (Some (batchOf 351 5)) false)) fullWindow in
  length (chatItems st) = 200%nat
  /\ head (chatItems st) = Some (numbered 156)
  /\ last (chatItems st) = Some (numbered 355)
  /\ chatHasOlder st = chatHasOlder fullWindow.
Proof. repeat split; vm_compute; reflexivity. Qed.

(** A rejected poll records the error and still reschedules. *)
Example scenario_poll_error :
  let st :=
    match pollSessionsHistory 2000 coldStart with
    | (st, Some ctx) =>
        pollSessionsHistory_afterPoll 2100 ctx (Rejected "gateway down") st
    | (st, None) => st
    end in
  chatLastPollError st = Some "gateway down"
  /\ chatLastPollAppended st = 0%nat
  /\ chatItems st = chatItems coldStart
  /\ timers st = [(2%positive, 5000%Z)].
Proof. repeat split; vm_compute; reflexivity. Qed.

(** * Further properties of the script *)

(** ** The hash and the dedupe key *)

(** Two numbers that differ by a multiple of [2^32]. *)
Lemma mod32_intro (a b k : Z) :
  (a = b + k * 2 ^ 32)%Z -> (a mod 2 ^ 32 = b mod 2 ^ 32)%Z.
Proof. intros ->. apply Z_mod_plus_full. Qed.

Lemma mod32_elim (a b : Z) :
  (a mod 2 ^ 32 = b mod 2 ^ 32)%Z -> exists k, (a = b + k * 2 ^ 32)%Z.
Proof.
  intros Hab. exists (a / 2 ^ 32 - b / 2 ^ 32)%Z.
  pose proof (Z.div_mod a (2 ^ 32) ltac:(lia)) as Ha.
  pose proof (Z.div_mod b (2 ^ 32) ltac:(lia)) as Hb.
  rewrite Hab in Ha. lia.
Qed.

Lemma toInt32_eq (z : Z) : exists k, (Js.toInt32 z = z + k * 2 ^ 32)%Z.
Proof.
  unfold Js.toInt32. exists (- ((z + 2 ^ 31) / 2 ^ 32))%Z.
  rewrite Z.mod_eq by lia. lia.
Qed.

Lemma shl5_eq (h : Z) : exists k, (Js.shl h 5 = 32 * h + k * 2 ^ 32)%Z.
Proof.
  unfold Js.shl. rewrite Z.shiftl_mul_pow2 by lia.
  destruct (toInt32_eq h) as [k1 Hk1].
  destruct (toInt32_eq (Js.toInt32 h * 2 ^ 5)) as [k2 Hk2].
  exists (32 * k1 + k2)%Z. rewrite Hk2, Hk1. lia.
Qed.

(** One turn of the loop is one step of [djb2], modulo [2^32]. *)
Lemma simpleHash_step_mod (h h' c : Z) :
  (h mod 2 ^ 32 = h' mod 2 ^ 32)%Z ->
  (((Js.shl h 5 + h) + c) mod 2 ^ 32 = (33 * h' + c) mod 2 ^ 32)%Z.
Proof.
  intros Hh. apply mod32_elim in Hh as [j Hj].
  destruct (shl5_eq h) as [k Hk].
  apply (mod32_intro _ _ (k + 33 * j)). rewrite Hk, Hj. lia.
Qed.

Lemma toDouble_exact (z : Z) :
  (Z.abs z <= 9007199254740992)%Z -> Js.toDouble z = z.
Proof.
  intros Hz. unfold Js.toDouble. cbv zeta.
  change (2 ^ 53)%Z with 9007199254740992%Z.
  destruct (Z.leb_spec (Z.abs z) 9007199254740992); [reflexivity | lia].
Qed.

Lemma shl_range (h n : Z) : (- 2147483648 <= Js.shl h n < 2147483648)%Z.
Proof.
  unfold Js.shl, Js.toInt32.
  change (2 ^ 31)%Z with 2147483648%Z. change (2 ^ 32)%Z with 4294967296%Z.
  pose proof (Z.mod_pos_bound
                (Z.shiftl ((h + 2147483648) mod 4294967296 - 2147483648) n
                 + 2147483648) 4294967296 ltac:(lia)).
  lia.
Qed.

Lemma charCode_range (c : ascii) : (0 <= Js.charCode c < 256)%Z.
Proof.
  unfold Js.charCode. pose proof (nat_ascii_bounded c). lia.
Qed.

(** While the sums stay within [2^53] the loop carries [djb2] modulo
    [2^32]. *)
Lemma simpleHashLoop_mod (s : string) (h h' : Z) :
  (Z.abs h + 2147483903 * Z.of_nat (String.length s) <= 9007199254740992)%Z ->
  (h mod 2 ^ 32 = h' mod 2 ^ 32)%Z ->
  (0 <= h' < 2 ^ 32)%Z ->
  (simpleHashLoop s h mod 2 ^ 32)%Z
  = fold_left (fun h c => ((33 * h + Js.charCode c) mod 2 ^ 32)%Z)
      (list_ascii_of_string s) h'.
Proof.
  revert h h'. induction s as [ | c s IH]; intros h h' Hb Hh Hr.
  - simpl. rewrite Hh. apply Z.mod_small. assumption.
  - cbn [simpleHashLoop list_ascii_of_string fold_left].
    cbn [String.length] in Hb. rewrite Nat2Z.inj_succ in Hb.
    pose proof (shl_range h 5) as Hs. pose proof (charCode_range c) as Hc.
    rewrite (toDouble_exact (Js.shl h 5 + h)) by lia.
    rewrite (toDouble_exact (Js.shl h 5 + h + Js.charCode c)) by lia.
    apply IH.
    + lia.
    + rewrite Zmod_mod. apply simpleHash_step_mod. assumption.
    + apply Z.mod_pos_bound. lia.
Qed.

Lemma djb2_range (l : list ascii) (h : Z) :
  (0 <= h < 2 ^ 32)%Z ->
  (0 <= fold_left (fun h c => ((33 * h + Js.charCode c) mod 2 ^ 32)%Z) l h
   < 2 ^ 32)%Z.
Proof.
  revert h. induction l as [ | c l IH]; intros h Hh; simpl.
  - assumption.
  - apply IH. apply Z.mod_pos_bound. lia.
Qed.

Lemma simpleHash_as_djb2 (str : string) :
  (Z.of_nat (String.length str) < 4194304)%Z ->
  simpleHash str = Js.toString16 (djb2 str).
Proof.
  intros Hlen. unfold simpleHash, Js.toUint32, djb2. f_equal.
  apply simpleHashLoop_mod; [lia | reflexivity | lia].
Qed.

Lemma djb2_bounds (str : string) : (0 <= djb2 str < 2 ^ 32)%Z.
Proof. unfold djb2. apply djb2_range. lia. Qed.

(** X1. For a string of less than [2^22] characters [simpleHash] is the
    hash of Bernstein on 32 bits: although the loop wraps only the shifted
    term and lets the sum grow, the number it prints is [h * 33 + c]
    carried modulo [2^32] from 5381. (For a longer string the sum can pass
    [2^53], where it is rounded.) *)
Theorem simpleHash_djb2 (str : string) :
  (Z.of_nat (String.length str) < 2 ^ 22)%Z ->
  simpleHash str = Js.toString16 (djb2 str)
  /\ (0 <= djb2 str < 2 ^ 32)%Z.
Proof.
  intros Hlen. split; [apply simpleHash_as_djb2; exact Hlen | apply djb2_bounds].
Qed.

Lemma simpleHash_djb2_witness :
  simpleHash "user|10|hello" = Js.toString16 (djb2 "user|10|hello")
  /\ (0 <= djb2 "user|10|hello" < 2 ^ 32)%Z.
Proof. apply (simpleHash_djb2 "user|10|hello"). vm_compute. reflexivity. Defined.

Lemma hexDigit_spec (d : Z) :
  (0 <= d < 16)%Z ->
  hexValue (Js.hexDigit d) = d /\ isHexDigit (Js.hexDigit d) = true.
Proof.
  intros Hd.
  assert (Hcases : (d = 0 \/ d = 1 \/ d = 2 \/ d = 3 \/ d = 4 \/ d = 5
                    \/ d = 6 \/ d = 7 \/ d = 8 \/ d = 9 \/ d = 10 \/ d = 11
                    \/ d = 12 \/ d = 13 \/ d = 14 \/ d = 15)%Z) by lia.
  repeat (destruct Hcases as [-> | Hcases]; [split; reflexivity | ]).
  subst d. split; reflexivity.
Qed.

(** Reading back what [hexAux] writes in front of [acc] gives [n]. *)
Lemma hexAux_parse (fuel : nat) (n : Z) (acc : string) :
  (0 <= n < 16 ^ Z.of_nat fuel)%Z ->
  parseHexFrom 0 (Js.hexAux fuel n acc) = parseHexFrom n acc.
Proof.
  revert n acc. induction fuel as [ | fuel IH]; intros n acc Hn.
  - simpl in *. f_equal. lia.
  - rewrite Nat2Z.inj_succ, Z.pow_succ_r in Hn by lia.
    assert (Hdigit : (0 <= n mod 16 < 16)%Z) by (apply Z.mod_pos_bound; lia).
    pose proof (Z.div_mod n 16 ltac:(lia)) as Hdm.
    simpl. destruct (Z.eqb_spec (n / 16) 0) as [Hq | Hq].
    + simpl. rewrite (proj1 (hexDigit_spec _ Hdigit)). f_equal. lia.
    + rewrite IH.
      * simpl. rewrite (proj1 (hexDigit_spec _ Hdigit)). f_equal. lia.
      * split; [apply Z.div_pos; lia | ].
        apply Z.div_lt_upper_bound; lia.
Qed.

Lemma hexAux_shape (fuel : nat) (n : Z) (acc : string) :
  (0 <= n)%Z ->
  forallb isHexDigit (list_ascii_of_string acc) = true ->
  forallb isHexDigit (list_ascii_of_string (Js.hexAux fuel n acc)) = true
  /\ (String.length (Js.hexAux fuel n acc) <= fuel + String.length acc)%nat
  /\ (fuel <> O ->
      (String.length acc < String.length (Js.hexAux fuel n acc))%nat).
Proof.
  revert n acc. induction fuel as [ | fuel IH]; intros n acc Hn Hacc.
  - simpl. repeat split; [assumption | lia | congruence].
  - assert (Hdigit : (0 <= n mod 16 < 16)%Z) by (apply Z.mod_pos_bound; lia).
    assert (Hacc' : forallb isHexDigit
                      (list_ascii_of_string
                         (String (Js.hexDigit (n mod 16)) acc)) = true).
    { simpl. rewrite (proj2 (hexDigit_spec _ Hdigit)). assumption. }
    simpl. destruct (Z.eqb_spec (n / 16) 0) as [Hq | Hq].
    + repeat split; [assumption | simpl; lia | simpl; lia].
    + destruct (IH (n / 16)%Z (String (Js.hexDigit (n mod 16)) acc))
        as (Hall & Hlen & Hpos); [apply Z.div_pos; lia | assumption | ].
      simpl in Hlen. repeat split; [assumption | lia | ].
      intros _. destruct fuel as [ | fuel'].
      * cbn [Js.hexAux String.length]. lia.
      * specialize (Hpos ltac:(congruence)). cbn [String.length] in Hpos. lia.
Qed.

(** X2. The text of the hash loses nothing and has one shape: it is made
    of one to eight lower-case hexadecimal digits, and two strings get the
    same text exactly when the loop leaves them the same number modulo
    [2^32]; for strings of less than [2^22] characters, exactly when their
    32-bit hash values of Bernstein are equal. *)
Theorem simpleHash_text (s s' : string) :
  (simpleHash s = simpleHash s'
   <-> Js.toUint32 (simpleHashLoop s 5381) = Js.toUint32 (simpleHashLoop s' 5381))
  /\ ((Z.of_nat (String.length s) < 2 ^ 22)%Z ->
      (Z.of_nat (String.length s') < 2 ^ 22)%Z ->
      (simpleHash s = simpleHash s' <-> djb2 s = djb2 s'))
  /\ forallb isHexDigit (list_ascii_of_string (simpleHash s)) = true
  /\ (1 <= String.length (simpleHash s) <= 8)%nat.
Proof.
  assert (Hu : forall t, (0 <= Js.toUint32 (simpleHashLoop t 5381) < 2 ^ 32)%Z).
  { intros t. unfold Js.toUint32. apply Z.mod_pos_bound. lia. }
  assert (Hinj : forall a b, (0 <= a < 2 ^ 32)%Z -> (0 <= b < 2 ^ 32)%Z ->
                 Js.toString16 a = Js.toString16 b -> a = b).
  { intros a b Ha Hb Heq. apply (f_equal (parseHexFrom 0)) in Heq.
    unfold Js.toString16 in Heq. rewrite !hexAux_parse in Heq by (simpl; lia).
    exact Heq. }
  split; [ | split].
  - unfold simpleHash. split.
    + apply Hinj; apply Hu.
    + intros ->. reflexivity.
  - intros Hs Hs'. rewrite !simpleHash_as_djb2 by assumption. split.
    + apply Hinj; apply djb2_bounds.
    + intros ->. reflexivity.
  - destruct (hexAux_shape 8 (Js.toUint32 (simpleHashLoop s 5381)) ""
                (proj1 (Hu s)) eq_refl)
      as (Hall & Hlen & Hpos).
    unfold simpleHash, Js.toString16. split; [assumption | ].
    specialize (Hpos ltac:(congruence)). simpl in *. lia.
Qed.

Lemma simpleHash_text_witness :
  simpleHash "ab" = simpleHash "ab" <-> djb2 "ab" = djb2 "ab".
Proof.
  apply (proj1 (proj2 (simpleHash_text "ab" "ab"))); vm_compute; reflexivity.
Defined.

(** X3. Only [null] has the empty key. A message object gets its id, the
    first of [id], [message_id] and [messageId] that is not empty, as its
    key; when it has none, its key is [h_] followed by the hash of its
    role, timestamp and text joined by bars, missing fields counting as
    empty. So the merge and the count, which skip items without a key, skip
    nothing but [null] entries. *)
Theorem chatItemKey_empty_iff (it : Item) :
  (chatItemKey it = "" <-> it = None)
  /\ (forall m, it = Some m ->
        let id :=
          Js.or (Js.or (Msg.id m) (Msg.message_id m)) (Msg.messageId m) in
        (Js.truthy id = true -> chatItemKey it = Js.strOr id)
        /\ (Js.truthy id = false ->
            chatItemKey it
            = "h_" ++ simpleHash (Js.strOr (Msg.role m) ++ "|"
                                  ++ Js.strOr (Msg.ts m) ++ "|"
                                  ++ Js.strOr (Msg.text m)))).
Proof.
  split.
  - split; [ | intros ->; reflexivity].
    destruct it as [m | ]; [ | reflexivity]. simpl.
    destruct (Js.or (Js.or (Msg.id m) (Msg.message_id m)) (Msg.messageId m))
      as [s | ]; simpl; [ | discriminate].
    destruct (String.eqb_spec s "") as [-> | Hs]; simpl.
    + discriminate.
    + intros Hempty. contradiction.
  - intros m -> id. subst id. simpl.
    split; intros Hid; rewrite Hid; reflexivity.
Qed.

Lemma chatItemKey_empty_iff_witness :
  chatItemKey m1 = "m1"
  /\ chatItemKey (anon "10" "user" "hello")
     = "h_" ++ simpleHash "user|10|hello".
Proof.
  split.
  - apply (proj1 (proj2 (chatItemKey_empty_iff m1)
                    (Msg.mk (Some "m1") None None (Some "10") (Some "user")
                       None (Some "hello"))
                    eq_refl)).
    reflexivity.
  - apply (proj2 (proj2 (chatItemKey_empty_iff (anon "10" "user" "hello"))
                    (Msg.mk None None None (Some "10") (Some "user") None
                       (Some "hello"))
                    eq_refl)).
    reflexivity.
Defined.

(** The key of a message none of whose id fields is truthy. *)
Lemma chatItemKey_fallback (m : Msg.t) :
  Js.truthy (Js.or (Js.or (Msg.id m) (Msg.message_id m)) (Msg.messageId m))
  = false ->
  chatItemKey (Some m)
  = "h_" ++ simpleHash (Js.strOr (Msg.role m) ++ "|" ++ Js.strOr (Msg.ts m)
                        ++ "|" ++ Js.strOr (Msg.text m)).
Proof. intros Hid. simpl. rewrite Hid. reflexivity. Qed.

Lemma string_app_assoc (a b c : string) : (a ++ b) ++ c = a ++ (b ++ c).
Proof.
  induction a as [ | x a IH]; [reflexivity | ].
  change (String x ((a ++ b) ++ c) = String x (a ++ (b ++ c))).
  f_equal. exact IH.
Qed.

(** X4. What the fallback key cannot tell apart. Two messages without an
    id get the same key whenever their role, timestamp and text, joined by
    bars with missing fields read as empty, give the same string. So the key
    ignores the session key, it does not tell a missing role, timestamp or
    text from an empty one, and, the bar not being escaped, it does not
    tell where a bar between two neighbouring fields belongs. *)
Theorem fallback_key_confusions (m m' : Msg.t) :
  (Js.truthy (Js.or (Js.or (Msg.id m) (Msg.message_id m)) (Msg.messageId m))
   = false ->
   Js.truthy (Js.or (Js.or (Msg.id m') (Msg.message_id m')) (Msg.messageId m'))
   = false ->
   Js.strOr (Msg.role m) ++ "|" ++ Js.strOr (Msg.ts m) ++ "|"
   ++ Js.strOr (Msg.text m)
   = Js.strOr (Msg.role m') ++ "|" ++ Js.strOr (Msg.ts m') ++ "|"
     ++ Js.strOr (Msg.text m') ->
   chatItemKey (Some m) = chatItemKey (Some m'))
  /\ (forall (r t x k1 k2 : Js.value),
        chatItemKey (Some (Msg.mk None None None t r k1 x))
        = chatItemKey (Some (Msg.mk None None None t r k2 x)))
  /\ (forall (r t x k : Js.value),
        chatItemKey (Some (Msg.mk None None None t r k x))
        = chatItemKey (Some (Msg.mk None None None (Some (Js.strOr t))
                               (Some (Js.strOr r)) k (Some (Js.strOr x)))))
  /\ (forall (a b c d : string) (k : Js.value),
        chatItemKey (Some (Msg.mk None None None (Some c)
                             (Some (a ++ "|" ++ b)) k (Some d)))
        = chatItemKey (Some (Msg.mk None None None (Some (b ++ "|" ++ c))
                               (Some a) k (Some d))))
  /\ (forall (a b c d : string) (k : Js.value),
        chatItemKey (Some (Msg.mk None None None (Some (b ++ "|" ++ c))
                             (Some a) k (Some d)))
        = chatItemKey (Some (Msg.mk None None None (Some b) (Some a) k
                               (Some (c ++ "|" ++ d))))).
Proof.
  split; [ | split; [ | split; [ | split]]].
  - intros Hm Hm' Heq.
    rewrite (chatItemKey_fallback m Hm), (chatItemKey_fallback m' Hm'), Heq.
    reflexivity.
  - reflexivity.
  - intros r t x k. rewrite !chatItemKey_fallback by reflexivity. reflexivity.
  - intros a b c d k. rewrite !chatItemKey_fallback by reflexivity. simpl.
    rewrite !string_app_assoc. reflexivity.
  - intros a b c d k. rewrite !chatItemKey_fallback by reflexivity. simpl.
    rewrite !string_app_assoc. reflexivity.
Qed.

Lemma fallback_key_confusions_witness :
  chatItemKey (anon "10" "user|x" "hello")
  = chatItemKey (Some (Msg.mk (Some "") None None (Some "x|10") (Some "user")
                         (Some "main") (Some "hello"))).
Proof.
  apply (proj1 (fallback_key_confusions
                  (Msg.mk None None None (Some "10") (Some "user|x") None
                     (Some "hello"))
                  (Msg.mk (Some "") None None (Some "x|10") (Some "user")
                     (Some "main") (Some "hello")))).
  - reflexivity.
  - reflexivity.
  - reflexivity.
Defined.

(** ** Structure of a merged window *)

Lemma addedBy_sublist (newer : list Item) (existing : gset string) :
  addedBy newer existing `sublist_of` newer.
Proof.
  revert existing. induction newer as [ | it rest IH]; intros existing; simpl.
  - constructor.
  - destruct (_ || _).
    + apply sublist_cons, IH.
    + apply sublist_skip, IH.
Qed.

(** X5. A poll merge never invents, reorders or duplicates: the merged
    window is an end piece of the old window followed by some of the batch
    items in batch order, and those items carry non-empty keys that are
    pairwise distinct and absent from the old window. *)
Theorem mergeNewer_structure (its newer : list Item) :
  exists added,
    added `sublist_of` newer
    /\ mergeNewer its newer `suffix_of` (its ++ added)%list
    /\ NoDup (map chatItemKey added)
    /\ Forall (fun it => nonEmpty (chatItemKey it) = true
                         /\ ~ In (chatItemKey it) (map chatItemKey its))
         added.
Proof.
  rewrite mergeNewer_eq.
  destruct (Nat.ltb 0 (length newer)).
  - exists (addedBy newer (newSet (map chatItemKey its))). cbv zeta.
    split; [apply addedBy_sublist | ]. split; [ | split].
    + destruct (Nat.ltb 200 _); [apply suffix_drop | reflexivity].
    + apply addedBy_NoDup.
    + apply List.Forall_forall. intros it Hin.
      apply addedBy_In in Hin as (_ & Hk & Hnot).
      split; [assumption | ]. rewrite <- elem_of_newSet. assumption.
  - exists []. split; [apply sublist_nil_l | ]. split; [ | split].
    + rewrite app_nil_r. reflexivity.
    + constructor.
    + constructor.
Qed.

Lemma sliceLast_keeps_tail {A : Type} (n : nat) (l1 l2 : list A) :
  (length l2 <= n)%nat ->
  exists l1', sliceLast n (l1 ++ l2) = (l1' ++ l2)%list.
Proof.
  intros Hle. unfold sliceLast. rewrite skipn_app, length_app.
  exists (skipn (length l1 + length l2 - n) l1). f_equal.
  replace (length l1 + length l2 - n - length l1)%nat with 0%nat by lia.
  reflexivity.
Qed.

(** X6. A batch within the delta limit loses no new message to the trim:
    when the batch has at most 200 items, every keyed batch item whose key
    was not in the window is in the merged window. *)
Theorem mergeNewer_keeps_new (its newer : list Item) (k : string) :
  (length newer <= 200)%nat ->
  keyed newer k ->
  ~ keyed its k ->
  keyed (mergeNewer its newer) k.
Proof.
  intros Hlen Hk Hnot. rewrite mergeNewer_eq.
  assert (Hpos : Nat.ltb 0 (length newer) = true).
  { destruct newer; [destruct Hk as [_ []] | reflexivity]. }
  rewrite Hpos. cbv zeta.
  set (added := addedBy newer (newSet (map chatItemKey its))).
  assert (Hadded : keyed added k).
  { destruct (addedBy_covers newer (newSet (map chatItemKey its)) k Hk)
      as [Hex | Hadd].
    - exfalso. apply Hnot. split; [apply Hk | ].
      apply elem_of_newSet. assumption.
    - split; [apply Hk | assumption]. }
  destruct (Nat.ltb 200 _).
  - destruct (sliceLast_keeps_tail 200 its added) as [its' Heq].
    + pose proof (addedBy_length newer (newSet (map chatItemKey its))).
      fold added in H. lia.
    + rewrite Heq. apply keyed_app. right. assumption.
  - apply keyed_app. right. assumption.
Qed.

Lemma mergeNewer_keeps_new_witness :
  keyed (mergeNewer [m1; m2; m3] [m3; m4]) "m4".
Proof.
  apply mergeNewer_keeps_new.
  - vm_compute. lia.
  - split; [reflexivity | right; left; reflexivity].
  - intros [_ Hin]. vm_compute in Hin.
    destruct Hin as [Hin | [Hin | [Hin | []]]]; discriminate Hin.
Defined.

(** ** The poll loop beyond the claims *)

Lemma pollInv_ext (st st' : State) :
  timers st' = timers st ->
  chatPollingActive st' = chatPollingActive st ->
  pollInv st -> pollInv st'.
Proof. unfold pollInv. intros -> ->. auto. Qed.

Lemma knownDelay_clamp (d : Z) : knownDelay d -> clampDelay d = d.
Proof. intros [-> | [-> | ->]]; reflexivity. Qed.

Lemma scheduleChatPoll_pollInv (delayMs : Z) (st : State) :
  knownDelay delayMs -> timerInv st -> pollInv st ->
  pollInv (scheduleChatPoll delayMs st).
Proof.
  intros Hd Hinv Hpoll. destruct (chatPollingActive st) eqn:Hact.
  - destruct (scheduleChatPoll_active delayMs st Hinv Hact) as [Ht _].
    unfold pollInv. rewrite Ht. constructor; [ | constructor]. simpl.
    rewrite knownDelay_clamp by assumption. split; [ | assumption].
    rewrite <- Hact. apply (scheduleChatPoll_frame delayMs st).
  - rewrite scheduleChatPoll_inactive; assumption.
Qed.

(** Closes [pollInv st'] when [st'] has the timeouts and the activity of a
    state that satisfies it. *)
Ltac same_poll H :=
  eapply pollInv_ext; [ | | exact H];
  simpl;
  repeat (rewrite ?syncChatSeenIds_timers, ?syncChatSeenIds_chatPollingActive;
          simpl;
          try match goal with
              | |- context [if ?b then _ else _] => destruct b; simpl
              end);
  reflexivity.

Lemma pollSessionsHistory_tail_pollInv (now : Z) (st : State) :
  timerInv st -> pollInv st -> pollInv (pollSessionsHistory_tail now st).
Proof.
  intros Hinv Hpoll. unfold pollSessionsHistory_tail.
  apply scheduleChatPoll_pollInv.
  - destruct (Z.ltb _ _); [right; left | right; right]; reflexivity.
  - same_timers Hinv.
  - same_poll Hpoll.
Qed.

Lemma step_pollInv (e : Event) (st : State) :
  timerInv st -> pollInv st -> pollInv (step e st).
Proof.
  intros Hinv Hpoll. destruct e; simpl.
  - unfold loadChatFromConfig. same_poll Hpoll.
  - same_poll Hpoll.
  - destruct r; simpl; [ | assumption]. same_poll Hpoll.
  - unfold startChatPolling. destruct (chatPollingActive st) eqn:Hact;
      [assumption | ].
    apply scheduleChatPoll_pollInv; [left; reflexivity | same_timers Hinv | ].
    unfold pollInv. simpl.
    destruct Hinv as [-> | (h & d & Hl & _)]; [constructor | ].
    unfold pollInv in Hpoll. rewrite Hl in Hpoll.
    apply Forall_inv in Hpoll as [Hcontra _]. congruence.
  - unfold pollInv. rewrite (stopChatPolling_timers st Hinv). constructor.
  - unfold fire. destruct (existsb _ _) eqn:Hex; [ | assumption].
    assert (Hempty : timers (set_timers (dropTimer h (timers st)) st) = []).
    { destruct Hinv as [Hnil | (h' & d & Hl & Hh & _)].
      - simpl. rewrite Hnil. reflexivity.
      - rewrite Hl in Hex. simpl in Hex. rewrite orb_false_r in Hex.
        apply Pos.eqb_eq in Hex. subst h'.
        simpl. rewrite Hl. apply dropTimer_single. }
    revert Hempty. generalize (set_timers (dropTimer h (timers st)) st).
    intros s Hs.
    assert (Hs1 : timerInv s) by (left; assumption).
    assert (Hs2 : pollInv s) by (unfold pollInv; rewrite Hs; constructor).
    unfold pollSessionsHistory.
    destruct (chatPollingActive s); simpl; [ | assumption].
    destruct (Js.truthy (chatSessionKey s)); simpl.
    + same_poll Hs2.
    + apply scheduleChatPoll_pollInv;
        [right; right; reflexivity | same_timers Hs1 | same_poll Hs2].
  - destruct r; simpl.
    + same_poll Hpoll.
    + apply pollSessionsHistory_tail_pollInv;
        [same_timers Hinv | same_poll Hpoll].
  - destruct r; simpl; apply pollSessionsHistory_tail_pollInv.
    + unfold pollSessionsHistory_render, pollSessionsHistory_merge.
      destruct (countLoop _ _ _). same_timers Hinv.
    + unfold pollSessionsHistory_render, pollSessionsHistory_merge.
      destruct (countLoop _ _ _). same_poll Hpoll.
    + same_timers Hinv.
    + same_poll Hpoll.
  - unfold loadOlderChat. destruct (chatLoadingOlder st); [assumption | ].
    destruct (negb _); same_poll Hpoll.
  - unfold loadOlderChat_settle. destruct r; same_poll Hpoll.
  - same_poll Hpoll.
  - unfold onchange_end. destruct (chatPollingActive st); [ | assumption].
    apply scheduleChatPoll_pollInv; [left; reflexivity | | ]; assumption.
  - unfold refreshTokenUsage. same_poll Hpoll.
  - unfold send_end. destruct (renderChatThrows st); [assumption | ].
    simpl. destruct (chatPollingActive st) eqn:Hact.
    + apply scheduleChatPoll_pollInv;
        [left; reflexivity | same_timers Hinv | ].
      eapply pollInv_ext; [ | | exact Hpoll]; reflexivity.
    + eapply pollInv_ext; [ | | exact Hpoll]; reflexivity.
Qed.

Lemma run_pollInv (es : list Event) (st : State) :
  timerInv st -> pollInv st -> pollInv (run es st).
Proof.
  revert st. induction es as [ | e es IH]; intros st Hinv Hpoll; simpl.
  - assumption.
  - apply IH; [apply step_inv | apply step_pollInv]; assumption.
Qed.

(** X7. Whatever events run from the initial state, a poll timeout is
    pending only while polling is active, and its delay is 1000, 2000 or
    5000 ms. So after [stopChatPolling] nothing is pending, and neither the
    response of a poll that was in flight nor any other handler arms the
    timer again before [startChatPolling] does. *)
Theorem timer_only_while_active (es : list Event) :
  let st := run es initialState in
  Forall (fun t => chatPollingActive st = true
                   /\ (snd t = 1000 \/ snd t = 2000 \/ snd t = 5000)%Z)
    (timers st)
  /\ (chatPollingActive st = false -> timers st = [])
  /\ timers (stopChatPolling st) = []
  /\ stopChatPolling (stopChatPolling st) = stopChatPolling st.
Proof.
  intros st.
  assert (Hinv : timerInv st) by apply run_inv, initialState_inv.
  assert (Hpoll : pollInv st).
  { apply run_pollInv; [apply initialState_inv | constructor]. }
  split; [exact Hpoll | ]. split; [ | split].
  - intros Hact. destruct (timers st) as [ | t l] eqn:Ht; [reflexivity | ].
    unfold pollInv in Hpoll. rewrite Ht in Hpoll.
    apply Forall_inv in Hpoll as [Hcontra _]. congruence.
  - apply stopChatPolling_timers. assumption.
  - unfold stopChatPolling. simpl.
    destruct (chatPollTimer st) eqn:Hh; simpl; rewrite ?Hh; reflexivity.
Qed.

Lemma timer_only_while_active_witness :
  timers (run [EvStart; EvStop;
               EvPollSettle2 9 (mkPollCtx None ∅) (Rejected "")]
            initialState) = [].
Proof.
  destruct (timer_only_while_active
              [EvStart; EvStop;
               EvPollSettle2 9 (mkPollCtx None ∅) (Rejected "")])
    as (_ & Hoff & _).
  apply Hoff. reflexivity.
Defined.

Lemma substring_length (n m : nat) (s : string) :
  (String.length (String.substring n m s) <= m)%nat.
Proof.
  revert n m. induction s as [ | c s IH]; intros n m.
  - destruct n, m; simpl; lia.
  - destruct n as [ | n].
    + destruct m as [ | m]; simpl; [lia | ].
      specialize (IH 0%nat m). lia.
    + simpl. apply IH.
Qed.

(** The first characters of a string are a prefix of it. *)
Lemma substring_prefix (m : nat) (s : string) :
  String.prefix (String.substring 0 m s) s = true.
Proof.
  revert m. induction s as [ | c s IH]; intros m.
  - destruct m; reflexivity.
  - destruct m as [ | m]; [reflexivity | ].
    simpl. destruct (ascii_dec c c); [apply IH | contradiction].
Qed.

(** A string of at most [m] characters is its own first [m] characters. *)
Lemma substring_whole (m : nat) (s : string) :
  (String.length s <= m)%nat -> String.substring 0 m s = s.
Proof.
  revert m. induction s as [ | c s IH]; intros m Hlen.
  - destruct m; reflexivity.
  - destruct m as [ | m]; simpl in *; [lia | ].
    rewrite IH by lia. reflexivity.
Qed.

Lemma scheduleChatPoll_poll_fields (delayMs : Z) (st : State) :
  let st' := scheduleChatPoll delayMs st in
  chatPollBoostUntil st' = chatPollBoostUntil st
  /\ chatLastPollTs st' = chatLastPollTs st
  /\ chatLastPollError st' = chatLastPollError st
  /\ nextTimer st' = (if chatPollingActive st then Pos.succ (nextTimer st)
                      else nextTimer st).
Proof.
  unfold scheduleChatPoll. destruct (chatPollingActive st); simpl;
    [ destruct (chatPollTimer st) | ]; simpl; repeat split.
Qed.

(** What the tail does to the timer in a state that satisfies the
    invariant. *)
Lemma pollSessionsHistory_tail_timers (now : Z) (st : State) :
  timerInv st ->
  chatPollingActive st = true ->
  timers (pollSessionsHistory_tail now st)
  = [(nextTimer st,
      if Nat.ltb 0 (chatLastPollAppended st) || Z.ltb now (chatPollBoostUntil st)
      then CHAT_POLL_FAST_MS else CHAT_POLL_INTERVAL_MS)].
Proof.
  intros Hinv Hact. unfold pollSessionsHistory_tail.
  destruct (Nat.ltb 0 (chatLastPollAppended st)); simpl.
  - assert (Hlt : Z.ltb now (now + CHAT_POLL_BOOST_WINDOW_MS) = true).
    { apply Z.ltb_lt. unfold CHAT_POLL_BOOST_WINDOW_MS. lia. }
    rewrite Hlt.
    refine (proj1 (scheduleChatPoll_active _ (boostChatPolling now st) _ _)).
    + same_timers Hinv.
    + exact Hact.
  - destruct (Z.ltb now (chatPollBoostUntil st));
      apply scheduleChatPoll_active; assumption.
Qed.

(** X8. A poll cycle whose call is rejected, the first or the second,
    changes nothing of the window, the seen-key set, the session key or
    [chatHasOlder]; it reports no new message, records the first 120
    characters of the text of the error (the whole text when it is no
    longer), and, polling being active, leaves exactly one timeout pending:
    after 2000 ms inside the boost window and after 5000 ms otherwise. *)
Theorem poll_failure (es : list Event) (now : Z) (ctx : PollCtx)
    (message : string) :
  let st := run es initialState in
  let st' := pollSessionsHistory_afterDelta now ctx (Rejected message) st in
  pollSessionsHistory_afterPoll now ctx (Rejected message) st = st'
  /\ chatItems st' = chatItems st
  /\ chatLastSeenIds st' = chatLastSeenIds st
  /\ chatSessionKey st' = chatSessionKey st
  /\ chatHasOlder st' = chatHasOlder st
  /\ chatLastPollAppended st' = 0%nat
  /\ chatLastPollError st' = Some (String.substring 0 120 message)
  /\ (String.length (String.substring 0 120 message) <= 120)%nat
  /\ String.prefix (String.substring 0 120 message) message = true
  /\ ((String.length message <= 120)%nat ->
      chatLastPollError st' = Some message)
  /\ (chatPollingActive st = true ->
      timers st'
      = [(nextTimer st,
          if Z.ltb now (chatPollBoostUntil st) then 2000%Z else 5000%Z)]).
Proof.
  intros st st'.
  assert (Hinv : timerInv st) by apply run_inv, initialState_inv.
  subst st'. simpl. unfold pollSessionsHistory_tail. simpl.
  match goal with
  | |- context [scheduleChatPoll ?d ?s] =>
      destruct (scheduleChatPoll_frame d s) as (Hi & Ho & _ & Hk & _ & Hs & _);
      destruct (scheduleChatPoll_poll_fields d s) as (_ & _ & He & _);
      pose proof (scheduleChatPoll_chatLastPollAppended d s) as Ha
  end.
  simpl in *.
  split; [reflexivity | ].
  split; [exact Hi | ]. split; [exact Hs | ]. split; [exact Hk | ].
  split; [exact Ho | ]. split; [exact Ha | ].
  split; [exact He | ]. split; [apply substring_length | ].
  split; [apply substring_prefix | ]. split.
  - intros Hlen. rewrite He. unfold errorText.
    rewrite substring_whole by exact Hlen. reflexivity.
  - intros Hact.
    match goal with
    | |- timers (scheduleChatPoll ?d ?s) = _ =>
        refine (eq_trans (proj1 (scheduleChatPoll_active d s _ Hact)) _)
    end.
    + same_timers Hinv.
    + simpl. destruct (Z.ltb _ _); reflexivity.
Qed.

Lemma poll_failure_witness :
  timers (pollSessionsHistory_afterDelta 2500 (mkPollCtx (Some "main") ∅)
            (Rejected "gateway down") coldStart)
  = [(2%positive, 5000%Z)].
Proof.
  destruct (poll_failure
              [EvSwitchToChat false [] false (Some "main");
               EvLoadLatestCall;
               EvLoadLatestSettle (delta [m1; m2; m3] false);
               EvStart]
              2500 (mkPollCtx (Some "main") ∅) "gateway down")
    as (_ & _ & _ & _ & _ & _ & _ & _ & _ & _ & Htimer).
  apply Htimer. reflexivity.
Defined.

Lemma pollSessionsHistory_merge_fields (ctx : PollCtx) (data : option Delta)
    (st : State) :
  let st' := pollSessionsHistory_merge ctx data st in
  chatLastSeenIds st' = fst (countLoop (itemsOf data) (seenBefore ctx) 0)
  /\ chatLastPollAppended st'
     = snd (countLoop (itemsOf data) (seenBefore ctx) 0)
  /\ timers st' = timers st
  /\ chatPollTimer st' = chatPollTimer st
  /\ nextTimer st' = nextTimer st
  /\ chatPollingActive st' = chatPollingActive st
  /\ chatPollBoostUntil st' = chatPollBoostUntil st.
Proof.
  unfold pollSessionsHistory_merge. destruct (countLoop _ _ _).
  simpl. repeat split.
Qed.

Lemma pollSessionsHistory_merge_host (ctx : PollCtx) (data : option Delta)
    (st : State) :
  let st' := pollSessionsHistory_merge ctx data st in
  renderError st' = renderError st
  /\ chatLastPollError st' = chatLastPollError st.
Proof.
  unfold pollSessionsHistory_merge. destruct (countLoop _ _ _).
  simpl. repeat split.
Qed.

Lemma pollSessionsHistory_tail_chatLastPollError (now : Z) (st : State) :
  chatLastPollError (pollSessionsHistory_tail now st) = chatLastPollError st.
Proof.
  unfold pollSessionsHistory_tail.
  match goal with
  | |- chatLastPollError (scheduleChatPoll ?d ?s) = _ =>
      destruct (scheduleChatPoll_poll_fields d s) as (_ & _ & -> & _)
  end.
  destruct (Nat.ltb _ _); reflexivity.
Qed.

(** X9. After a poll cycle whose calls resolved, polling being active. The
    count the cycle reports is that of its counting loop, unless the merged
    window holds a [null]: then [renderChat] throws, the count is reset to
    zero and the first 120 characters of the error are recorded. Exactly one
    timeout is pending: after 2000 ms when the count reported is not zero
    or the boost window is still open, after 5000 ms otherwise; and a cycle
    that reports a count that is not zero opens the boost window for 30 s
    from now. *)
Theorem poll_reschedule (es : list Event) (now : Z) (ctx : PollCtx)
    (data : option Delta) :
  let st := run es initialState in
  let st' := pollSessionsHistory_afterDelta now ctx (Resolved data) st in
  let thrown := hasNull (mergeNewer (chatItems st) (itemsOf data)) in
  chatPollingActive st = true ->
  chatLastPollAppended st'
  = (if thrown then 0%nat
     else snd (countLoop (itemsOf data) (seenBefore ctx) 0))
  /\ chatLastPollError st'
     = (if thrown then Some (String.substring 0 120 (renderError st))
        else chatLastPollError st)
  /\ timers st'
     = [(nextTimer st,
         if Nat.ltb 0 (chatLastPollAppended st')
            || Z.ltb now (chatPollBoostUntil st)
         then 2000%Z else 5000%Z)]
  /\ chatPollBoostUntil st'
     = (if Nat.ltb 0 (chatLastPollAppended st') then (now + 30000)%Z
        else chatPollBoostUntil st).
Proof.
  intros st st' thrown Hact.
  assert (Hinv : timerInv st) by apply run_inv, initialState_inv.
  destruct (pollSessionsHistory_merge_fields ctx data st)
    as (_ & Hc & Ht & Hh & Hn & Ha & Hb).
  destruct (pollSessionsHistory_merge_host ctx data st) as (Hre & Herr).
  pose proof (pollSessionsHistory_merge_chatItems ctx data st) as Hitems.
  set (merged := pollSessionsHistory_merge ctx data st) in *.
  destruct (pollSessionsHistory_render_frame now merged)
    as (_ & _ & _ & _ & Ra & Rh & _ & Rb & Rt & Rn & _).
  pose proof (pollSessionsHistory_render_chatLastPollAppended now merged)
    as Rc.
  assert (Hthrown : renderChatThrows merged = thrown).
  { unfold renderChatThrows. rewrite Hitems. reflexivity. }
  rewrite Hthrown, Hc in Rc.
  set (rendered := pollSessionsHistory_render now merged) in *.
  assert (Hst' : st' = pollSessionsHistory_tail now rendered) by reflexivity.
  rewrite Hst', pollSessionsHistory_tail_chatLastPollAppended.
  split; [exact Rc | ]. split; [ | split].
  - rewrite pollSessionsHistory_tail_chatLastPollError.
    subst rendered. unfold pollSessionsHistory_render.
    rewrite Hthrown. destruct thrown; simpl.
    + rewrite Hre. reflexivity.
    + exact Herr.
  - rewrite pollSessionsHistory_tail_timers.
    + rewrite Rn, Hn, Rb, Hb. reflexivity.
    + eapply timerInv_ext; [ | | exact Hinv].
      * rewrite Rt. exact Ht.
      * rewrite Rh. exact Hh.
    + rewrite Ra, Ha. exact Hact.
  - unfold pollSessionsHistory_tail.
    match goal with
    | |- chatPollBoostUntil (scheduleChatPoll ?d ?s) = _ =>
        rewrite (proj1 (scheduleChatPoll_poll_fields d s))
    end.
    destruct (Nat.ltb 0 _); simpl; [reflexivity | ].
    rewrite Rb. exact Hb.
Qed.

Lemma poll_reschedule_witness :
  timers (pollSessionsHistory_afterDelta 2500 (mkPollCtx (Some "main") ∅)
            (Resolved (Some (mkDelta (Some [m4]) false))) coldStart)
  = [(2%positive, 2000%Z)].
Proof.
  refine (proj1 (proj2 (proj2 (poll_reschedule
                   [EvSwitchToChat false [] false (Some "main");
                    EvLoadLatestCall;
                    EvLoadLatestSettle (delta [m1; m2; m3] false);
                    EvStart]
                   2500 (mkPollCtx (Some "main") ∅)
                   (Some (mkDelta (Some [m4]) false)) _)))).
  reflexivity.
Defined.

(** ** The seen-key set *)

Lemma batchKeys_cons (it : Item) (rest : list Item) :
  batchKeys (it :: rest)
  = if nonEmpty (chatItemKey it) then {[chatItemKey it]} ∪ batchKeys rest
    else batchKeys rest.
Proof.
  unfold batchKeys, newSet. simpl.
  destruct (nonEmpty (chatItemKey it)); reflexivity.
Qed.

Lemma countLoop_fst (newer : list Item) (seen : gset string) (n : nat) :
  fst (countLoop newer seen n) = seen ∪ batchKeys newer.
Proof.
  revert seen n.
  induction newer as [ | it rest IH]; intros seen n.
  - simpl. unfold batchKeys, newSet. simpl. rewrite (right_id_L ∅ (∪)).
    reflexivity.
  - rewrite batchKeys_cons. simpl.
    destruct (nonEmpty (chatItemKey it)) eqn:Hk; simpl; [ | apply IH].
    destruct (bool_decide (chatItemKey it ∈ seen)) eqn:Hseen.
    + apply bool_decide_eq_true in Hseen. rewrite IH.
      apply set_eq. intros x.
      rewrite !elem_of_union, elem_of_singleton.
      split; [tauto | ]. intros [Hx | [-> | Hx]]; tauto.
    + rewrite IH.
      apply set_eq. intros x.
      rewrite !elem_of_union, elem_of_singleton. tauto.
Qed.

Lemma countLoop_growth (newer : list Item) (seen : gset string) (n : nat) :
  (snd (countLoop newer seen n) <= n + length newer)%nat
  /\ (snd (countLoop newer seen n) + size seen
      <= n + size (fst (countLoop newer seen n)))%nat.
Proof.
  revert seen n. induction newer as [ | it rest IH]; intros seen n; simpl.
  - lia.
  - destruct (nonEmpty (chatItemKey it)); simpl;
      [ | destruct (IH seen n); lia].
    destruct (bool_decide (chatItemKey it ∈ seen)) eqn:Hseen;
      [destruct (IH seen n); lia | ].
    apply bool_decide_eq_false in Hseen.
    assert (Hsize : size ({[chatItemKey it]} ∪ seen) = S (size seen)).
    { rewrite size_union.
      - rewrite size_singleton. reflexivity.
      - intros k Hk1 Hk2. apply elem_of_singleton in Hk1. subst k.
        contradiction. }
    destruct (isAgent it).
    + destruct (IH ({[chatItemKey it]} ∪ seen) (S n)) as [H1 H2]. lia.
    + destruct (IH ({[chatItemKey it]} ∪ seen) n) as [H1 H2]. lia.
Qed.

(** A batch of known keys leaves the loop where it started. *)
Lemma countLoop_known (newer : list Item) (seen : gset string) (n : nat) :
  (forall k, keyed newer k -> k ∈ seen) ->
  countLoop newer seen n = (seen, n).
Proof.
  revert seen n. induction newer as [ | it rest IH]; intros seen n Hall; simpl.
  - reflexivity.
  - assert (Hrest : forall k, keyed rest k -> k ∈ seen).
    { intros k [Hk Hin]. apply Hall. split; [assumption | right; assumption]. }
    destruct (nonEmpty (chatItemKey it)) eqn:Hk; simpl; [ | apply IH, Hrest].
    rewrite bool_decide_eq_true_2; [apply IH, Hrest | ].
    apply Hall. split; [assumption | left; reflexivity].
Qed.

(** X10. After a poll cycle whose calls resolved, the seen-key set is the
    snapshot taken when the cycle started together with the non-empty keys
    of the batch, and the reported count is at most the number of keys the
    set gained over the snapshot. *)
Theorem poll_seen_growth (now : Z) (ctx : PollCtx) (data : option Delta)
    (st : State) :
  let st' := pollSessionsHistory_afterDelta now ctx (Resolved data) st in
  chatLastSeenIds st' = seenBefore ctx ∪ batchKeys (itemsOf data)
  /\ seenBefore ctx ⊆ chatLastSeenIds st'
  /\ (chatLastPollAppended st' + size (seenBefore ctx)
      <= size (chatLastSeenIds st'))%nat
  /\ (chatLastPollAppended st' <= length (itemsOf data))%nat.
Proof.
  intros st'.
  destruct (pollSessionsHistory_merge_fields ctx data st)
    as (Hseen & Hcount & _).
  assert (Hs : chatLastSeenIds st'
               = fst (countLoop (itemsOf data) (seenBefore ctx) 0)).
  { subst st'. simpl. unfold pollSessionsHistory_tail.
    match goal with
    | |- chatLastSeenIds (scheduleChatPoll ?d ?s) = _ =>
        destruct (scheduleChatPoll_frame d s) as (_ & _ & _ & _ & _ & -> & _)
    end.
    destruct (pollSessionsHistory_render_frame now
                (pollSessionsHistory_merge ctx data st))
      as (_ & _ & _ & _ & _ & _ & Hr & _).
    destruct (Nat.ltb 0 _); simpl; rewrite Hr; exact Hseen. }
  assert (Hc : (chatLastPollAppended st'
                <= snd (countLoop (itemsOf data) (seenBefore ctx) 0))%nat).
  { subst st'. simpl. rewrite pollSessionsHistory_tail_chatLastPollAppended.
    rewrite pollSessionsHistory_render_chatLastPollAppended, Hcount.
    destruct (renderChatThrows _); lia. }
  rewrite Hs, countLoop_fst.
  destruct (countLoop_growth (itemsOf data) (seenBefore ctx) 0) as [Hl Hg].
  rewrite countLoop_fst in Hg.
  split; [reflexivity | ]. split; [apply union_subseteq_l | ].
  split; lia.
Qed.

Lemma scheduleChatPoll_chatLastSeenIds (delayMs : Z) (st : State) :
  chatLastSeenIds (scheduleChatPoll delayMs st) = chatLastSeenIds st.
Proof. apply (scheduleChatPoll_frame delayMs st). Qed.

Lemma pollSessionsHistory_afterDelta_seen (now : Z) (ctx : PollCtx)
    (data : option Delta) (st : State) :
  chatLastSeenIds (pollSessionsHistory_afterDelta now ctx (Resolved data) st)
  = seenBefore ctx ∪ batchKeys (itemsOf data).
Proof.
  simpl. unfold pollSessionsHistory_tail.
  rewrite scheduleChatPoll_chatLastSeenIds.
  destruct (pollSessionsHistory_merge_fields ctx data st) as (Hseen & _).
  destruct (pollSessionsHistory_render_frame now
              (pollSessionsHistory_merge ctx data st))
    as (_ & _ & _ & _ & _ & _ & Hr & _).
  destruct (Nat.ltb 0 _); simpl; rewrite Hr, Hseen; apply countLoop_fst.
Qed.

Lemma pollCycle_seen (now : Z) (data : option Delta) (st : State) :
  chatPollingActive st = true ->
  Js.truthy (chatSessionKey st) = true ->
  chatLastSeenIds (pollCycle now data st)
  = chatLastSeenIds st ∪ batchKeys (itemsOf data).
Proof.
  intros Hact Hkey. unfold pollCycle, pollSessionsHistory.
  rewrite Hact, Hkey. cbn [negb fst snd pollSessionsHistory_afterPoll].
  rewrite pollSessionsHistory_afterDelta_seen. reflexivity.
Qed.

Lemma elem_of_batchKeys (l : list Item) (k : string) :
  k ∈ batchKeys l <-> keyed l k.
Proof.
  unfold batchKeys, keyed. rewrite elem_of_newSet, filter_In. tauto.
Qed.

(** The merge brings no [null] into the window. *)
Lemma mergeNewer_In (its newer : list Item) (it : Item) :
  In it (mergeNewer its newer) ->
  In it its \/ (In it newer /\ nonEmpty (chatItemKey it) = true).
Proof.
  rewrite mergeNewer_eq. cbv zeta.
  destruct (Nat.ltb 0 (length newer)); [ | auto].
  intros Hin.
  assert (Hall : In it (its ++ addedBy newer (newSet (map chatItemKey its)))).
  { destruct (Nat.ltb 200 _); [ | exact Hin].
    unfold sliceLast in Hin.
    rewrite <- (firstn_skipn
                  (length (its ++ addedBy newer
                                    (newSet (map chatItemKey its))) - 200)).
    apply in_or_app. right. exact Hin. }
  apply in_app_or in Hall. destruct Hall as [Hl | Hr]; [left; exact Hl | ].
  apply addedBy_In in Hr as (Hr & Hk & _). right. split; assumption.
Qed.

Lemma mergeNewer_hasNull (its newer : list Item) :
  hasNull its = false -> hasNull (mergeNewer its newer) = false.
Proof.
  rewrite !hasNull_false. intros Hits Hin.
  apply mergeNewer_In in Hin. destruct Hin as [Hin | [_ Hk]].
  - exact (Hits Hin).
  - discriminate Hk.
Qed.

(** A whole cycle of an active poller with a session. *)
Lemma pollCycle_eq (now : Z) (data : option Delta) (st : State) :
  chatPollingActive st = true ->
  Js.truthy (chatSessionKey st) = true ->
  pollCycle now data st
  = pollSessionsHistory_afterDelta now
      (mkPollCtx (chatSessionKey st) (chatLastSeenIds st)) (Resolved data)
      (pollSessionsHistory_refreshed now
         (mkPollCtx (chatSessionKey st) (chatLastSeenIds st))
         (callService
            (mkCall "chat_poll" (chatSessionKey st) None None
               (Some CHAT_HISTORY_PAGE_LIMIT)) st)).
Proof.
  intros Hact Hkey. unfold pollCycle, pollSessionsHistory.
  rewrite Hact, Hkey. reflexivity.
Qed.

Lemma pollCycle_chatItems (now : Z) (data : option Delta) (st : State) :
  chatPollingActive st = true ->
  Js.truthy (chatSessionKey st) = true ->
  chatItems (pollCycle now data st) = mergeNewer (chatItems st) (itemsOf data).
Proof.
  intros Hact Hkey. rewrite pollCycle_eq by assumption.
  rewrite pollSessionsHistory_afterDelta_chatItems. reflexivity.
Qed.

Lemma pollCycle_fields (now : Z) (data : option Delta) (st : State) :
  chatPollingActive st = true ->
  Js.truthy (chatSessionKey st) = true ->
  chatPollingActive (pollCycle now data st) = true
  /\ chatSessionKey (pollCycle now data st) = chatSessionKey st.
Proof.
  intros Hact Hkey. rewrite pollCycle_eq by assumption. split.
  - simpl. unfold pollSessionsHistory_tail.
    match goal with
    | |- chatPollingActive (scheduleChatPoll ?d ?s) = _ =>
        destruct (scheduleChatPoll_frame d s) as (_ & _ & _ & _ & -> & _)
    end.
    match goal with
    | |- context [pollSessionsHistory_render now ?m] =>
        destruct (pollSessionsHistory_render_frame now m)
          as (_ & _ & _ & _ & Hr & _);
        destruct (Nat.ltb 0 _); simpl; rewrite Hr
    end;
      match goal with
      | |- context [pollSessionsHistory_merge ?c ?d ?s] =>
          destruct (pollSessionsHistory_merge_fields c d s)
            as (_ & _ & _ & _ & _ & -> & _)
      end; exact Hact.
  - rewrite pollSessionsHistory_afterDelta_chatSessionKey. reflexivity.
Qed.

(** The cycle reports what its counting loop returns on the snapshot taken
    at its start, or zero when [renderChat] throws on the merged window. *)
Lemma pollCycle_appended (now : Z) (data : option Delta) (st : State) :
  chatPollingActive st = true ->
  Js.truthy (chatSessionKey st) = true ->
  chatLastPollAppended (pollCycle now data st)
  = if hasNull (mergeNewer (chatItems st) (itemsOf data)) then 0%nat
    else snd (countLoop (itemsOf data) (chatLastSeenIds st) 0).
Proof.
  intros Hact Hkey. rewrite pollCycle_eq by assumption. simpl.
  rewrite pollSessionsHistory_tail_chatLastPollAppended.
  rewrite pollSessionsHistory_render_chatLastPollAppended.
  unfold renderChatThrows. rewrite pollSessionsHistory_merge_chatItems.
  match goal with
  | |- context [pollSessionsHistory_merge ?c ?d ?s] =>
      destruct (pollSessionsHistory_merge_fields c d s) as (_ & -> & _)
  end.
  reflexivity.
Qed.

(** C7, as the code has it. Let two poll cycles follow each other with
    nothing else in between, from a window that holds no [null], and let the
    second return a batch without key reuse. Then [chatLastPollAppended]
    after the second cycle is the number of batch items of role [agent]
    whose key is neither in the seen-key set as it was when the first cycle
    started nor a key of the first batch; in particular, when these new
    items are exactly [k] messages, all of role [agent], it is [k]. When the
    seen-key set held the keys of the window before the first cycle, none of
    the items counted is in the window already. *)
Theorem appended_count_exact (now1 now2 : Z) (data1 data2 : option Delta)
    (st0 : State) (k : nat) :
  let st1 := pollCycle now1 data1 st0 in
  let newer := itemsOf data2 in
  let fresh :=
    List.filter
      (freshIn (chatLastSeenIds st0 ∪ batchKeys (itemsOf data1))) newer in
  chatPollingActive st0 = true ->
  Js.truthy (chatSessionKey st0) = true ->
  ~ In None (chatItems st0) ->
  NoDup (List.filter nonEmpty (map chatItemKey newer)) ->
  chatLastPollAppended (pollCycle now2 data2 st1)
  = length (List.filter isAgent fresh)
  /\ (Forall (fun it => isAgent it = true) fresh ->
      length fresh = k ->
      chatLastPollAppended (pollCycle now2 data2 st1) = k)
  /\ ((forall key, keyed (chatItems st0) key -> key ∈ chatLastSeenIds st0) ->
      forall it, In it fresh -> ~ keyed (chatItems st1) (chatItemKey it)).
Proof.
  intros st1 newer fresh Hact Hkey Hnull Hnd.
  destruct (pollCycle_fields now1 data1 st0 Hact Hkey) as [Hact1 Hkey1].
  fold st1 in Hact1, Hkey1. rewrite <- Hkey1 in Hkey.
  assert (Hitems1 : chatItems st1
                    = mergeNewer (chatItems st0) (itemsOf data1)).
  { apply pollCycle_chatItems; [assumption | rewrite <- Hkey1; assumption]. }
  assert (Hseen1 : chatLastSeenIds st1
                   = chatLastSeenIds st0 ∪ batchKeys (itemsOf data1)).
  { apply pollCycle_seen; [assumption | rewrite <- Hkey1; assumption]. }
  apply hasNull_false in Hnull.
  assert (Hcount : chatLastPollAppended (pollCycle now2 data2 st1)
                   = length (List.filter isAgent fresh)).
  { rewrite pollCycle_appended by assumption.
    rewrite Hitems1.
    rewrite (mergeNewer_hasNull _ _ (mergeNewer_hasNull _ _ Hnull)).
    rewrite countLoop_snd by assumption. rewrite Hseen1. reflexivity. }
  split; [exact Hcount | ]. split.
  - intros Hagent Hlen. rewrite Hcount, <- Hlen. f_equal.
    clear Hcount Hlen. induction Hagent as [ | it l Hit _ IH]; simpl.
    + reflexivity.
    + rewrite Hit, IH. reflexivity.
  - intros Hstep it Hit [Hne Hin].
    apply filter_In in Hit as [_ Hfresh]. unfold freshIn in Hfresh.
    apply andb_true_iff in Hfresh as [_ Hout].
    apply negb_true_iff, bool_decide_eq_false in Hout. apply Hout.
    rewrite Hitems1 in Hin. apply in_map_iff in Hin as (x & Hx & Hin).
    apply mergeNewer_In in Hin. apply elem_of_union.
    destruct Hin as [Hin | [Hin _]].
    + left. apply Hstep. split; [exact Hne | ].
      rewrite <- Hx. apply in_map. exact Hin.
    + right. apply elem_of_batchKeys. split; [exact Hne | ].
      rewrite <- Hx. apply in_map. exact Hin.
Qed.

(** Scenario B, continued: the first cycle returns the boundary item only,
    the second one the boundary item and two new agent messages. *)
Lemma appended_count_exact_witness :
  chatLastPollAppended
    (pollCycle 7000 (Some (mkDelta (Some [m3; m4; m5]) false))
       (pollCycle 2000 (Some (mkDelta (Some [m3]) false)) coldStart))
  = 2%nat.
Proof.
  refine (proj1 (proj2 (appended_count_exact 2000 7000
                   (Some (mkDelta (Some [m3]) false))
                   (Some (mkDelta (Some [m3; m4; m5]) false))
                   coldStart 2 _ _ _ _)) _ _).
  - vm_compute. reflexivity.
  - vm_compute. reflexivity.
  - intros Hin. vm_compute in Hin. intuition discriminate.
  - apply (bool_decide_unpack _). vm_compute. exact I.
  - apply (bool_decide_unpack _). vm_compute. exact I.
  - vm_compute. reflexivity.
Defined.

(** C7 fails as stated: between two poll cycles that follow each other the
    user switches to [other], whose page [x1], [x2] becomes the window; the
    seen-key set keeps the keys of [main]. The second cycle returns the
    boundary message [x2] alone, which the window holds already: nothing is
    new, the window stays as it is, and the count is 1. *)
Lemma echo_counted_after_switch :
  chatItems switched = [x1; x2]
  /\ chatItems (pollCycle 7000 (Some (mkDelta (Some [x2]) false)) switched)
     = [x1; x2]
  /\ chatLastPollAppended
       (pollCycle 7000 (Some (mkDelta (Some [x2]) false)) switched)
     = 1%nat.
Proof. repeat split; vm_compute; reflexivity. Qed.

(** X11. The count is stable after a first load: when the seen-key set was
    empty before [loadChatLatest] brought the window, a poll cycle that
    returns only items whose keys are in that window reports no new message
    and leaves the seen-key set as the load made it. *)
Theorem first_poll_echo (now : Z) (data1 data2 : option Delta) (st : State) :
  let st1 := loadChatLatest_settle (Resolved data1) st in
  let st2 := pollCycle now data2 st1 in
  size (chatLastSeenIds st) = 0%nat ->
  chatPollingActive st = true ->
  Js.truthy (chatSessionKey st) = true ->
  absorbed (itemsOf data1) (itemsOf data2) ->
  chatLastSeenIds st1 = batchKeys (itemsOf data1)
  /\ chatLastPollAppended st2 = 0%nat
  /\ chatLastSeenIds st2 = chatLastSeenIds st1.
Proof.
  intros st1 st2 Hzero Hact Hkey Habs.
  assert (Hseen1 : chatLastSeenIds st1 = batchKeys (itemsOf data1)).
  { subst st1. simpl. rewrite syncChatSeenIds_seen. simpl.
    rewrite Hzero. reflexivity. }
  assert (Hact1 : chatPollingActive st1 = true).
  { subst st1. simpl. rewrite syncChatSeenIds_chatPollingActive. exact Hact. }
  assert (Hkey1 : Js.truthy (chatSessionKey st1) = true).
  { subst st1. simpl. rewrite syncChatSeenIds_chatSessionKey. exact Hkey. }
  assert (Hknown : countLoop (itemsOf data2) (chatLastSeenIds st1) 0
                   = (chatLastSeenIds st1, 0%nat)).
  { apply countLoop_known. intros k Hk. rewrite Hseen1.
    apply elem_of_batchKeys, Habs, Hk. }
  split; [exact Hseen1 | ]. split.
  - subst st2. rewrite pollCycle_appended by assumption.
    rewrite Hknown. destruct (hasNull _); reflexivity.
  - subst st2. rewrite pollCycle_seen by assumption.
    rewrite <- countLoop_fst with (n := 0%nat), Hknown. reflexivity.
Qed.

Lemma first_poll_echo_witness :
  let st1 := loadChatLatest_settle (delta [m1; m2; m3] false) coldStart0 in
  chatLastPollAppended
    (pollCycle 2000 (Some (mkDelta (Some [m2; m3]) false)) st1) = 0%nat.
Proof.
  intros st1.
  refine (proj1 (proj2 (first_poll_echo 2000
                          (Some (mkDelta (Some [m1; m2; m3]) false))
                          (Some (mkDelta (Some [m2; m3]) false))
                          coldStart0 _ _ _ _))).
  - reflexivity.
  - reflexivity.
  - reflexivity.
  - intros k [Hk Hin]. split; [exact Hk | ].
    simpl in *. tauto.
Defined.

(** X12. The poll loop is the only writer of a seen-key set that is not
    empty: of all the events that run against the chat state, only the
    continuation of a poll whose delta call resolved changes it, to the
    snapshot of that poll with the keys of its batch; loads, pagination,
    session switches, sends, timers, start and stop leave it as it is. *)
Theorem seen_written_by_poll_only (e : Event) (st : State) :
  (0 < size (chatLastSeenIds st))%nat ->
  match e with
  | EvPollSettle2 _ ctx (Resolved data) =>
      chatLastSeenIds (step e st)
      = seenBefore ctx ∪ batchKeys (itemsOf data)
  | _ => chatLastSeenIds (step e st) = chatLastSeenIds st
  end.
Proof.
  intros Hpos. apply Nat.ltb_lt in Hpos.
  destruct e as [dbg history older key | | r | | | h now | now ctx r
                 | now ctx r | | r | value | | | now];
    try (destruct r as [data | message]);
    try apply pollSessionsHistory_afterDelta_seen;
    simpl;
    unfold loadChatFromConfig, loadChatLatest_settle, startChatPolling,
      stopChatPolling, fire, pollSessionsHistory, pollSessionsHistory_tail,
      loadOlderChat, loadOlderChat_settle, onchange_end, refreshTokenUsage,
      send_end;
    repeat (rewrite ?syncChatSeenIds_seen, ?scheduleChatPoll_chatLastSeenIds;
            simpl; rewrite ?Hpos;
            try match goal with
                | |- context [if ?b then _ else _] =>
                    lazymatch b with
                    | context [size] => fail
                    | _ => destruct b; simpl
                    end
                | |- context [match chatPollTimer ?s with _ => _ end] =>
                    destruct (chatPollTimer s); simpl
                end);
    reflexivity.
Qed.

Lemma seen_written_by_poll_only_witness :
  chatLastSeenIds (step (EvLoadOlderSettle (delta [m0] false)) coldStart)
  = chatLastSeenIds coldStart.
Proof.
  apply (seen_written_by_poll_only (EvLoadOlderSettle (delta [m0] false))
           coldStart).
  vm_compute. lia.
Defined.

(** ** The forward cursor *)

Lemma maxChatTsOf_attained_from (l : list Item) (acc : string) :
  let f := fun max it =>
             let ts := itemTs it in
             if nonEmpty ts && Js.gt ts max then ts else max in
  fold_left f l acc = acc
  \/ exists it, In it l /\ itemTs it = fold_left f l acc.
Proof.
  intros f. revert acc. induction l as [ | x l IH]; intros acc; simpl.
  - left. reflexivity.
  - destruct (IH (f acc x)) as [Heq | (it & Hin & Hit)].
    + rewrite Heq. unfold f.
      destruct (nonEmpty (itemTs x) && Js.gt (itemTs x) acc);
        [right; exists x; auto | left; reflexivity].
    + right. exists it. auto.
Qed.

Lemma maxChatTsOf_attained (l : list Item) :
  maxChatTsOf l = ""
  \/ exists it, In it l /\ itemTs it = maxChatTsOf l.
Proof. apply (maxChatTsOf_attained_from l ""). Qed.

Lemma maxChatTsOf_app (l1 l2 : list Item) :
  String.leb (maxChatTsOf l1) (maxChatTsOf (l1 ++ l2)) = true.
Proof.
  unfold maxChatTsOf. rewrite fold_left_app.
  apply (maxChatTsOf_from l2).
Qed.

(** X13. The forward cursor is the greatest timestamp of the window: no
    item of the window has a later one, and the cursor is the timestamp of
    some item of the window unless it is empty; it is empty exactly when no
    item carries a timestamp. The delta call of a poll goes out with the
    cursor as its [after_ts], and without one exactly when the cursor is
    empty. *)
Theorem cursor_is_max (st : State) :
  (forall it, In it (chatItems st) ->
     String.leb (itemTs it) (maxChatTs st) = true)
  /\ (maxChatTs st = ""
      \/ exists it, In it (chatItems st) /\ itemTs it = maxChatTs st)
  /\ (maxChatTs st = ""
      <-> forall it, In it (chatItems st) -> itemTs it = "")
  /\ (forall now ctx, exists c,
        calls (pollSessionsHistory_refreshed now ctx st)
        = (calls st ++ [c])%list
        /\ service c = "chat_history_delta"
        /\ (after_ts c = None <-> maxChatTs st = "")
        /\ (maxChatTs st <> "" -> after_ts c = Some (maxChatTs st))).
Proof.
  unfold maxChatTs.
  pose proof (maxChatTsOf_attained (chatItems st)) as Hatt.
  split; [intros it; apply maxChatTsOf_upper | ].
  split; [exact Hatt | ]. split.
  - split.
    + intros Hempty it Hin.
      apply String.leb_antisym; [ | apply TsOrder.leb_empty].
      rewrite <- Hempty. apply maxChatTsOf_upper. assumption.
    + intros Hall. destruct Hatt as [Hempty | (it & Hin & Hit)];
        [assumption | ].
      rewrite <- Hit. apply Hall. assumption.
  - intros now ctx.
    exists (mkCall "chat_history_delta" (currentSession ctx)
              (Js.or (Some (maxChatTsOf (chatItems st))) None) None
              (Some CHAT_DELTA_LIMIT)).
    split; [apply pollSessionsHistory_refreshed_calls | ].
    split; [reflexivity | ]. cbn [after_ts]. unfold Js.or, Js.truthy.
    destruct (String.eqb_spec (maxChatTsOf (chatItems st)) ""); simpl.
    + split; [tauto | contradiction].
    + split; [split; [discriminate | contradiction] | reflexivity].
Qed.

Lemma cursor_is_max_witness :
  maxChatTs coldStart = "30" /\ String.leb (itemTs m2) "30" = true.
Proof.
  split; [reflexivity | ].
  apply (proj1 (cursor_is_max coldStart) m2).
  right. left. reflexivity.
Defined.

(** Window and pushed items in order, as in [mergeNewer_ordered]. *)
Lemma merged_sorted (its newer : list Item) :
  ordered its -> deltaContract (maxChatTsOf its) newer ->
  StronglySorted tsLe (its ++ addedBy newer (newSet (map chatItemKey its))).
Proof.
  rewrite ordered_strongly. intros Hits [Hnewer Hbound].
  apply ordered_strongly in Hnewer.
  apply StronglySorted_app. split; [ | split].
  - intros a b Ha Hb. rewrite list_elem_of_In in Ha, Hb.
    apply addedBy_In in Hb as (Hb & _).
    unfold tsLe. apply TsOrder.leb_trans with (maxChatTsOf its).
    + apply maxChatTsOf_upper. assumption.
    + revert b Hb. apply List.Forall_forall. assumption.
  - assumption.
  - apply addedBy_sorted. assumption.
Qed.

(** Dropping a front piece of an ordered list, not all of it, keeps the
    greatest timestamp. *)
Lemma maxChatTsOf_skipn (n : nat) (l : list Item) :
  StronglySorted tsLe l -> (n < length l)%nat ->
  String.leb (maxChatTsOf l) (maxChatTsOf (skipn n l)) = true.
Proof.
  intros Hs Hn.
  destruct (maxChatTsOf_attained l) as [Hempty | (x & Hx & Hts)].
  - rewrite Hempty. apply TsOrder.leb_empty.
  - rewrite <- Hts. rewrite <- (firstn_skipn n l) in Hx, Hs.
    apply in_app_iff in Hx as [Hx | Hx].
    + destruct (skipn n l) as [ | y rest] eqn:Hskip.
      * apply (f_equal (@length Item)) in Hskip.
        rewrite length_skipn in Hskip. simpl in Hskip. lia.
      * apply TsOrder.leb_trans with (itemTs y).
        -- eapply (StronglySorted_app_1_elem_of tsLe _ _ x y Hs);
             rewrite list_elem_of_In; [assumption | left; reflexivity].
        -- apply maxChatTsOf_upper. left. reflexivity.
    + apply maxChatTsOf_upper. assumption.
Qed.

(** X14. Under the contract of the delta query the forward cursor never
    moves backwards: after merging an ascending batch of items at or above
    the boundary into an ordered window, trimmed or not, the cursor is at
    least what it was. *)
Theorem cursor_monotone (its newer : list Item) :
  ordered its -> deltaContract (maxChatTsOf its) newer ->
  String.leb (maxChatTsOf its) (maxChatTsOf (mergeNewer its newer)) = true.
Proof.
  intros Hits Hc. pose proof (merged_sorted its newer Hits Hc) as Hs.
  rewrite mergeNewer_eq. cbv zeta.
  destruct (Nat.ltb 0 (length newer)); [ | apply TsOrder.leb_refl].
  destruct (Nat.ltb_spec 200
              (length (its ++ addedBy newer (newSet (map chatItemKey its)))))
    as [Hlt | _]; [ | apply maxChatTsOf_app].
  eapply TsOrder.leb_trans; [apply maxChatTsOf_app | ].
  unfold sliceLast. apply maxChatTsOf_skipn; [exact Hs | lia].
Qed.

Lemma cursor_monotone_witness :
  String.leb (maxChatTsOf [m1; m2; m3])
    (maxChatTsOf (mergeNewer [m1; m2; m3] [m3; m4])) = true.
Proof.
  apply cursor_monotone.
  - repeat constructor.
  - split; repeat constructor.
Defined.

(** ** Pagination beyond the claims *)

Lemma elem_of_existingIds (l : list Item) (s : string) :
  s ∈ existingIds l
  <-> exists w, In w l /\ Js.truthy (itemId w) = true
                /\ Js.strOr (itemId w) = s.
Proof.
  unfold existingIds. rewrite elem_of_newSet, in_map_iff. split.
  - intros (v & Hs & Hv). apply filter_In in Hv as [Hv Ht].
    apply in_map_iff in Hv as (w & <- & Hw). exists w. auto.
  - intros (w & Hw & Ht & Hs). exists (itemId w). split; [assumption | ].
    apply filter_In. split; [apply in_map; assumption | assumption].
Qed.

Lemma prependOf_In (existing : gset string) (fetched : list Item) (it : Item) :
  In it (prependOf existing fetched)
  <-> In it fetched /\ Js.truthy (itemId it) = true
      /\ Js.strOr (itemId it) ∉ existing.
Proof.
  unfold prependOf. rewrite filter_In.
  destruct (Js.truthy (itemId it)); simpl.
  - destruct (bool_decide (Js.strOr (itemId it) ∈ existing)) eqn:Hmem.
    + apply bool_decide_eq_true in Hmem. simpl. split.
      * intros [_ Hf]. discriminate.
      * intros (_ & _ & Hnot). contradiction.
    + apply bool_decide_eq_false in Hmem. simpl. tauto.
  - split; [intros [_ Hf]; discriminate | intros (_ & Hf & _); discriminate].
Qed.

Lemma beforeIdOf_head (it : Item) (l : list Item) :
  Js.truthy (itemId it) = true -> beforeIdOf (it :: l) = itemId it.
Proof.
  destruct it as [m | ]; simpl; [ | discriminate].
  intros ->. reflexivity.
Qed.

(** With the flag clear, an anchor in the window and no [null] in it,
    [loadOlderChat] issues its call. *)
Lemma loadOlderChat_issues (st : State) :
  chatLoadingOlder st = false ->
  Js.truthy (beforeIdOf (chatItems st)) = true ->
  ~ In None (chatItems st) ->
  loadOlderChat st
  = callService
      (mkCall "chat_history_delta" (chatSessionKey st) None
         (beforeIdOf (chatItems st)) (Some CHAT_HISTORY_PAGE_LIMIT))
      (set_chatLoadingOlder true st).
Proof.
  intros Hflag Hanchor Hnull. apply renderChatThrows_false in Hnull.
  unfold loadOlderChat. rewrite Hflag, Hanchor. cbn [negb].
  change (renderChatThrows (set_chatLoadingOlder true st))
    with (renderChatThrows st).
  rewrite Hnull. reflexivity.
Qed.

(** X15. Pagination walks backwards. When [loadOlderChat] has issued its
    call (the flag was clear, the window had an anchor and held no [null])
    and the call resolves, the window is the new items followed by the old
    window, and each new item has an id that no item of the old window had;
    [chatHasOlder] is the flag of the response. If at least one item was
    new, the next [loadOlderChat] sends the id of the first new item as its
    anchor; if none was, the window is as before and the next call repeats
    the anchor. *)
Theorem page_progress (data : option Delta) (st : State) :
  chatLoadingOlder st = false ->
  Js.truthy (beforeIdOf (chatItems st)) = true ->
  ~ In None (chatItems st) ->
  let st1 := loadOlderChat_settle (Resolved data) (loadOlderChat st) in
  let new := prependOf (existingIds (chatItems st)) (itemsOf data) in
  let call anchor :=
    mkCall "chat_history_delta" (chatSessionKey st) None anchor
      (Some CHAT_HISTORY_PAGE_LIMIT) in
  chatItems st1 = (new ++ chatItems st)%list
  /\ Forall (fun it => In it (itemsOf data)
                       /\ Js.truthy (itemId it) = true
                       /\ forall w, In w (chatItems st) ->
                                    itemId w <> itemId it) new
  /\ chatHasOlder st1 = hasOlderOf data
  /\ calls (loadOlderChat st1)
     = (calls st
        ++ [call (beforeIdOf (chatItems st));
            call (match new with
                  | first :: _ => itemId first
                  | [] => beforeIdOf (chatItems st)
                  end)])%list.
Proof.
  intros Hflag Hanchor Hnull st1 new call.
  pose proof (loadOlderChat_issues st Hflag Hanchor Hnull) as Hissue.
  assert (Hitems : chatItems st1 = (new ++ chatItems st)%list).
  { subst st1. rewrite loadOlderChat_settle_chatItems, loadOlderChat_chatItems.
    simpl. unfold prependOlder. fold new.
    destruct new; reflexivity. }
  split; [exact Hitems | ]. split; [ | split].
  - apply List.Forall_forall. intros it Hin.
    apply prependOf_In in Hin as (Hin & Ht & Hnot).
    repeat split; try assumption.
    intros w Hw Heq. apply Hnot. apply elem_of_existingIds.
    exists w. rewrite Heq. auto.
  - subst st1. rewrite Hissue. simpl.
    rewrite syncChatSeenIds_chatHasOlder. reflexivity.
  - assert (Hnext : beforeIdOf (chatItems st1)
                    = match new with
                      | first :: _ => itemId first
                      | [] => beforeIdOf (chatItems st)
                      end).
    { rewrite Hitems. destruct new as [ | first rest] eqn:Hnew;
        [reflexivity | ].
      apply beforeIdOf_head.
      assert (Hin : In first new) by (rewrite Hnew; left; reflexivity).
      apply prependOf_In in Hin as (_ & Ht & _). exact Ht. }
    assert (Htruthy : Js.truthy (beforeIdOf (chatItems st1)) = true).
    { rewrite Hnext. destruct new as [ | first rest] eqn:Hnew;
        [exact Hanchor | ].
      assert (Hin : In first new) by (rewrite Hnew; left; reflexivity).
      apply prependOf_In in Hin as (_ & Ht & _). exact Ht. }
    assert (Hkey : chatSessionKey st1 = chatSessionKey st).
    { subst st1. rewrite loadOlderChat_settle_chatSessionKey, Hissue.
      reflexivity. }
    assert (Hcalls : calls st1
                     = (calls st ++ [call (beforeIdOf (chatItems st))])%list).
    { subst st1. rewrite Hissue. simpl.
      rewrite syncChatSeenIds_calls. simpl.
      destruct (Nat.ltb _ _); reflexivity. }
    assert (Hflag1 : chatLoadingOlder st1 = false) by reflexivity.
    assert (Hnull1 : ~ In None (chatItems st1)).
    { rewrite Hitems. intros Hin. apply in_app_or in Hin as [Hin | Hin].
      - apply prependOf_In in Hin as (_ & Ht & _). discriminate Ht.
      - exact (Hnull Hin). }
    clearbody st1.
    rewrite (loadOlderChat_issues st1 Hflag1 Htruthy Hnull1). simpl.
    rewrite Hcalls, Hkey, Hnext, <- app_assoc. reflexivity.
Qed.

Lemma page_progress_witness :
  let st := set_chatItems [m2; m3] initialState in
  calls (loadOlderChat
           (loadOlderChat_settle (delta [m0; m1; m2] true) (loadOlderChat st)))
  = [mkCall "chat_history_delta" None None (Some "m2") (Some 50%Z);
     mkCall "chat_history_delta" None None (Some "m0") (Some 50%Z)].
Proof.
  intros st.
  assert (Hnull : ~ In None (chatItems st)).
  { intros [H | [H | []]]; discriminate H. }
  exact (proj2 (proj2 (proj2 (page_progress
                                (Some (mkDelta (Some [m0; m1; m2]) true))
                                st eq_refl eq_refl Hnull)))).
Defined.

(** X23. When [loadOlderChat] is called with the flag clear and an anchor
    in the window, but the window holds a [null], [renderChat] throws once
    the flag is set: no call is made and the window stays as it is. The flag
    is cleared only by the continuation of a pagination call, so with none
    in flight it stays set, whatever else happens, and every later
    [loadOlderChat] returns at once. *)
Theorem loadOlderChat_stuck (st : State) (es : list Event) :
  chatLoadingOlder st = false ->
  Js.truthy (beforeIdOf (chatItems st)) = true ->
  In None (chatItems st) ->
  Forall (fun e => forall r, e <> EvLoadOlderSettle r) es ->
  let st1 := loadOlderChat st in
  calls st1 = calls st
  /\ chatItems st1 = chatItems st
  /\ chatLoadingOlder st1 = true
  /\ chatLoadingOlder (run es st1) = true
  /\ loadOlderChat (run es st1) = run es st1.
Proof.
  intros Hflag Hanchor Hnull Hes st1.
  assert (Hthrow : renderChatThrows st = true).
  { destruct (renderChatThrows st) eqn:Hr; [reflexivity | ].
    apply renderChatThrows_false in Hr. contradiction. }
  assert (Hst1 : st1 = set_chatLoadingOlder true st).
  { subst st1. unfold loadOlderChat. rewrite Hflag, Hanchor. cbn [negb].
    change (renderChatThrows (set_chatLoadingOlder true st))
      with (renderChatThrows st).
    rewrite Hthrow. reflexivity. }
  assert (Hkeep : forall s, chatLoadingOlder s = true ->
                  chatLoadingOlder (run es s) = true).
  { clear - Hes. induction Hes as [ | e es He _ IH]; intros s Hs; simpl.
    - exact Hs.
    - apply IH. pose proof (step_chatLoadingOlder e s) as Hframe.
      destruct e; try (rewrite Hframe; exact Hs).
      + simpl. unfold loadOlderChat. rewrite Hs. exact Hs.
      + exfalso. exact (He r eq_refl). }
  assert (Hrun : chatLoadingOlder (run es st1) = true).
  { apply Hkeep. rewrite Hst1. reflexivity. }
  rewrite Hst1 in *. repeat split; try reflexivity; [exact Hrun | ].
  unfold loadOlderChat. rewrite Hrun. reflexivity.
Qed.

Lemma loadOlderChat_stuck_witness :
  let st := set_chatItems [None; m1] initialState in
  calls (loadOlderChat st) = []
  /\ chatLoadingOlder (run [EvLoadOlder; EvStart] (loadOlderChat st)) = true.
Proof.
  intros st.
  destruct (loadOlderChat_stuck st [EvLoadOlder; EvStart])
    as (Hcalls & _ & _ & Hflag & _).
  - reflexivity.
  - reflexivity.
  - left. reflexivity.
  - repeat constructor; intros r E; discriminate E.
  - split; [exact Hcalls | exact Hflag].
Defined.

(** ** Entity suggestions *)

Lemma lowerChar_idem (c : ascii) : lowerChar (lowerChar c) = lowerChar c.
Proof.
  destruct c as [[] [] [] [] [] [] [] []]; vm_compute; reflexivity.
Qed.

Lemma toLowerCase_idem (s : string) :
  toLowerCase (toLowerCase s) = toLowerCase s.
Proof.
  induction s as [|c s IH]; simpl; [reflexivity|].
  rewrite lowerChar_idem, IH. reflexivity.
Qed.

Lemma prefix_lower (kw s : string) :
  String.prefix kw (toLowerCase s) = true -> toLowerCase kw = kw.
Proof.
  revert s. induction kw as [|a kw IH]; intros s H; [reflexivity|].
  destruct s as [|b s]; simpl in H; [discriminate H|].
  destruct (ascii_dec a (lowerChar b)) as [->|]; [|discriminate H].
  simpl. rewrite lowerChar_idem, (IH s H). reflexivity.
Qed.

Lemma includes_lower (kw s : string) :
  includes kw (toLowerCase s) = true -> toLowerCase kw = kw.
Proof.
  induction s as [|c s IH]; simpl; intros H.
  - apply (prefix_lower kw ""). exact H.
  - apply orb_true_iff in H. destruct H as [H|H]; [|exact (IH H)].
    apply (prefix_lower kw (String c s)). exact H.
Qed.

Lemma fold_add_range (k : Z) (P : string -> bool) (l : list string) (s : Z) :
  (0 <= k)%Z ->
  (s <= fold_left (fun s kw => if P kw then s + k else s) l s
     <= s + k * Z.of_nat (length l))%Z.
Proof.
  intros Hk. revert s. induction l as [|x l IH]; intros s; simpl length.
  - simpl. lia.
  - cbn [fold_left]. destruct (P x).
    + specialize (IH (s + k)%Z). nia.
    + specialize (IH s). nia.
Qed.

Lemma fold_add_none (k : Z) (P : string -> bool) (l : list string) (s : Z) :
  (forall kw, In kw l -> P kw = false) ->
  fold_left (fun s kw => if P kw then (s + k)%Z else s) l s = s.
Proof.
  revert s. induction l as [|x l IH]; intros s H; [reflexivity|].
  cbn [fold_left]. rewrite (H x (or_introl eq_refl)).
  apply IH. intros kw Hkw. apply H. right. exact Hkw.
Qed.

(** The bounds of the two loops of [scoreEntity], as hypotheses. *)
Ltac score_folds meta rules :=
  let P := constr:(fun kw : string =>
    includes kw (toLowerCase (entity_id meta))
    || includes kw (toLowerCase (name meta))) in
  let s1 := constr:(fold_left (fun s kw => if P kw then (s + 3)%Z else s)
                      (keywords rules) 0%Z) in
  let H1 := fresh "H1" in
  let H2 := fresh "H2" in
  pose proof (fold_add_range 3 P (keywords rules) 0 ltac:(lia)) as H1;
  pose proof (fold_add_range 1 P (weak rules) s1 ltac:(lia)) as H2;
  cbv beta in H1, H2.

Lemma scoreEntity_ge (meta : Meta) (rules : Rules) :
  (-2 <= scoreEntity meta rules)%Z.
Proof.
  unfold scoreEntity. cbv zeta.
  score_folds meta rules.
  destruct (existsb _ _); destruct (_ || _); lia.
Qed.

(** X16. The score of an entity lies between -2 and three per keyword plus
    one per weak keyword plus two; it does not depend on the case of the
    entity's id, name and unit; and a keyword or weak keyword that is not
    in lower case never contributes, so rules written in upper case score
    at most the two points of the unit. *)
Theorem scoreEntity_range (meta : Meta) (rules : Rules) :
  (-2 <= scoreEntity meta rules
      <= 3 * Z.of_nat (length (keywords rules))
         + Z.of_nat (length (weak rules)) + 2)%Z
  /\ scoreEntity
       (mkMeta (toLowerCase (entity_id meta)) (toLowerCase (name meta))
          (toLowerCase (unit meta)) (state meta) (score meta)) rules
     = scoreEntity meta rules
  /\ ((forall kw, In kw (keywords rules ++ weak rules)%list ->
         toLowerCase kw <> kw) ->
      (scoreEntity meta rules <= 2)%Z).
Proof.
  split; [|split].
  - split; [apply scoreEntity_ge|].
    unfold scoreEntity. cbv zeta.
    score_folds meta rules.
    destruct (existsb _ _); destruct (_ || _); lia.
  - unfold scoreEntity. cbn [entity_id name unit].
    rewrite !toLowerCase_idem. reflexivity.
  - intros Hup. unfold scoreEntity. cbv zeta.
    set (P := fun kw : string =>
      includes kw (toLowerCase (entity_id meta))
      || includes kw (toLowerCase (name meta))).
    assert (HP : forall kw, In kw (keywords rules ++ weak rules)%list ->
                 P kw = false).
    { intros kw Hkw. unfold P. apply orb_false_iff.
      split; apply not_true_is_false; intros Hin;
        exact (Hup kw Hkw (includes_lower _ _ Hin)). }
    assert (E1 := fold_add_none 3 P (keywords rules) 0
                    (fun kw Hkw => HP kw (in_or_app _ _ kw (or_introl Hkw)))).
    assert (E2 := fold_add_none 1 P (weak rules) 0
                    (fun kw Hkw => HP kw (in_or_app _ _ kw (or_intror Hkw)))).
    unfold P in E1, E2. rewrite E1, E2.
    destruct (existsb _ _); destruct (_ || _); lia.
Qed.

Lemma scoreEntity_range_witness :
  (forall kw, In kw (["SOC"] ++ ["Battery"])%list -> toLowerCase kw <> kw)
  /\ (scoreEntity (mkMeta "sensor.battery_soc" "Battery SOC" "%" None None)
        (mkRules "x" ["SOC"] ["%"] ["Battery"]) <= 2)%Z.
Proof.
  assert (H : forall kw, In kw (["SOC"] ++ ["Battery"])%list ->
              toLowerCase kw <> kw).
  { intros kw [<-|[<-|[]]]; vm_compute; intros E; discriminate E. }
  split; [exact H|].
  exact (proj2 (proj2 (scoreEntity_range
    (mkMeta "sensor.battery_soc" "Battery SOC" "%" None None)
    (mkRules "x" ["SOC"] ["%"] ["Battery"]))) H).
Defined.

(** What the loop of [bestCandidate] holds after the entries [l]: nothing
    before the first entry, then the first entry of greatest score. *)
Lemma bestLoop_spec (rules : Rules) (l : list (string * option Entity.t)) :
  (l = [] /\ bestLoop rules l = (None, (-999)%Z))
  \/ exists pre e post,
       l = (pre ++ e :: post)%list
       /\ bestLoop rules l
          = (Some (withScore (scoreEntity (metaOf e) rules) (metaOf e)),
             scoreEntity (metaOf e) rules)
       /\ (forall e', In e' pre ->
             (scoreEntity (metaOf e') rules < scoreEntity (metaOf e) rules)%Z)
       /\ (forall e', In e' post ->
             (scoreEntity (metaOf e') rules <= scoreEntity (metaOf e) rules)%Z).
Proof.
  induction l as [|x l IH] using rev_ind.
  - left. split; reflexivity.
  - right. unfold bestLoop in *. rewrite fold_left_app. cbn [fold_left].
    destruct IH as [[-> E]|(pre & e & post & -> & E & Hpre & Hpost)].
    + exists [], x, []. simpl.
      pose proof (scoreEntity_ge (metaOf x) rules) as Hge.
      destruct (Z.ltb_spec (-999) (scoreEntity (metaOf x) rules)); [|lia].
      repeat split; try reflexivity; intros e' [].
    + rewrite E. cbn [snd].
      destruct (Z.ltb_spec (scoreEntity (metaOf e) rules)
                  (scoreEntity (metaOf x) rules)) as [Hlt|Hge].
      * exists (pre ++ e :: post)%list, x, [].
        repeat split; try reflexivity.
        -- intros e' He'. apply in_app_or in He'.
           destruct He' as [He'|[<-|He']].
           ++ specialize (Hpre e' He'). lia.
           ++ exact Hlt.
           ++ specialize (Hpost e' He'). lia.
        -- intros e' [].
      * exists pre, e, (post ++ [x])%list.
        repeat split.
        -- rewrite <- app_assoc. reflexivity.
        -- exact Hpre.
        -- intros e' He'. apply in_app_or in He'.
           destruct He' as [He'|[<-|[]]]; [exact (Hpost e' He')|exact Hge].
Qed.

Lemma bestCandidateWith_spec (rules : Rules)
    (states : list (string * option Entity.t)) :
  match bestCandidateWith rules states with
  | None => forall e, In e states -> (scoreEntity (metaOf e) rules <= 0)%Z
  | Some b =>
      exists pre e post,
        states = (pre ++ e :: post)%list
        /\ b = withScore (scoreEntity (metaOf e) rules) (metaOf e)
        /\ (0 < scoreEntity (metaOf e) rules)%Z
        /\ (forall e', In e' pre ->
              (scoreEntity (metaOf e') rules < scoreEntity (metaOf e) rules)%Z)
        /\ (forall e', In e' post ->
              (scoreEntity (metaOf e') rules <= scoreEntity (metaOf e) rules)%Z)
  end.
Proof.
  unfold bestCandidateWith.
  destruct (bestLoop_spec rules states)
    as [[-> E]|(pre & e & post & -> & E & Hpre & Hpost)]; rewrite E.
  - intros e [].
  - destruct (Z.leb_spec (scoreEntity (metaOf e) rules) 0) as [Hle|Hgt].
    + intros e' He'. apply in_app_or in He'.
      destruct He' as [He'|[<-|He']].
      * specialize (Hpre e' He'). lia.
      * exact Hle.
      * specialize (Hpost e' He'). lia.
    + exists pre, e, post. repeat split; assumption.
Qed.

(** X17. [bestCandidate] returns [null] exactly when no entity scores
    above zero for the field's rules (so also when there are no states);
    otherwise it returns the first entity, in the order of the states, whose
    score is the greatest, with that score stored in it: every earlier entity
    scores strictly less, every later one at most as much. *)
Theorem bestCandidate_first_max (field : Field)
    (states : list (string * option Entity.t)) :
  match bestCandidate field states with
  | None =>
      forall e, In e states ->
        (scoreEntity (metaOf e) (pickerRules field) <= 0)%Z
  | Some b =>
      exists pre e post,
        states = (pre ++ e :: post)%list
        /\ entity_id b = fst e
        /\ score b = Some (scoreEntity (metaOf e) (pickerRules field))
        /\ b = withScore (scoreEntity (metaOf e) (pickerRules field)) (metaOf e)
        /\ (0 < scoreEntity (metaOf e) (pickerRules field))%Z
        /\ (forall e', In e' pre ->
              (scoreEntity (metaOf e') (pickerRules field)
               < scoreEntity (metaOf e) (pickerRules field))%Z)
        /\ (forall e', In e' post ->
              (scoreEntity (metaOf e') (pickerRules field)
               <= scoreEntity (metaOf e) (pickerRules field))%Z)
  end.
Proof.
  unfold bestCandidate.
  pose proof (bestCandidateWith_spec (pickerRules field) states) as H.
  destruct (bestCandidateWith (pickerRules field) states) as [b|]; [|exact H].
  destruct H as (pre & e & post & Hs & Hb & Hpos & Hpre & Hpost).
  exists pre, e, post. repeat split; try assumption.
  - rewrite Hb. unfold withScore, metaOf. simpl.
    destruct (snd e); reflexivity.
  - rewrite Hb. reflexivity.
Qed.

Lemma insertByScore_In (x y : Z * Meta) (l : list (Z * Meta)) :
  In y (insertByScore x l) <-> y = x \/ In y l.
Proof.
  induction l as [|z l IH]; simpl.
  - intuition.
  - destruct (Z.ltb (fst x) (fst z)); simpl; rewrite ?IH; intuition.
Qed.

Lemma sortByScore_In (y : Z * Meta) (l : list (Z * Meta)) :
  In y (sortByScore l) <-> In y l.
Proof.
  induction l as [|x l IH]; simpl; [tauto|].
  rewrite insertByScore_In, IH. intuition.
Qed.

Lemma insertByScore_length (x : Z * Meta) (l : list (Z * Meta)) :
  length (insertByScore x l) = S (length l).
Proof.
  induction l as [|z l IH]; simpl; [reflexivity|].
  destruct (Z.ltb (fst x) (fst z)); simpl; rewrite ?IH; reflexivity.
Qed.

Lemma sortByScore_length (l : list (Z * Meta)) :
  length (sortByScore l) = length l.
Proof.
  induction l as [|x l IH]; simpl; [reflexivity|].
  rewrite insertByScore_length, IH. reflexivity.
Qed.

Lemma insertByScore_sorted (x : Z * Meta) (l : list (Z * Meta)) :
  StronglySorted (fun a b => (fst b <= fst a)%Z) l ->
  StronglySorted (fun a b => (fst b <= fst a)%Z) (insertByScore x l).
Proof.
  induction l as [|z l IH]; intros Hs; simpl.
  - constructor; constructor.
  - inversion Hs as [|? ? Hs' Hall]; subst.
    destruct (Z.ltb_spec (fst x) (fst z)) as [Hlt|Hge].
    + constructor; [exact (IH Hs')|].
      apply List.Forall_forall. intros y Hy.
      apply (proj1 (insertByScore_In _ _ _)) in Hy.
      destruct Hy as [->|Hy]; [lia|].
      exact (proj1 (List.Forall_forall _ _) Hall y Hy).
    + constructor; [exact Hs|].
      constructor; [exact Hge|].
      apply List.Forall_forall. intros y Hy.
      pose proof (proj1 (List.Forall_forall _ _) Hall y Hy) as H. simpl in H.
      lia.
Qed.

Lemma sortByScore_sorted (l : list (Z * Meta)) :
  StronglySorted (fun a b => (fst b <= fst a)%Z) (sortByScore l).
Proof.
  induction l as [|x l IH]; simpl; [constructor|].
  apply insertByScore_sorted. exact IH.
Qed.

(** The sort is stable, so the first item of greatest score comes first. *)
Lemma sortByScore_head (l1 l2 : list (Z * Meta)) (x : Z * Meta) :
  (forall a, In a l1 -> (fst a < fst x)%Z) ->
  (forall a, In a l2 -> (fst a <= fst x)%Z) ->
  exists t, sortByScore (l1 ++ x :: l2)%list = x :: t.
Proof.
  intros H1 H2. induction l1 as [|a l1 IH]; simpl.
  - destruct (sortByScore l2) as [|z t] eqn:E; simpl.
    + exists []. reflexivity.
    + assert (Hz : In z l2).
      { apply (proj1 (sortByScore_In z l2)). rewrite E. left. reflexivity. }
      specialize (H2 z Hz).
      destruct (Z.ltb_spec (fst x) (fst z)); [lia|].
      exists (z :: t). reflexivity.
  - destruct IH as [t Ht].
    { intros b Hb. apply H1. right. exact Hb. }
    rewrite Ht. simpl.
    specialize (H1 a (or_introl eq_refl)).
    destruct (Z.ltb_spec (fst a) (fst x)); [|lia].
    exists (insertByScore a t). reflexivity.
Qed.

Lemma filter_map_comm {A B : Type} (f : A -> B) (p : B -> bool) (l : list A) :
  List.filter p (map f l) = map f (List.filter (fun a => p (f a)) l).
Proof.
  induction l as [|a l IH]; simpl; [reflexivity|].
  destruct (p (f a)); simpl; rewrite IH; reflexivity.
Qed.

Lemma filter_none {A : Type} (p : A -> bool) (l : list A) :
  (forall a, In a l -> p a = false) -> List.filter p l = [].
Proof.
  induction l as [|a l IH]; intros H; simpl; [reflexivity|].
  rewrite (H a (or_introl eq_refl)). apply IH.
  intros b Hb. apply H. right. exact Hb.
Qed.

(** X18. [topCandidates] throws exactly when a state object is [null].
    Otherwise its result has [limit || 3] items, or as many as score above
    zero if these are fewer; each is an entity of the states with its
    positive score stored; the scores descend; an entity of positive score
    that is left out scores no more than any item returned; and the first
    item is the entity [bestCandidate] selects for the same rules. *)
Theorem topCandidates_spec (states : list (string * option Entity.t))
    (rules : Rules) (limit : nat) :
  match topCandidates states rules limit with
  | None => exists id, In (id, None) states
  | Some out =>
      (forall e, In e states -> snd e <> None)
      /\ length out
         = Nat.min (if Nat.eqb limit 0 then 3 else limit)
             (length (List.filter
                (fun e => Z.ltb 0 (scoreEntity (metaOf e) rules)) states))
      /\ StronglySorted
           (fun a b => exists x y,
              score a = Some x /\ score b = Some y /\ (y <= x)%Z) out
      /\ (forall m, In m out ->
            exists e, In e states
              /\ m = withScore (scoreEntity (metaOf e) rules) (metaOf e)
              /\ (0 < scoreEntity (metaOf e) rules)%Z)
      /\ (forall e, In e states ->
            (0 < scoreEntity (metaOf e) rules)%Z ->
            In (withScore (scoreEntity (metaOf e) rules) (metaOf e)) out
            \/ forall m, In m out ->
                 exists x, score m = Some x
                   /\ (scoreEntity (metaOf e) rules <= x)%Z)
      /\ head out = bestCandidateWith rules states
  end.
Proof.
  unfold topCandidates.
  destruct (forallb _ states) eqn:Hall.
  2:{ revert Hall. induction states as [|[id st] l IH]; simpl; intros H;
        [discriminate H|].
      destruct st; simpl in H.
      - destruct (IH H) as [id' H']. exists id'. right. exact H'.
      - exists id. left. reflexivity. }
  cbv zeta.
  set (k := if Nat.eqb limit 0 then 3%nat else limit).
  assert (Hk : exists k', k = S k').
  { unfold k. destruct limit; simpl; eauto. }
  set (f := fun e : string * option Entity.t =>
              (scoreEntity (metaOf e) rules, metaOf e)).
  set (pos := List.filter (fun p : Z * Meta => Z.ltb 0 (fst p)) (map f states)).
  assert (Hpos : pos = map f (List.filter
                   (fun e => Z.ltb 0 (scoreEntity (metaOf e) rules)) states)).
  { unfold pos. apply (filter_map_comm f (fun p => Z.ltb 0 (fst p))). }
  assert (Hin : forall p, In p (sortByScore pos) ->
            exists e, In e states /\ p = f e
              /\ (0 < scoreEntity (metaOf e) rules)%Z).
  { intros p Hp. apply (proj1 (sortByScore_In _ _)) in Hp. unfold pos in Hp.
    apply filter_In in Hp. destruct Hp as [Hp Hp0].
    apply in_map_iff in Hp. destruct Hp as (e & <- & He).
    exists e. repeat split; [exact He|]. simpl in Hp0. lia. }
  pose proof (sortByScore_sorted pos) as Hsorted.
  rewrite <- (firstn_skipn k (sortByScore pos)) in Hsorted.
  split; [|split; [|split; [|split; [|split]]]].
  - intros e He Hnone.
    pose proof (proj1 (forallb_forall _ _) Hall e He) as H.
    cbv beta in H. rewrite Hnone in H. discriminate H.
  - rewrite length_map, length_firstn, sortByScore_length, Hpos, length_map.
    reflexivity.
  - apply StronglySorted_app_1_l in Hsorted.
    induction Hsorted as [|a l Hl IH Ha]; simpl; constructor; [exact IH|].
    apply List.Forall_forall. intros m Hm.
    apply in_map_iff in Hm. destruct Hm as (b & <- & Hb).
    exists (fst a), (fst b). repeat split.
    exact (proj1 (List.Forall_forall _ _) Ha b Hb).
  - intros m Hm. apply in_map_iff in Hm. destruct Hm as (p & <- & Hp).
    assert (Hp' : In p (sortByScore pos)).
    { rewrite <- (firstn_skipn k (sortByScore pos)).
      apply in_or_app. left. exact Hp. }
    destruct (Hin p Hp') as (e & He & -> & He0).
    exists e. repeat split; assumption.
  - intros e He He0.
    assert (Hp : In (f e) (sortByScore pos)).
    { apply (proj2 (sortByScore_In _ _)). unfold pos. apply filter_In. split.
      - apply in_map. exact He.
      - simpl. apply Z.ltb_lt. exact He0. }
    rewrite <- (firstn_skipn k (sortByScore pos)) in Hp.
    apply in_app_or in Hp. destruct Hp as [Hp|Hp].
    + left. apply in_map_iff. exists (f e). split; [reflexivity|exact Hp].
    + right. intros m Hm. apply in_map_iff in Hm.
      destruct Hm as (p & <- & Hp'). exists (fst p). split; [reflexivity|].
      apply (proj1 (proj1 (StronglySorted_app _ _ _) Hsorted) p (f e)).
      * apply list_elem_of_In. exact Hp'.
      * apply list_elem_of_In. exact Hp.
  - pose proof (bestCandidateWith_spec rules states) as Hb.
    destruct (bestCandidateWith rules states) as [b|].
    + destruct Hb as (pre & e & post & Hs & -> & He0 & Hpre & Hpost).
      assert (Hsplit : pos = (List.filter (fun p => Z.ltb 0 (fst p)) (map f pre)
                              ++ f e
                              :: List.filter (fun p => Z.ltb 0 (fst p))
                                   (map f post))%list).
      { unfold pos. rewrite Hs, map_app, List.filter_app. simpl.
        destruct (Z.ltb_spec 0 (scoreEntity (metaOf e) rules)); [|lia].
        reflexivity. }
      destruct (sortByScore_head
                  (List.filter (fun p => Z.ltb 0 (fst p)) (map f pre))
                  (List.filter (fun p => Z.ltb 0 (fst p)) (map f post))
                  (f e)) as [t Ht].
      * intros a Ha. apply filter_In in Ha. destruct Ha as [Ha _].
        apply in_map_iff in Ha. destruct Ha as (e' & <- & He').
        exact (Hpre e' He').
      * intros a Ha. apply filter_In in Ha. destruct Ha as [Ha _].
        apply in_map_iff in Ha. destruct Ha as (e' & <- & He').
        exact (Hpost e' He').
      * rewrite Hsplit, Ht. destruct Hk as [k' ->]. reflexivity.
    + assert (E : pos = []).
      { unfold pos. apply filter_none. intros p Hp.
        apply in_map_iff in Hp. destruct Hp as (e & <- & He).
        specialize (Hb e He). simpl. apply Z.ltb_ge. exact Hb. }
      rewrite E. simpl. rewrite firstn_nil. reflexivity.
Qed.

Lemma bestCandidate_spec_id (k : Field)
    (states : list (string * option Entity.t)) :
  match bestCandidate k states with
  | Some b =>
      exists st, In (entity_id b, st) states
        /\ (0 < scoreEntity (metaOf (entity_id b, st)) (pickerRules k))%Z
  | None => True
  end.
Proof.
  unfold bestCandidate.
  pose proof (bestCandidateWith_spec (pickerRules k) states) as H.
  destruct (bestCandidateWith (pickerRules k) states) as [b|]; [|exact I].
  destruct H as (pre & [id st] & post & -> & -> & Hpos & _).
  exists st.
  assert (Hid : entity_id (withScore (scoreEntity (metaOf (id, st))
                  (pickerRules k)) (metaOf (id, st))) = id).
  { unfold withScore, metaOf. simpl. destruct st; reflexivity. }
  rewrite Hid. split; [|exact Hpos].
  apply in_or_app. right. left. reflexivity.
Qed.

Lemma fillField_other (states : list (string * option Entity.t))
    (out : Mapping) (k k' : Field) :
  k <> k' -> getField k' (fillField states out k) = getField k' out.
Proof.
  intros Hne. unfold fillField.
  destruct (negb _); [|reflexivity].
  destruct (bestCandidate k states) as [b|]; [|reflexivity].
  destruct (nonEmpty _); [|reflexivity].
  destruct k, k'; try reflexivity; contradiction Hne; reflexivity.
Qed.

Lemma fillField_same (states : list (string * option Entity.t))
    (out : Mapping) (k : Field) :
  getField k (fillField states out k)
  = if Js.truthy (getField k out) then getField k out
    else match bestCandidate k states with
         | Some b =>
             if nonEmpty (entity_id b) then Some (entity_id b)
             else getField k out
         | None => getField k out
         end.
Proof.
  unfold fillField.
  destruct (Js.truthy (getField k out)); simpl; [reflexivity|].
  destruct (bestCandidate k states) as [b|]; [|reflexivity].
  destruct (nonEmpty _); [|reflexivity].
  destruct k; reflexivity.
Qed.

Lemma mappingWithDefaults_field (m : Mapping) (k : Field) :
  getField k (mappingWithDefaults m) = Js.or (getField k m) None.
Proof. destruct k; reflexivity. Qed.

(** X19. [computeAutoFill] never replaces a field of the mapping that is
    set: such a field comes back as it is. A field that is not set (absent,
    [null] or empty) gets the id of the entity [bestCandidate] selects for
    it, and stays [null] when there is none or its id is empty; so an id it
    fills in is that of an entity of the states whose score for the field's
    rules is positive. *)
Theorem computeAutoFill_fills (m : Mapping)
    (states : list (string * option Entity.t)) (k : Field) :
  getField k (computeAutoFill m states)
  = (if Js.truthy (getField k m) then getField k m
     else match bestCandidate k states with
          | Some b =>
              if nonEmpty (entity_id b) then Some (entity_id b) else None
          | None => None
          end)
  /\ (Js.truthy (getField k m) = false ->
      forall id, getField k (computeAutoFill m states) = Some id ->
        exists st, In (id, st) states
          /\ (0 < scoreEntity (metaOf (id, st)) (pickerRules k))%Z).
Proof.
  assert (E : getField k (computeAutoFill m states)
    = (if Js.truthy (getField k m) then getField k m
       else match bestCandidate k states with
            | Some b =>
                if nonEmpty (entity_id b) then Some (entity_id b) else None
            | None => None
            end)).
  { unfold computeAutoFill. cbn [fold_left].
    assert (E0 : forall out,
      getField k out = Js.or (getField k m) None ->
      getField k (fillField states out k)
      = (if Js.truthy (getField k m) then getField k m
         else match bestCandidate k states with
              | Some b =>
                  if nonEmpty (entity_id b) then Some (entity_id b) else None
              | None => None
              end)).
    { intros out Hout. rewrite fillField_same, Hout. unfold Js.or.
      destruct (Js.truthy (getField k m)) eqn:Ht; [rewrite Ht; reflexivity|].
      reflexivity. }
    pose proof (mappingWithDefaults_field m k) as H0.
    destruct k.
    - rewrite !fillField_other by discriminate. apply E0. exact H0.
    - rewrite !fillField_other by discriminate. apply E0.
      rewrite !fillField_other by discriminate. exact H0.
    - rewrite !fillField_other by discriminate. apply E0.
      rewrite !fillField_other by discriminate. exact H0.
    - apply E0. rewrite !fillField_other by discriminate. exact H0. }
  split; [exact E|].
  intros Hf id Hid. rewrite E, Hf in Hid.
  pose proof (bestCandidate_spec_id k states) as Hb.
  destruct (bestCandidate k states) as [b|]; [|discriminate Hid].
  destruct (nonEmpty (entity_id b)); [|discriminate Hid].
  injection Hid as <-. exact Hb.
Qed.

Lemma computeAutoFill_fills_witness :
  Js.truthy (getField soc noMapping) = false
  /\ getField soc (computeAutoFill noMapping sampleStates)
     = Some "sensor.battery_soc"
  /\ exists st, In ("sensor.battery_soc", st) sampleStates
       /\ (0 < scoreEntity (metaOf ("sensor.battery_soc", st))
                 (pickerRules soc))%Z.
Proof.
  split; [reflexivity|]. split; [vm_compute; reflexivity|].
  apply (proj2 (computeAutoFill_fills noMapping sampleStates soc)).
  - reflexivity.
  - vm_compute. reflexivity.
Defined.

(** ** HTML escaping and the session list *)

Lemma append_cons (a : ascii) (s t : string) :
  (String a s ++ t)%string = String a (s ++ t)%string.
Proof. reflexivity. Qed.

Lemma append_empty (t : string) : ("" ++ t)%string = t.
Proof. reflexivity. Qed.

Lemma replaceAll_app (c : ascii) (r s t : string) :
  replaceAll c r (s ++ t)%string
  = (replaceAll c r s ++ replaceAll c r t)%string.
Proof.
  induction s as [|a s IH].
  - reflexivity.
  - rewrite append_cons. cbn [replaceAll]. rewrite IH.
    destruct (Ascii.eqb a c).
    + rewrite string_app_assoc. reflexivity.
    + rewrite append_cons. reflexivity.
Qed.

Lemma escapeHtml_cons (a : ascii) (s : string) :
  escapeHtml (String a s) = (escapeChar a ++ escapeHtml s)%string.
Proof.
  unfold escapeHtml, escapeChar. cbn [replaceAll].
  destruct (Ascii.eqb a "&") eqn:E1.
  - rewrite !replaceAll_app. reflexivity.
  - cbn [replaceAll]. destruct (Ascii.eqb a "<") eqn:E2.
    + rewrite !replaceAll_app. reflexivity.
    + cbn [replaceAll]. destruct (Ascii.eqb a ">") eqn:E3; reflexivity.
Qed.

Lemma escapeChar_cases (a : ascii) :
  (a = "&"%char /\ escapeChar a = "&amp;")
  \/ (a = "<"%char /\ escapeChar a = "&lt;")
  \/ (a = ">"%char /\ escapeChar a = "&gt;")
  \/ (a <> "&"%char /\ a <> "<"%char /\ a <> ">"%char
      /\ escapeChar a = String a EmptyString).
Proof.
  unfold escapeChar.
  destruct (Ascii.eqb_spec a "&"); [left; split; [assumption|reflexivity]|].
  destruct (Ascii.eqb_spec a "<");
    [right; left; split; [assumption|reflexivity]|].
  destruct (Ascii.eqb_spec a ">");
    [right; right; left; split; [assumption|reflexivity]|].
  right. right. right. repeat split; assumption.
Qed.

Lemma escapeHtml_inj (s t : string) : escapeHtml s = escapeHtml t -> s = t.
Proof.
  revert t. induction s as [|a s IH]; intros [|b t] H.
  - reflexivity.
  - rewrite escapeHtml_cons in H.
    destruct (escapeChar_cases b) as [[_ E]|[[_ E]|[[_ E]|(_ & _ & _ & E)]]];
      rewrite E in H; discriminate H.
  - rewrite escapeHtml_cons in H.
    destruct (escapeChar_cases a) as [[_ E]|[[_ E]|[[_ E]|(_ & _ & _ & E)]]];
      rewrite E in H; discriminate H.
  - rewrite !escapeHtml_cons in H.
    destruct (escapeChar_cases a)
      as [[Ha Ea]|[[Ha Ea]|[[Ha Ea]|(Ha1 & Ha2 & Ha3 & Ea)]]];
    destruct (escapeChar_cases b)
      as [[Hb Eb]|[[Hb Eb]|[[Hb Eb]|(Hb1 & Hb2 & Hb3 & Eb)]]];
    rewrite Ea, Eb in H; rewrite ?append_cons, ?append_empty in H;
    try discriminate H;
    try (injection H as H; subst; f_equal; apply IH; exact H);
    try (injection H as H0 H; subst; congruence).
    injection H as H0 H. subst. f_equal. apply IH. exact H.
Qed.

Lemma escapeHtml_noAngle (txt : string) : noAngle (escapeHtml txt).
Proof.
  unfold noAngle.
  induction txt as [|a s IH]; intros c Hc; [destruct Hc|].
  rewrite escapeHtml_cons in Hc.
  destruct (escapeChar_cases a)
    as [[Ha Ea]|[[Ha Ea]|[[Ha Ea]|(Ha1 & Ha2 & Ha3 & Ea)]]];
    rewrite Ea in Hc; rewrite ?append_cons, ?append_empty in Hc;
    cbn [list_ascii_of_string In] in Hc;
    repeat (destruct Hc as [<-|Hc];
            [split; intros E; first [discriminate E | congruence]|]);
    exact (IH c Hc).
Qed.

(** X20. [escapeHtml] is the character-wise escape: the three passes
    together turn each [&], [<] and [>] of the text into its entity once and
    keep every other character, the quotes included. So the result holds
    no [<] and no [>], a text without the three characters comes back
    unchanged, and two different texts never escape to the same one. *)
Theorem escapeHtml_spec (txt : string) :
  escapeHtml txt
  = String.concat "" (map escapeChar (list_ascii_of_string txt))
  /\ (forall c, In c (list_ascii_of_string (escapeHtml txt)) ->
        c <> "<"%char /\ c <> ">"%char)
  /\ ((forall c, In c (list_ascii_of_string txt) ->
         c <> "&"%char /\ c <> "<"%char /\ c <> ">"%char) ->
      escapeHtml txt = txt)
  /\ (forall txt', escapeHtml txt = escapeHtml txt' -> txt = txt').
Proof.
  split; [|split; [|split]].
  - induction txt as [|a s IH]; [reflexivity|].
    rewrite escapeHtml_cons, IH. cbn [list_ascii_of_string map].
    destruct (map escapeChar (list_ascii_of_string s)) eqn:E.
    + cbn [String.concat]. destruct (escapeChar a); [reflexivity|].
      rewrite append_cons. f_equal.
      clear. induction s0 as [|c s0 IH]; [reflexivity|].
      rewrite append_cons, IH. reflexivity.
    + cbn [String.concat]. rewrite append_empty. reflexivity.
  - apply escapeHtml_noAngle.
  - induction txt as [|a s IH]; intros H; [reflexivity|].
    rewrite escapeHtml_cons.
    destruct (H a (or_introl eq_refl)) as (H1 & H2 & H3).
    destruct (escapeChar_cases a)
      as [[Ha Ea]|[[Ha Ea]|[[Ha Ea]|(Ha1 & Ha2 & Ha3 & Ea)]]];
      try contradiction.
    rewrite Ea, append_cons, append_empty. f_equal. apply IH.
    intros c Hc. apply H. right. exact Hc.
  - intros txt'. apply escapeHtml_inj.
Qed.

Lemma escapeHtml_spec_witness :
  (forall c, In c (list_ascii_of_string "it's 5") ->
     c <> "&"%char /\ c <> "<"%char /\ c <> ">"%char)
  /\ escapeHtml "it's 5" = "it's 5".
Proof.
  assert (H : forall c, In c (list_ascii_of_string "it's 5") ->
     c <> "&"%char /\ c <> "<"%char /\ c <> ">"%char).
  { intros c Hc. simpl in Hc.
    repeat (destruct Hc as [<-|Hc];
            [repeat split; intros E; discriminate E|]).
    destruct Hc. }
  split; [exact H|].
  exact (proj1 (proj2 (proj2 (escapeHtml_spec "it's 5"))) H).
Defined.

Lemma addSession_loop (arr : list (option Session.t))
    (opts0 : list (string * OptionText)) (seen0 : gset string) :
  (forall k, k ∈ seen0 <-> In k (map fst opts0)) ->
  NoDup (map fst opts0) ->
  (forall o, In o opts0 -> fst o <> "") ->
  exists added,
    fst (fold_left addSession arr (opts0, seen0)) = (opts0 ++ added)%list
    /\ NoDup (map fst (opts0 ++ added)%list)
    /\ (forall o, In o (opts0 ++ added)%list -> fst o <> "")
    /\ (forall s, In s arr -> Js.truthy (sessionKeyOf s) = true ->
          In (Js.strOr (sessionKeyOf s)) (map fst (opts0 ++ added)%list))
    /\ (forall o, In o added ->
          exists s, In s arr /\ sessionKeyOf s = Some (fst o)).
Proof.
  revert opts0 seen0. induction arr as [|s arr IH]; intros opts0 seen0 Hseen Hnd Hne.
  - exists []. simpl. rewrite app_nil_r.
    repeat split; try assumption; intros ? [].
  - cbn [fold_left]. unfold addSession at 2. cbn [fst snd].
    destruct (Js.truthy (sessionKeyOf s)) eqn:Ht; cbn [negb orb].
    + destruct (bool_decide (Js.strOr (sessionKeyOf s) ∈ seen0)) eqn:Hd.
      * apply bool_decide_eq_true in Hd.
        destruct (IH opts0 seen0 Hseen Hnd Hne)
          as (added & E & Hnd' & Hne' & Hall & Hfrom).
        exists added. repeat split; try assumption.
        -- intros s' [<-|Hs'] Ht'.
           ++ rewrite map_app. apply in_or_app. left.
              apply Hseen. exact Hd.
           ++ exact (Hall s' Hs' Ht').
        -- intros o Ho. destruct (Hfrom o Ho) as (s' & Hs' & Hk).
           exists s'. split; [right; exact Hs'|exact Hk].
      * apply bool_decide_eq_false in Hd.
        set (k := Js.strOr (sessionKeyOf s)) in *.
        assert (Hk : sessionKeyOf s = Some k /\ k <> "").
        { unfold k. destruct (sessionKeyOf s) as [x|]; [|discriminate Ht].
          split; [reflexivity|]. simpl in Ht. simpl.
          intros ->. discriminate Ht. }
        match goal with
        | |- context [(opts0 ++ [?o])%list] => set (new := o)
        end.
        assert (Hfst : fst new = k) by reflexivity.
        clearbody new.
        destruct (IH (opts0 ++ [new])%list ({[k]} ∪ seen0))
          as (added & E & Hnd' & Hne' & Hall & Hfrom).
        -- intros x. rewrite elem_of_union, elem_of_singleton, map_app.
           rewrite in_app_iff, Hseen. simpl. rewrite Hfst.
           split.
           ++ intros [->|H]; [right; left; reflexivity|left; exact H].
           ++ intros [H|[<-|[]]]; [right; exact H|left; reflexivity].
        -- rewrite map_app. simpl. rewrite Hfst.
           apply NoDup_app. split; [exact Hnd|]. split.
           ++ intros x Hx Hx'. apply list_elem_of_In in Hx.
              apply list_elem_of_In in Hx'. destruct Hx' as [<-|[]].
              apply Hd. apply (proj2 (Hseen k)). exact Hx.
           ++ apply NoDup_singleton.
        -- intros o Ho. apply in_app_or in Ho. destruct Ho as [Ho|[<-|[]]].
           ++ exact (Hne o Ho).
           ++ rewrite Hfst. exact (proj2 Hk).
        -- exists (new :: added).
           rewrite <- app_assoc in E, Hnd', Hne', Hall. simpl in E, Hnd', Hne', Hall.
           repeat split; try assumption.
           ++ intros s' [<-|Hs'] Ht'.
              ** rewrite map_app. apply in_or_app. right. left. exact Hfst.
              ** exact (Hall s' Hs' Ht').
           ++ intros o [<-|Ho].
              ** exists s. split; [left; reflexivity|].
                 rewrite Hfst. exact (proj1 Hk).
              ** destruct (Hfrom o Ho) as (s' & Hs' & Hk').
                 exists s'. split; [right; exact Hs'|exact Hk'].
    + destruct (IH opts0 seen0 Hseen Hnd Hne)
        as (added & E & Hnd' & Hne' & Hall & Hfrom).
      exists added. repeat split; try assumption.
      * intros s' [<-|Hs'] Ht'; [rewrite Ht in Ht'; discriminate Ht'|].
        exact (Hall s' Hs' Ht').
      * intros o Ho. destruct (Hfrom o Ho) as (s' & Hs' & Hk).
        exists s'. split; [right; exact Hs'|exact Hk].
Qed.

(** X21. When the list of sessions arrives, [refreshSessions] fills the
    select so that its first option is the session in use (the current
    session key, else the selected value, else the configured key, else
    [main]), shown under its own key and never empty, whether or not the
    list holds it, and that is the value it selects. After it come the
    sessions of the list that have a key, each once: the values of the
    options are distinct and not empty, every key of the list is among
    them, and every option after the first comes from the list. *)
Theorem refreshSessions_options (chatSessionKey selValue : string)
    (cfgKey : Js.value) (arr : list (option Session.t)) :
  let current := if nonEmpty chatSessionKey then chatSessionKey else selValue in
  let fallback :=
    if nonEmpty current then current
    else if Js.truthy cfgKey then Js.strOr cfgKey else "main" in
  exists rest,
    refreshSessions chatSessionKey selValue cfgKey arr
    = ((fallback, TextKey fallback) :: rest, fallback)
    /\ fallback <> ""
    /\ NoDup (fallback :: map fst rest)
    /\ (forall o, In o rest -> fst o <> "")
    /\ (forall s, In s arr -> Js.truthy (sessionKeyOf s) = true ->
          In (Js.strOr (sessionKeyOf s)) (fallback :: map fst rest))
    /\ (forall o, In o rest ->
          exists s, In s arr /\ sessionKeyOf s = Some (fst o)).
Proof.
  intros current fallback.
  assert (Hfb : nonEmpty fallback = true).
  { unfold fallback. destruct (nonEmpty current) eqn:Hc; [exact Hc|].
    destruct cfgKey as [x|]; [|reflexivity].
    unfold Js.truthy, Js.strOr, nonEmpty.
    destruct (String.eqb x "") eqn:Hx; simpl; rewrite ?Hx; reflexivity. }
  assert (Hne : fallback <> "").
  { intros E. rewrite E in Hfb. discriminate Hfb. }
  unfold refreshSessions. fold current. fold fallback. rewrite Hfb.
  destruct (addSession_loop arr [(fallback, TextKey fallback)] {[fallback]})
    as (rest & E & Hnd & Hne' & Hall & Hfrom).
  - intros k. rewrite elem_of_singleton. simpl. split.
    + intros ->. left. reflexivity.
    + intros [H|[]]. symmetry. exact H.
  - simpl. apply NoDup_singleton.
  - intros o [<-|[]]. exact Hne.
  - exists rest. rewrite E. simpl in *.
    repeat split; try assumption.
    + f_equal. unfold fallback. destruct (nonEmpty current); reflexivity.
    + intros o Ho. apply Hne'. right. exact Ho.
Qed.

(** ** The HTML of a chat bubble *)

Lemma append_nil_r (s : string) : (s ++ "")%string = s.
Proof.
  induction s as [|a s IH]; [reflexivity|].
  rewrite append_cons, IH. reflexivity.
Qed.

Lemma piecesHtml_app (ps qs : list Piece) :
  piecesHtml (ps ++ qs)%list = (piecesHtml ps ++ piecesHtml qs)%string.
Proof.
  induction ps as [|p ps IH]; [reflexivity|].
  cbn [app piecesHtml fold_right]. fold (piecesHtml (ps ++ qs)%list).
  fold (piecesHtml ps). rewrite IH, string_app_assoc. reflexivity.
Qed.

Lemma noAngle_cons (a : ascii) (s : string) :
  noAngle (String a s) -> noAngle s.
Proof. intros H c Hc. apply H. right. exact Hc. Qed.

(** Replacing in a text without angle brackets gives text and line
    breaks. *)
Lemma replaceAllAux_pieces (pat : string) (s : string) (skip : nat) :
  noAngle s ->
  exists ps,
    replaceAllAux pat "<br/>" skip s = piecesHtml ps
    /\ (forall t, In (Text t) ps -> noAngle t)
    /\ ~ In PreOpen ps /\ ~ In PreClose ps.
Proof.
  revert skip. induction s as [|a s IH]; intros skip Hs.
  - exists []. split; [destruct skip; reflexivity|].
    split; [intros t []|]. split; intros [].
  - pose proof (noAngle_cons a s Hs) as Hs'.
    cbn [replaceAllAux]. destruct skip as [|k].
    + destruct (String.prefix pat (String a s)).
      * destruct (IH (String.length pat - 1)%nat Hs')
          as (ps & E & Hps & Ho & Hc).
        exists (Br :: ps). rewrite E.
        split; [reflexivity|]. split; [|split].
        -- intros t [Ht|Ht]; [discriminate Ht|exact (Hps t Ht)].
        -- intros [H|H]; [discriminate H|exact (Ho H)].
        -- intros [H|H]; [discriminate H|exact (Hc H)].
      * destruct (IH 0%nat Hs') as (ps & E & Hps & Ho & Hc).
        exists (Text (String a "") :: ps). rewrite E.
        split; [reflexivity|]. split; [|split].
        -- intros t [Ht|Ht]; [|exact (Hps t Ht)].
           injection Ht as <-. intros c [<-|[]].
           apply Hs. left. reflexivity.
        -- intros [H|H]; [discriminate H|exact (Ho H)].
        -- intros [H|H]; [discriminate H|exact (Hc H)].
    + exact (IH k Hs').
Qed.

Lemma renderPart_pieces (parts : list string) (html : string) (i : nat)
    (ps0 : list Piece) :
  html = piecesHtml ps0 ->
  (forall t, In (Text t) ps0 -> noAngle t) ->
  exists ps,
    fst (fold_left renderPart parts (html, i)) = piecesHtml ps
    /\ (forall t, In (Text t) ps -> noAngle t).
Proof.
  revert html i ps0. induction parts as [|p parts IH]; intros html i ps0 E H0.
  - exists ps0. split; assumption.
  - cbn [fold_left]. unfold renderPart at 2. cbn [fst snd].
    destruct (Nat.even i).
    + destruct (replaceAllAux_pieces backslashN (escapeHtml p) 0
                  (escapeHtml_noAngle p)) as (ps & Eps & Hps & _).
      apply (IH _ _ (ps0 ++ ps)%list).
      * rewrite piecesHtml_app, <- E. unfold replaceAllStr. rewrite Eps.
        reflexivity.
      * intros t Ht. apply in_app_or in Ht.
        destruct Ht as [Ht|Ht]; [exact (H0 t Ht)|exact (Hps t Ht)].
    + apply (IH _ _ (ps0 ++ [PreOpen; Text (escapeHtml p); PreClose])%list).
      * rewrite piecesHtml_app, <- E. cbn [piecesHtml fold_right pieceHtml].
        rewrite append_nil_r. reflexivity.
      * intros t Ht. apply in_app_or in Ht. destruct Ht as [Ht|Ht].
        -- exact (H0 t Ht).
        -- destruct Ht as [Ht|[Ht|[Ht|[]]]]; try discriminate Ht.
           injection Ht as <-. apply escapeHtml_noAngle.
Qed.

Lemma splitAux_none (sep s cur : string) :
  includes sep s = false -> splitAux sep 0 cur s = [(cur ++ s)%string].
Proof.
  revert cur. induction s as [|a s IH]; intros cur H.
  - simpl. rewrite append_nil_r. reflexivity.
  - cbn [includes] in H. apply orb_false_iff in H. destruct H as [H1 H2].
    cbn [splitAux]. rewrite H1, (IH _ H2), string_app_assoc. reflexivity.
Qed.

Lemma replaceAllAux_none (pat rep s : string) :
  includes pat s = false -> replaceAllAux pat rep 0 s = s.
Proof.
  induction s as [|a s IH]; intros H; [reflexivity|].
  cbn [includes] in H. apply orb_false_iff in H. destruct H as [H1 H2].
  cbn [replaceAllAux]. rewrite H1, (IH H2). reflexivity.
Qed.

Lemma prefix_backslashN (s : string) :
  String.prefix backslashN s = true ->
  exists s', s = String "\" (String "n" s').
Proof.
  unfold backslashN. destruct s as [|a [|b s']]; cbn [String.prefix]; intros H.
  - discriminate H.
  - destruct (ascii_dec "\" a); discriminate H.
  - destruct (ascii_dec "\" a) as [<-|]; [|discriminate H].
    destruct (ascii_dec "n" b) as [<-|]; [|discriminate H].
    exists s'. reflexivity.
Qed.

(** Escaping neither makes nor breaks a backslash followed by [n]. *)
Lemma escapeHtml_backslashN (s : string) :
  includes backslashN s = false ->
  includes backslashN (escapeHtml s) = false.
Proof.
  induction s as [|a s IH]; intros H; [reflexivity|].
  cbn [includes] in H. apply orb_false_iff in H. destruct H as [H1 H2].
  specialize (IH H2). rewrite escapeHtml_cons.
  destruct (escapeChar_cases a)
    as [[Ha Ea]|[[Ha Ea]|[[Ha Ea]|(Ha1 & Ha2 & Ha3 & Ea)]]]; rewrite Ea;
    rewrite ?append_cons, ?append_empty;
    try (cbn [includes]; rewrite IH;
         repeat (rewrite ?append_cons; cbn [includes];
                 match goal with
                 | |- context [String.prefix backslashN (String ?c ?r)] =>
                     replace (String.prefix backslashN (String c r))
                       with false by reflexivity
                 end; cbn [orb]);
         reflexivity).
  cbn [includes]. rewrite IH, orb_false_r.
  apply not_true_is_false. intros Hp.
  apply prefix_backslashN in Hp. destruct Hp as [s' Hp].
  injection Hp as -> Hs'.
  destruct s as [|b s]; [discriminate Hs'|].
  rewrite escapeHtml_cons in Hs'.
  destruct (escapeChar_cases b)
    as [[Hb Eb]|[[Hb Eb]|[[Hb Eb]|(Hb1 & Hb2 & Hb3 & Eb)]]]; rewrite Eb in Hs';
    rewrite ?append_cons, ?append_empty in Hs'; try discriminate Hs'.
  injection Hs' as -> _.
  clear - H1. destruct s; vm_compute in H1; discriminate H1.
Qed.

(** X22. The HTML that [renderChat] builds from the text of a message is
    made of text without angle brackets and of the tags [<br/>],
    [<pre><code>] and [</code></pre>] only: nothing in the text of a message
    can open a tag of its own. A text with no code fence and no backslash
    followed by [n] is rendered as its escape and nothing else; in
    particular a line feed is left as it is and gets no [<br/>]. *)
Theorem bubbleHtml_safe (text : Js.value) :
  (exists ps,
     bubbleHtml text = piecesHtml ps
     /\ forall t, In (Text t) ps -> noAngle t)
  /\ (includes "```" (Js.strOr text) = false ->
      includes backslashN (Js.strOr text) = false ->
      bubbleHtml text = escapeHtml (Js.strOr text)).
Proof.
  split.
  - unfold bubbleHtml.
    apply (renderPart_pieces _ "" 0 []); [reflexivity|intros t []].
  - intros Hf Hn. unfold bubbleHtml, split.
    rewrite (splitAux_none _ _ "" Hf), append_empty.
    cbn [fold_left renderPart fst snd Nat.even]. rewrite append_empty.
    unfold replaceAllStr.
    apply replaceAllAux_none. apply escapeHtml_backslashN. exact Hn.
Qed.

Lemma bubbleHtml_safe_witness :
  bubbleHtml (Some (String "a" (String "010" (String "<" "b>"))))
  = String "a" (String "010" "&lt;b&gt;").
Proof.
  apply (proj2 (bubbleHtml_safe
                  (Some (String "a" (String "010" (String "<" "b>")))))).
  - vm_compute. reflexivity.
  - vm_compute. reflexivity.
Defined.
